(** * Verse alignment core of the Quran agent: normalisation, similarity
      scoring, page matching and source reconciliation.

    The development embeds, function by function,

    - [src/gui/Agent/text_processor_advanced.py] (class
      [AdvancedTextProcessor]): [normalize_text], [clean_text],
      [extract_verse_numbers], the similarity scorers, [find_best_match],
      [split_into_words], [merge_segments], [detect_text_direction] and
      [_calculate_language_confidence];
    - [src/old-extractors/ayat_extractor_main.py] (class [AyatExtractor]):
      [_calculate_bbox_overlap], [_merge_ai_results],
      [_calculate_match_score], [match_ayat_with_texts], [extract_from_svg]
      and [extract_from_pdf];

    together with the two library routines the scorer calls,
    [difflib.SequenceMatcher(None, a, b).ratio()] and
    [Levenshtein.distance].

    Conventions.
    - A Python [str] is the list of its Unicode code points.
    - A Python [float] is an exact rational ([Q]), compared with [Qeq]
      ([==]).  The code computes in binary64, where the quotient of two
      equal counts is exactly 1 and a weighted sum is rounded in its last
      place.  The statements about scores are written accordingly: as
      equalities of components that are exact, as the weighted sums the
      code writes down, or as bounds that leave room for the rounding.
    - Python sets are [gset]s, dictionaries with string keys are [gmap]s.
    - [unicodedata.normalize('NFKC', _)] is a parameter of the text
      processor: its table is not part of the repository. *)

From Stdlib Require Import ZArith QArith Qminmax Qabs Lia Lqa List Bool String
  Sorted.
From stdpp Require Import base gmap sets list strings.
Import ListNotations.

(** ** Python strings *)

Definition str := list Z.

Definition Qnat (n : nat) : Q := inject_Z (Z.of_nat n).

(** Membership in a list of inclusive code-point ranges. *)
Definition in_ranges (rs : list (Z * Z)) (c : Z) : bool :=
  existsb (fun r => (fst r <=? c)%Z && (c <=? snd r)%Z) rs.

(** [str.isspace] on one character, which is also the class [\s] of [re] on
    [str] patterns (CPython's [_PyUnicode_IsWhitespace]). *)
Definition WHITESPACE_RANGES : list (Z * Z) :=
  [ (0x09, 0x0D); (0x1C, 0x20); (0x85, 0x85); (0xA0, 0xA0);
    (0x1680, 0x1680); (0x2000, 0x200A); (0x2028, 0x2029);
    (0x202F, 0x202F); (0x205F, 0x205F); (0x3000, 0x3000) ]%Z.

Definition py_isspace (c : Z) : bool := in_ranges WHITESPACE_RANGES c.

(** The class [\d] of [re] on [str] patterns: Unicode category Nd
    (Unicode 14.0, as shipped with CPython 3.11).  Every range is a whole
    number of runs of the ten digits 0..9 in order. *)
Definition DECIMAL_RANGES : list (Z * Z) :=
  [ (0x30, 0x39); (0x660, 0x669); (0x6F0, 0x6F9); (0x7C0, 0x7C9);
    (0x966, 0x96F); (0x9E6, 0x9EF); (0xA66, 0xA6F); (0xAE6, 0xAEF);
    (0xB66, 0xB6F); (0xBE6, 0xBEF); (0xC66, 0xC6F); (0xCE6, 0xCEF);
    (0xD66, 0xD6F); (0xDE6, 0xDEF); (0xE50, 0xE59); (0xED0, 0xED9);
    (0xF20, 0xF29); (0x1040, 0x1049); (0x1090, 0x1099); (0x17E0, 0x17E9);
    (0x1810, 0x1819); (0x1946, 0x194F); (0x19D0, 0x19D9); (0x1A80, 0x1A89);
    (0x1A90, 0x1A99); (0x1B50, 0x1B59); (0x1BB0, 0x1BB9); (0x1C40, 0x1C49);
    (0x1C50, 0x1C59); (0xA620, 0xA629); (0xA8D0, 0xA8D9); (0xA900, 0xA909);
    (0xA9D0, 0xA9D9); (0xA9F0, 0xA9F9); (0xAA50, 0xAA59); (0xABF0, 0xABF9);
    (0xFF10, 0xFF19); (0x104A0, 0x104A9); (0x10D30, 0x10D39);
    (0x11066, 0x1106F); (0x110F0, 0x110F9); (0x11136, 0x1113F);
    (0x111D0, 0x111D9); (0x112F0, 0x112F9); (0x11450, 0x11459);
    (0x114D0, 0x114D9); (0x11650, 0x11659); (0x116C0, 0x116C9);
    (0x11730, 0x11739); (0x118E0, 0x118E9); (0x11950, 0x11959);
    (0x11C50, 0x11C59); (0x11D50, 0x11D59); (0x11DA0, 0x11DA9);
    (0x16A60, 0x16A69); (0x16AC0, 0x16AC9); (0x16B50, 0x16B59);
    (0x1D7CE, 0x1D7FF); (0x1E140, 0x1E149); (0x1E2F0, 0x1E2F9);
    (0x1E950, 0x1E959); (0x1FBF0, 0x1FBF9) ]%Z.

Definition py_isdecimal (c : Z) : bool := in_ranges DECIMAL_RANGES c.

(** The value of a decimal digit, as [int] reads it. *)
Definition digit_value (c : Z) : Z :=
  match find (fun r => (fst r <=? c)%Z && (c <=? snd r)%Z) DECIMAL_RANGES with
  | Some r => ((c - fst r) mod 10)%Z
  | None => 0%Z
  end.

(** [int(s)] for a string [s] of decimal digits (of any script). *)
Definition py_int (s : str) : Z :=
  fold_left (fun acc c => (10 * acc + digit_value c)%Z) s 0%Z.

(** [s.strip()]: white space removed at both ends. *)
Fixpoint lstrip (s : str) : str :=
  match s with
  | [] => []
  | c :: s' => if py_isspace c then lstrip s' else s
  end.

Definition rstrip (s : str) : str := rev (lstrip (rev s)).

Definition strip (s : str) : str := rstrip (lstrip s).

(** [s.split()]: the maximal runs of characters that are not white space.
    [cur] holds, reversed, the word being read. *)
Fixpoint split_from (cur : str) (s : str) : list str :=
  match s with
  | [] => match cur with [] => [] | _ => [rev cur] end
  | c :: s' =>
      if py_isspace c
      then match cur with
           | [] => split_from [] s'
           | _ => rev cur :: split_from [] s'
           end
      else split_from (c :: cur) s'
  end.

Definition split (s : str) : list str := split_from [] s.

(** [s.replace(old, new)] where [old] is one character: every pattern the
    modelled code replaces is a single code point. *)
Definition replace (old : Z) (new : str) (s : str) : str :=
  flat_map (fun c => if (c =? old)%Z then new else [c]) s.

(** [re.sub('[cls]', repl, s)]: every character of the class is replaced. *)
Definition re_sub_class (cls : Z -> bool) (repl : str) (s : str) : str :=
  flat_map (fun c => if cls c then repl else [c]) s.

(** [re.sub('[cls]+', repl, s)]: every maximal run of characters of the class
    is replaced by one [repl].  [inrun] tells that the previous character
    belonged to the run being replaced. *)
Fixpoint re_sub_runs_from (cls : Z -> bool) (repl : str) (inrun : bool)
    (s : str) : str :=
  match s with
  | [] => []
  | c :: s' =>
      if cls c
      then (if inrun then [] else repl) ++ re_sub_runs_from cls repl true s'
      else c :: re_sub_runs_from cls repl false s'
  end.

Definition re_sub_runs (cls : Z -> bool) (repl : str) (s : str) : str :=
  re_sub_runs_from cls repl false s.

(** [re.finditer('[cls]+', s)]: the maximal runs of the class with their start
    offsets ([match.start()], [match.group()]).  [cur] is the run being read:
    its start and its characters, reversed. *)
Fixpoint finditer_runs_from (cls : Z -> bool) (pos : nat)
    (cur : option (nat * str)) (s : str) : list (nat * str) :=
  match s with
  | [] => match cur with
          | Some (st, r) => [(st, rev r)]
          | None => []
          end
  | c :: s' =>
      if cls c
      then match cur with
           | Some (st, r) => finditer_runs_from cls (S pos) (Some (st, c :: r)) s'
           | None => finditer_runs_from cls (S pos) (Some (pos, [c])) s'
           end
      else match cur with
           | Some (st, r) => (st, rev r) :: finditer_runs_from cls (S pos) None s'
           | None => finditer_runs_from cls (S pos) None s'
           end
  end.

Definition finditer_runs (cls : Z -> bool) (s : str) : list (nat * str) :=
  finditer_runs_from cls 0 None s.

(** [s[lo:hi]] for [0 <= lo]. *)
Definition slice (lo hi : nat) (s : str) : str := take (hi - lo) (drop lo s).

(** [sorted(l, key=...)] and [l.sort(key=...)]: Python's sort is stable;
    [le x y] tells that the key of [x] is at most the key of [y].  Inserting
    from the right keeps elements of equal keys in their original order. *)
Fixpoint insert_by {A} (le : A -> A -> bool) (x : A) (l : list A) : list A :=
  match l with
  | [] => [x]
  | y :: l' => if le x y then x :: l else y :: insert_by le x l'
  end.

Definition sorted_by {A} (le : A -> A -> bool) (l : list A) : list A :=
  foldr (insert_by le) [] l.

(** ** [Levenshtein.distance]

    The edit distance with unit costs for insertion, deletion and
    substitution, by its defining recurrence. *)
Module Levenshtein.

Fixpoint distance (a b : str) : nat :=
  match a with
  | [] => length b
  | x :: a' =>
      (fix against (b : str) : nat :=
         match b with
         | [] => length a
         | y :: b' =>
             Nat.min (Nat.min (S (distance a' b)) (S (against b')))
                     ((if (x =? y)%Z then 0 else 1) + distance a' b')
         end) b
  end.

End Levenshtein.

(** ** [difflib.SequenceMatcher(None, a, b).ratio()]

    CPython's [difflib] with [isjunk = None] and [autojunk = True]: no
    element is junk, and when [b] has 200 elements or more the elements that
    occur more than [len(b) // 100 + 1] times are "popular" and left out of
    the index [b2j]. *)
Module difflib.

(** A matching block [Match(a=i, b=j, size=k)]. *)
Definition Match : Type := nat * nat * nat.

Definition size (m : Match) : nat := snd m.

(** A window [(alo, ahi, blo, bhi)] still to be examined. *)
Definition window : Type := nat * nat * nat * nat.

(** The positions of [x] in [b], ascending; [pos] is the index of the head. *)
Fixpoint indices_from (pos : nat) (x : Z) (b : str) : list nat :=
  match b with
  | [] => []
  | y :: b' =>
      if (y =? x)%Z then pos :: indices_from (S pos) x b'
      else indices_from (S pos) x b'
  end.

(** [__chain_b]: the popular elements of [b]. *)
Definition bpopular (b : str) (x : Z) : bool :=
  (200 <=? length b) && (length b / 100 + 1 <? length (indices_from 0 x b)).

(** [b2j.get(x, [])] once the popular elements are purged. *)
Definition b2j_get (b : str) (x : Z) : list nat :=
  if bpopular b x then [] else indices_from 0 x b.

(** [j2len.get(j - 1, 0)]: no key is negative, so the lookup at [j = 0]
    yields the default. *)
Definition j2len_get_pred (j2len : gmap nat nat) (j : nat) : nat :=
  match j with
  | O => 0
  | S j' => default 0 (j2len !! j')
  end.

(** The inner loop of [find_longest_match] for one [i]: [js] are the
    positions of [a[i]] in [b]; positions below [blo] are skipped
    ([continue]) and the first one at or above [bhi] ends the loop
    ([break]). *)
Fixpoint scan_row (i blo bhi : nat) (j2len : gmap nat nat) (js : list nat)
    (newj2len : gmap nat nat) (best : Match) : gmap nat nat * Match :=
  match js with
  | [] => (newj2len, best)
  | j :: js' =>
      if j <? blo then scan_row i blo bhi j2len js' newj2len best
      else if bhi <=? j then (newj2len, best)
      else
        let k := j2len_get_pred j2len j + 1 in
        let newj2len := <[j := k]> newj2len in
        let best := if size best <? k then (i + 1 - k, j + 1 - k, k) else best in
        scan_row i blo bhi j2len js' newj2len best
  end.

(** The outer loop, [for i in range(alo, ahi)]; [rows] lists the remaining
    values of [i].  The indices stay inside [a], so [a[i]] is defined. *)
Fixpoint scan_rows (a b : str) (blo bhi : nat) (rows : list nat)
    (j2len : gmap nat nat) (best : Match) : Match :=
  match rows with
  | [] => best
  | i :: rows' =>
      match a !! i with
      | Some x =>
          let '(newj2len, best) :=
            scan_row i blo bhi j2len (b2j_get b x) ∅ best in
          scan_rows a b blo bhi rows' newj2len best
      | None => best
      end
  end.

(** The first extension loop: while the elements before the block agree,
    the block grows to the left.  [n] is [besti - alo], the number of
    iterations left before [besti] reaches [alo]. *)
Fixpoint extend_left (a b : str) (blo : nat) (n : nat) (m : Match) : Match :=
  match n with
  | O => m
  | S n' =>
      let '(besti, bestj, bestsize) := m in
      if (blo <? bestj)
         && bool_decide (is_Some (a !! (besti - 1))
                         ∧ a !! (besti - 1) = b !! (bestj - 1))
      then extend_left a b blo n' (besti - 1, bestj - 1, bestsize + 1)
      else m
  end.

(** The second extension loop: the block grows to the right; [n] is
    [ahi - (besti + bestsize)]. *)
Fixpoint extend_right (a b : str) (bhi : nat) (n : nat) (m : Match) : Match :=
  match n with
  | O => m
  | S n' =>
      let '(besti, bestj, bestsize) := m in
      if (bestj + bestsize <? bhi)
         && bool_decide (is_Some (a !! (besti + bestsize))
                         ∧ a !! (besti + bestsize) = b !! (bestj + bestsize))
      then extend_right a b bhi n' (besti, bestj, bestsize + 1)
      else m
  end.

(** [find_longest_match(alo, ahi, blo, bhi)].  The two last loops of the
    Python function extend the block over junk elements only; there is no
    junk, so they do nothing and are left out. *)
Definition find_longest_match (a b : str) (alo ahi blo bhi : nat) : Match :=
  let best := scan_rows a b blo bhi (seq alo (ahi - alo)) ∅ (alo, blo, 0) in
  let best := extend_left a b blo (fst (fst best) - alo) best in
  extend_right a b bhi (ahi - (fst (fst best) + size best)) best.

(** The loop of [get_matching_blocks].  [queue] is the Python list used as a
    stack: its last element, taken by [queue.pop()], is the head here, and
    [queue.append] is a cons.  Every step either drops a window or splits it
    around a non-empty block, so [2 * len(a) + 1] steps empty the queue
    ([fuel], see [matching_loop_fuel]). *)
Fixpoint matching_loop (a b : str) (fuel : nat) (queue : list window)
    (matching_blocks : list Match) : list Match :=
  match fuel, queue with
  | _, [] => matching_blocks
  | O, _ => matching_blocks
  | S fuel', (alo, ahi, blo, bhi) :: queue =>
      let x := find_longest_match a b alo ahi blo bhi in
      let '(i, j, k) := x in
      if k =? 0 then matching_loop a b fuel' queue matching_blocks
      else
        let queue :=
          if (alo <? i) && (blo <? j) then (alo, i, blo, j) :: queue
          else queue in
        let queue :=
          if (i + k <? ahi) && (j + k <? bhi) then (i + k, ahi, j + k, bhi) :: queue
          else queue in
        matching_loop a b fuel' queue (matching_blocks ++ [x])
  end.

(** The blocks of [get_matching_blocks], before they are sorted and adjacent
    ones are merged: neither changes the sum of their sizes, which is all
    [ratio] reads. *)
Definition get_matching_blocks (a b : str) : list Match :=
  matching_loop a b (2 * length a + 1) [(0, length a, 0, length b)] [].

Definition matches (a b : str) : nat :=
  foldr (fun m acc => size m + acc) 0 (get_matching_blocks a b).

(** [_calculate_ratio(matches, length)]. *)
Definition _calculate_ratio (matches length : nat) : Q :=
  if 0 <? length then (2 * Qnat matches / Qnat length)%Q else 1%Q.

(** [SequenceMatcher(None, a, b).ratio()]. *)
Definition ratio (a b : str) : Q :=
  _calculate_ratio (matches a b) (length a + length b).

End difflib.

(** ** [AdvancedTextProcessor] (text_processor_advanced.py) *)

(** An insertion-ordered Python [dict] from characters to strings: setting a
    key that is present changes its value in place, a new key goes last.  A
    dictionary display with a repeated key, and [dict.update], both set the
    keys one after the other. *)
Definition char_dict := list (Z * str).

Fixpoint dict_set (k : Z) (v : str) (d : char_dict) : char_dict :=
  match d with
  | [] => [(k, v)]
  | (k', v') :: d' =>
      if (k' =? k)%Z then (k, v) :: d' else (k', v') :: dict_set k v d'
  end.

Definition dict_update (d : char_dict) (items : list (Z * str)) : char_dict :=
  fold_left (fun d kv => dict_set (fst kv) (snd kv) d) items d.

(** [NORMALIZATION_RULES], one display per category, keys in source order. *)
Definition alef_variants : list (Z * str) :=
  [ (0x0623, [0x0627]); (0x0625, [0x0627]); (0x0622, [0x0627]);
    (0x0671, [0x0627]); (0xFE83, [0x0627]); (0xFE87, [0x0627]);
    (0xFE81, [0x0627]); (0xFE8D, [0x0627]); (0xFE8E, [0x0627]);
    (0x0671, [0x0627]); (0x0672, [0x0627]); (0x0673, [0x0627]);
    (0x0675, [0x0627]) ]%Z.

Definition yaa_variants : list (Z * str) :=
  [ (0x0649, [0x064A]); (0xFEEF, [0x064A]); (0xFEF0, [0x064A]);
    (0xFEF1, [0x064A]); (0xFEF2, [0x064A]); (0x0649, [0x064A]);
    (0x064A, [0x064A]); (0x06CC, [0x064A]) ]%Z.

Definition taa_marbuta : list (Z * str) :=
  [ (0x0629, [0x0647]); (0xFE93, [0x0647]); (0xFE94, [0x0647]) ]%Z.

Definition waw_variants : list (Z * str) :=
  [ (0x0624, [0x0648]); (0xFEED, [0x0648]); (0xFEEE, [0x0648]);
    (0x06C4, [0x0648]); (0x06C5, [0x0648]); (0x06C6, [0x0648]) ]%Z.

Definition hamza_variants : list (Z * str) :=
  [ (0x0621, []); (0x0626, [0x064A]); (0x0624, [0x0648]); (0x0674, []);
    (0x0675, []) ]%Z.

Definition letter_forms : list (Z * str) :=
  [ (0xFE8F, [0x0628]); (0xFE90, [0x0628]); (0xFE91, [0x0628]);
    (0xFE92, [0x0628]); (0xFE95, [0x062A]); (0xFE96, [0x062A]);
    (0xFE97, [0x062A]); (0xFE98, [0x062A]); (0xFE99, [0x062B]);
    (0xFE9A, [0x062B]); (0xFE9B, [0x062B]); (0xFE9C, [0x062B]);
    (0xFE9D, [0x062C]); (0xFE9E, [0x062C]); (0xFE9F, [0x062C]);
    (0xFEA0, [0x062C]); (0xFEA1, [0x062D]); (0xFEA2, [0x062D]);
    (0xFEA3, [0x062D]); (0xFEA4, [0x062D]); (0xFEA5, [0x062E]);
    (0xFEA6, [0x062E]); (0xFEA7, [0x062E]); (0xFEA8, [0x062E]);
    (0xFEA9, [0x062F]); (0xFEAA, [0x062F]); (0xFEAB, [0x0630]);
    (0xFEAC, [0x0630]); (0xFEAD, [0x0631]); (0xFEAE, [0x0631]);
    (0xFEAF, [0x0632]); (0xFEB0, [0x0632]); (0xFEB1, [0x0633]);
    (0xFEB2, [0x0633]); (0xFEB3, [0x0633]); (0xFEB4, [0x0633]);
    (0xFEB5, [0x0634]); (0xFEB6, [0x0634]); (0xFEB7, [0x0634]);
    (0xFEB8, [0x0634]); (0xFEB9, [0x0635]); (0xFEBA, [0x0635]);
    (0xFEBB, [0x0635]); (0xFEBC, [0x0635]); (0xFEBD, [0x0636]);
    (0xFEBE, [0x0636]); (0xFEBF, [0x0636]); (0xFEC0, [0x0636]);
    (0xFEC1, [0x0637]); (0xFEC2, [0x0637]); (0xFEC3, [0x0637]);
    (0xFEC4, [0x0637]); (0xFEC5, [0x0638]); (0xFEC6, [0x0638]);
    (0xFEC7, [0x0638]); (0xFEC8, [0x0638]); (0xFEC9, [0x0639]);
    (0xFECA, [0x0639]); (0xFECB, [0x0639]); (0xFECC, [0x0639]);
    (0xFECD, [0x063A]); (0xFECE, [0x063A]); (0xFECF, [0x063A]);
    (0xFED0, [0x063A]); (0xFED1, [0x0641]); (0xFED2, [0x0641]);
    (0xFED3, [0x0641]); (0xFED4, [0x0641]); (0xFED5, [0x0642]);
    (0xFED6, [0x0642]); (0xFED7, [0x0642]); (0xFED8, [0x0642]);
    (0xFED9, [0x0643]); (0xFEDA, [0x0643]); (0xFEDB, [0x0643]);
    (0xFEDC, [0x0643]); (0x06A9, [0x0643]); (0x06AA, [0x0643]);
    (0xFEDD, [0x0644]); (0xFEDE, [0x0644]); (0xFEDF, [0x0644]);
    (0xFEE0, [0x0644]); (0xFEE1, [0x0645]); (0xFEE2, [0x0645]);
    (0xFEE3, [0x0645]); (0xFEE4, [0x0645]); (0xFEE5, [0x0646]);
    (0xFEE6, [0x0646]); (0xFEE7, [0x0646]); (0xFEE8, [0x0646]);
    (0xFEE9, [0x0647]); (0xFEEA, [0x0647]); (0xFEEB, [0x0647]);
    (0xFEEC, [0x0647]); (0xFEFB, [0x0644; 0x0627]);
    (0xFEFC, [0x0644; 0x0627]) ]%Z.

Definition NORMALIZATION_RULES : list (list (Z * str)) :=
  [ dict_update [] alef_variants; dict_update [] yaa_variants;
    dict_update [] taa_marbuta; dict_update [] waw_variants;
    dict_update [] hamza_variants; dict_update [] letter_forms ].

(** [DIACRITIC_RANGES]. *)
Definition DIACRITIC_RANGES : list (Z * Z) :=
  [ (0x064B, 0x0652); (0x0653, 0x065F); (0x0670, 0x0671);
    (0x06D6, 0x06ED); (0x08D3, 0x08FF); (0xFBB2, 0xFBC1) ]%Z.

(** [ARABIC_NUMBERS]: Arabic-Indic and extended Arabic-Indic digits to ASCII
    digits. *)
Definition ARABIC_NUMBERS : list (Z * Z) :=
  [ (0x0660, 0x30); (0x0661, 0x31); (0x0662, 0x32); (0x0663, 0x33);
    (0x0664, 0x34); (0x0665, 0x35); (0x0666, 0x36); (0x0667, 0x37);
    (0x0668, 0x38); (0x0669, 0x39);
    (0x06F0, 0x30); (0x06F1, 0x31); (0x06F2, 0x32); (0x06F3, 0x33);
    (0x06F4, 0x34); (0x06F5, 0x35); (0x06F6, 0x36); (0x06F7, 0x37);
    (0x06F8, 0x38); (0x06F9, 0x39) ]%Z.

(** [ARABIC_NUMBERS.get(c, c)]. *)
Definition ARABIC_NUMBERS_get (c : Z) : Z :=
  match find (fun kv => (fst kv =? c)%Z) ARABIC_NUMBERS with
  | Some kv => snd kv
  | None => c
  end.

(** [_build_normalization_patterns]: the merged table and the two compiled
    character classes. *)
Definition all_normalizations : char_dict :=
  fold_left dict_update NORMALIZATION_RULES [].

Definition diacritic_pattern (c : Z) : bool := in_ranges DIACRITIC_RANGES c.

Definition arabic_number_pattern (c : Z) : bool :=
  existsb (fun kv => (fst kv =? c)%Z) ARABIC_NUMBERS.

(** [AdvancedFontManager] (font_manager.py), as far as the scorers use it:
    [is_uthmani_symbol(char)] is [char in self.uthmani_symbols], a set filled
    from the font file when the manager is built. *)
Record AdvancedFontManager := {
  uthmani_symbols : gset Z
}.

Definition is_uthmani_symbol (fm : AdvancedFontManager) (char : Z) : bool :=
  bool_decide (char ∈ uthmani_symbols fm).

(** The processor object: [font_manager] is [None] or a manager. *)
Record AdvancedTextProcessor := {
  font_manager : option AdvancedFontManager
}.

(** One entry of [extract_verse_numbers]. *)
Record VerseNumber := {
  arabic : str;
  english : str;
  value : Z;
  position : nat;
  context : str
}.

Section TextProcessor.

(** [unicodedata.normalize('NFKC', _)]. *)
Variable NFKC : str -> str.

Variable self : AdvancedTextProcessor.

(** [normalize_text(text, level)]; the [lru_cache] in front of it does not
    change what it returns. *)
Definition normalize_text (text : str) (level : string) : str :=
  match text with
  | [] => []
  | _ =>
      let text := NFKC text in
      if bool_decide (level = "minimal") then text
      else
        let text :=
          if bool_decide (level ∈ ["basic"; "full"; "aggressive"])
          then fold_left (fun text kv => replace (fst kv) (snd kv) text)
                         all_normalizations text
          else text in
        let text :=
          if bool_decide (level ∈ ["full"; "aggressive"])
          then re_sub_class diacritic_pattern [] text
          else text in
        let text :=
          if bool_decide (level = "aggressive")
          then
            let text :=
              re_sub_class
                (fun c => negb (in_ranges [(0x0621, 0x064A); (0x0671, 0x06D3)]%Z c
                                || py_isspace c))
                [0x20%Z] text in
            re_sub_runs py_isspace [0x20%Z] text
          else text in
        strip text
  end.

(** [clean_text(text, keep_verse_numbers)]. *)
Definition clean_text (text : str) (keep_verse_numbers : bool) : str :=
  match text with
  | [] => []
  | _ =>
      let text := normalize_text text "basic" in
      let text := re_sub_class diacritic_pattern [] text in
      let text :=
        if negb keep_verse_numbers
        then re_sub_runs
               (fun c => py_isdecimal c
                         || in_ranges [(0x0660, 0x0669); (0x06F0, 0x06F9)]%Z c)
               [0x20%Z] text
        else fold_left (fun text kv => replace (fst kv) [snd kv] text)
                       ARABIC_NUMBERS text in
      let text :=
        re_sub_class
          (fun c => bool_decide
             (c ∈ [0xFD3E; 0xFD3F; 0x06DD; 0x06DE; 0x5B; 0x5D; 0x28; 0x29;
                   0x7B; 0x7D; 0xAB; 0xBB; 0x22]%Z))
          [0x20%Z] text in
      let text := re_sub_runs py_isspace [0x20%Z] text in
      strip text
  end.

(** The dictionary built for one match of [extract_verse_numbers]. *)
Definition verse_entry (text : str) (arabic english : str) (start : nat)
    : VerseNumber :=
  {| arabic := arabic;
     english := english;
     value := py_int english;
     position := start;
     context := slice (start - 10) (start + length arabic + 10) text |}.

(** [extract_verse_numbers(text)].  [int] is applied to strings of decimal
    digits only, so the [ValueError] branches are not taken (the digit-count
    limit of recent interpreters apart). *)
Definition extract_verse_numbers (text : str) : list VerseNumber :=
  let verse_numbers :=
    fold_left
      (fun verse_numbers m =>
         let arabic_num := snd m in
         let english_num := map ARABIC_NUMBERS_get arabic_num in
         verse_numbers ++ [verse_entry text arabic_num english_num (fst m)])
      (finditer_runs arabic_number_pattern text) [] in
  let verse_numbers :=
    fold_left
      (fun verse_numbers m =>
         let num := snd m in
         if negb (existsb (fun v => bool_decide (english v = num)) verse_numbers)
         then verse_numbers ++ [verse_entry text num num (fst m)]
         else verse_numbers)
      (finditer_runs py_isdecimal text) verse_numbers in
  sorted_by (fun x y => position x <=? position y) verse_numbers.

(** [_simple_similarity]. *)
Definition _simple_similarity (text1 text2 : str) : Q :=
  difflib.ratio text1 text2.

(** [_levenshtein_similarity]. *)
Definition _levenshtein_similarity (text1 text2 : str) : Q :=
  let distance := Levenshtein.distance text1 text2 in
  let max_len := Nat.max (length text1) (length text2) in
  if 0 <? max_len then (1 - Qnat distance / Qnat max_len)%Q else 0%Q.

(** The characters of [text] the font manager recognises as symbols. *)
Definition symbols_of (fm : AdvancedFontManager) (text : str) : gset Z :=
  list_to_set (filter (fun c => is_uthmani_symbol fm c = true) text).

(** [len(s1.intersection(s2)) / len(s1.union(s2)) if union > 0 else 0.0]. *)
Definition jaccard `{Countable A} (s1 s2 : gset A) : Q :=
  let intersection := size (s1 ∩ s2) in
  let union := size (s1 ∪ s2) in
  if 0 <? union then (Qnat intersection / Qnat union)%Q else 0%Q.

(** [_calculate_symbols_bonus]. *)
Definition _calculate_symbols_bonus (text1 text2 : str) : Q :=
  match font_manager self with
  | None => 0%Q
  | Some fm =>
      let symbols1 := symbols_of fm text1 in
      let symbols2 := symbols_of fm text2 in
      if bool_decide (symbols1 = ∅) && bool_decide (symbols2 = ∅) then 0%Q
      else if bool_decide (symbols1 ≠ ∅) && bool_decide (symbols2 ≠ ∅)
      then jaccard symbols1 symbols2
      else 0%Q
  end.

(** [_calculate_verse_number_bonus]. *)
Definition _calculate_verse_number_bonus (text1 text2 : str) : Q :=
  let verses1 := extract_verse_numbers text1 in
  let verses2 := extract_verse_numbers text2 in
  match verses1, verses2 with
  | [], _ | _, [] => 0%Q
  | _, _ =>
      let values1 : gset Z := list_to_set (map value verses1) in
      let values2 : gset Z := list_to_set (map value verses2) in
      if bool_decide (values1 = values2) then 1%Q
      else if bool_decide (values1 ∩ values2 ≠ ∅) then 0.5%Q
      else 0%Q
  end.

(** [_advanced_similarity]. *)
Definition _advanced_similarity (orig1 orig2 clean1 clean2 : str) : Q :=
  let words1 : gset str := list_to_set (split clean1) in
  let words2 : gset str := list_to_set (split clean2) in
  let word_similarity :=
    if bool_decide (words1 ≠ ∅) && bool_decide (words2 ≠ ∅)
    then jaccard words1 words2 else 0%Q in
  let chars1 : gset Z := list_to_set (replace 0x20%Z [] clean1) in
  let chars2 : gset Z := list_to_set (replace 0x20%Z [] clean2) in
  let char_similarity :=
    if bool_decide (chars1 ≠ ∅) && bool_decide (chars2 ≠ ∅)
    then jaccard chars1 chars2 else 0%Q in
  let len1 := length clean1 in
  let len2 := length clean2 in
  let length_similarity :=
    if 0 <? Nat.max len1 len2
    then (Qnat (Nat.min len1 len2) / Qnat (Nat.max len1 len2))%Q else 0%Q in
  let symbols_bonus := _calculate_symbols_bonus orig1 orig2 in
  (word_similarity * 0.4 + char_similarity * 0.3 + length_similarity * 0.2
   + symbols_bonus * 0.1)%Q.

(** [_combined_similarity]. *)
Definition _combined_similarity (orig1 orig2 clean1 clean2 : str) : Q :=
  let simple := _simple_similarity clean1 clean2 in
  let levenshtein := _levenshtein_similarity clean1 clean2 in
  let advanced := _advanced_similarity orig1 orig2 clean1 clean2 in
  let verse_bonus := _calculate_verse_number_bonus orig1 orig2 in
  let combined :=
    (simple * 0.3 + levenshtein * 0.3 + advanced * 0.3 + verse_bonus * 0.1)%Q in
  Qmin combined 1.

(** [text_similarity(text1, text2, method)]. *)
Definition text_similarity (text1 text2 : str) (method : string) : Q :=
  match text1, text2 with
  | [], _ | _, [] => 0%Q
  | _, _ =>
      let clean1 := clean_text text1 false in
      let clean2 := clean_text text2 false in
      if bool_decide (method = "simple") then _simple_similarity clean1 clean2
      else if bool_decide (method = "levenshtein")
      then _levenshtein_similarity clean1 clean2
      else if bool_decide (method = "advanced")
      then _advanced_similarity text1 text2 clean1 clean2
      else if bool_decide (method = "combined")
      then _combined_similarity text1 text2 clean1 clean2
      else _simple_similarity clean1 clean2
  end.

End TextProcessor.

(** ** [AyatExtractor] (ayat_extractor_main.py): data *)

(** Comparisons of floats. *)
Definition Qltb (x y : Q) : bool := negb (Qle_bool y x).

(** A bounding box [[x1, y1, x2, y2]]. *)
Record BBox := {
  x1 : Q;
  y1 : Q;
  x2 : Q;
  y2 : Q
}.

(** The values stored in the [metadata] dictionaries. *)
Inductive MetaValue :=
  | MStr (s : str)
  | MTag (s : string)
  | MInt (n : Z)
  | MFloat (q : Q)
  | MList (l : list str).

(** The dataclass [ExtractedText]. *)
Module ExtractedText.
Record t := mk {
  text : str;
  bbox : BBox;
  page : Z;
  source : string;
  line_number : option Z;
  confidence : Q;
  metadata : gmap string MetaValue
}.
End ExtractedText.

(** The dataclass [TextRegion] of ai_analyzer.py; [text] may be [None]. *)
Module TextRegion.
Record t := mk {
  bbox : BBox;
  text : option str;
  confidence : Q;
  text_type : string;
  font_type : string;
  line_number : option Z;
  metadata : gmap string MetaValue
}.
End TextRegion.

(** The dataclass [PageAnalysis] of ai_analyzer.py, with the two fields the
    extractor reads. *)
Module PageAnalysis.
Record t := mk {
  page_number : Z;
  text_regions : list TextRegion.t
}.
End PageAnalysis.

(** One row of the verse table ([hafs_data]), with the columns the matcher
    reads. *)
Module AyaRow.
Record t := mk {
  page : Z;
  sura_no : Z;
  sura_name_ar : str;
  sura_name_en : str;
  aya_no : Z;
  aya_text : str;
  text_clean : str
}.
End AyaRow.

(** [_get_match_details]. *)
Module MatchDetails.
Record t := mk {
  ref_length : nat;
  extracted_length : nat;
  length_ratio : Q;
  ref_words : nat;
  extracted_words : nat;
  has_verse_number : bool;
  ref_symbols : nat;
  extracted_symbols : nat
}.
End MatchDetails.

(** The dataclass [MatchedAyah].  Of its [metadata], ['line_number'] and
    ['match_details'] are kept; ['text_analysis'] (the report of
    [analyze_text], which reads the character-name table of [unicodedata])
    is left out: nothing below reads it. *)
Module MatchedAyah.
Record t := mk {
  page : Z;
  sura_no : Z;
  sura_name_ar : str;
  sura_name_en : str;
  aya_no : Z;
  text_uthmani : str;
  text_extracted : str;
  text_clean : str;
  similarity : Q;
  bbox : BBox;
  source : string;
  extraction_method : string;
  confidence : Q;
  metadata_line_number : option Z;
  metadata_match_details : MatchDetails.t
}.
End MatchedAyah.

(** The entries of [config] read by the modelled methods:
    [config['min_similarity']] and [config.get('line_threshold', 10)]. *)
Record Config := {
  min_similarity : Q;
  line_threshold : option Q
}.

(** [AdvancedTextProcessor(font_manager=..., logger=...)]. *)
Definition new_text_processor (fm : option AdvancedFontManager)
    : AdvancedTextProcessor :=
  {| font_manager := fm |}.

(** The extractor object.  [__init__] hands its font manager to the text
    processor it builds. *)
Module AyatExtractor.
Record t := mk {
  config : Config;
  font_manager : option AdvancedFontManager
}.
Definition text_processor (self : t) : AdvancedTextProcessor :=
  new_text_processor (font_manager self).
End AyatExtractor.

(** Exceptions: the subclasses of [Exception] the modelled code can meet. *)
Inductive exn :=
  | ParseError (msg : string)
  | OSError (msg : string)
  | ValueError (msg : string)
  | KeyError (key : string)
  | IndexError (msg : string)
  | RuntimeError (msg : string).

(** What the logger receives. *)
Inductive Level := DEBUG | INFO | WARNING | ERROR.

Inductive Message :=
  | NoAyatOnPage (page_num : Z)
  | MatchedMsg (sura_no aya_no : Z) (score : Q) (source : string)
  | UnmatchedMsg (sura_no aya_no : Z)
  | SvgExtracted (n : nat) (svg_path : string)
  | SvgError (svg_path : string) (e : exn)
  | CoordinatesFailed (e : exn)
  | PdfPageOutOfRange (page_num : Z)
  | PdfExtracted (n : nat) (page : Z)
  | PdfError (e : exn).

(** The mutable part of the extractor: [self.stats], a [defaultdict(int)],
    and the records sent to [self.logger]. *)
Record State := {
  stats : gmap string Z;
  logs : list (Level * Message)
}.

Definition log (lvl : Level) (m : Message) (st : State) : State :=
  {| stats := stats st; logs := logs st ++ [(lvl, m)] |}.

(** [self.stats[key] += 1]. *)
Definition stats_incr (key : string) (st : State) : State :=
  {| stats := <[key := (default 0 (stats st !! key) + 1)%Z]> (stats st);
     logs := logs st |}.

(** ** [AyatExtractor]: reconciliation and matching *)

(** [enumerate(l)]. *)
Definition enumerate {A} (l : list A) : list (nat * A) :=
  imap (fun i x => (i, x)) l.

(** [_calculate_bbox_overlap]. *)
Definition _calculate_bbox_overlap (bbox1 bbox2 : BBox) : Q :=
  let '(x1_min, y1_min, x1_max, y1_max) :=
    (x1 bbox1, y1 bbox1, x2 bbox1, y2 bbox1) in
  let '(x2_min, y2_min, x2_max, y2_max) :=
    (x1 bbox2, y1 bbox2, x2 bbox2, y2 bbox2) in
  let x_overlap := Qmax 0 (Qmin x1_max x2_max - Qmax x1_min x2_min) in
  let y_overlap := Qmax 0 (Qmin y1_max y2_max - Qmax y1_min y2_min) in
  let intersection := (x_overlap * y_overlap)%Q in
  let area1 := ((x1_max - x1_min) * (y1_max - y1_min))%Q in
  let area2 := ((x2_max - x2_min) * (y2_max - y2_min))%Q in
  let union := (area1 + area2 - intersection)%Q in
  if Qltb 0 union then (intersection / union)%Q else 0%Q.

(** Intersection over union as section 4.7 of the specification words it,
    for comparison with [_calculate_bbox_overlap]: the area of the
    intersection rectangle (0 when the rectangles do not meet) over the area
    of the union, and 0 when the union has no area. *)
Definition rect_area (r : BBox) : Q := ((x2 r - x1 r) * (y2 r - y1 r))%Q.

Definition rect_intersection (r s : BBox) : option BBox :=
  let i := {| x1 := Qmax (x1 r) (x1 s); y1 := Qmax (y1 r) (y1 s);
              x2 := Qmin (x2 r) (x2 s); y2 := Qmin (y2 r) (y2 s) |} in
  if Qle_bool (x1 i) (x2 i) && Qle_bool (y1 i) (y2 i) then Some i else None.

Definition intersection_area (r s : BBox) : Q :=
  match rect_intersection r s with
  | Some i => rect_area i
  | None => 0%Q
  end.

Definition union_area (r s : BBox) : Q :=
  (rect_area r + rect_area s - intersection_area r s)%Q.

Definition spec_IoU (r s : BBox) : Q :=
  if Qltb 0 (union_area r s)
  then (intersection_area r s / union_area r s)%Q else 0%Q.

(** The inner loop of [_merge_ai_results]: the unused region that overlaps
    [trad_text] most, among those whose overlap exceeds 0.5. *)
Definition best_ai_region (trad_text : ExtractedText.t)
    (text_regions : list TextRegion.t) (used_ai_regions : gset nat)
    : option (nat * TextRegion.t) * Q :=
  fold_left
    (fun acc ir =>
       let '(best_match, best_overlap) := acc in
       let '(idx, ai_region) := ir in
       if bool_decide (idx ∈ used_ai_regions) then acc
       else
         let overlap :=
           _calculate_bbox_overlap (ExtractedText.bbox trad_text)
                                   (TextRegion.bbox ai_region) in
         if Qltb best_overlap overlap && Qltb 0.5 overlap
         then (Some (idx, ai_region), overlap)
         else acc)
    (enumerate text_regions) (None, 0%Q).

(** The fragment built when [trad_text] is matched with [ai_region]. *)
Definition enhanced_text (trad_text : ExtractedText.t)
    (ai_region : TextRegion.t) : ExtractedText.t :=
  {| ExtractedText.text := ExtractedText.text trad_text;
     ExtractedText.bbox := TextRegion.bbox ai_region;
     ExtractedText.page := ExtractedText.page trad_text;
     ExtractedText.source := "svg_ai_enhanced";
     ExtractedText.line_number := None;
     ExtractedText.confidence :=
       Qmax (ExtractedText.confidence trad_text) (TextRegion.confidence ai_region);
     ExtractedText.metadata :=
       <["ai_confidence" := MFloat (TextRegion.confidence ai_region)]>
         (<["ai_font_type" := MTag (TextRegion.font_type ai_region)]>
            (<["ai_text_type" := MTag (TextRegion.text_type ai_region)]>
               (ExtractedText.metadata trad_text))) |}.

(** The fragment built for a region no primary fragment was matched with. *)
Definition ai_only_text (ai_analysis : PageAnalysis.t)
    (ai_region : TextRegion.t) : ExtractedText.t :=
  {| ExtractedText.text := default [] (TextRegion.text ai_region);
     ExtractedText.bbox := TextRegion.bbox ai_region;
     ExtractedText.page := PageAnalysis.page_number ai_analysis;
     ExtractedText.source := "ai_only";
     ExtractedText.line_number := None;
     ExtractedText.confidence := TextRegion.confidence ai_region;
     ExtractedText.metadata :=
       <["ai_font_type" := MTag (TextRegion.font_type ai_region)]>
         (<["ai_text_type" := MTag (TextRegion.text_type ai_region)]> ∅) |}.

(** [_merge_ai_results]. *)
Definition _merge_ai_results (traditional_texts : list ExtractedText.t)
    (ai_analysis : PageAnalysis.t) : list ExtractedText.t :=
  let text_regions := PageAnalysis.text_regions ai_analysis in
  let '(merged, used_ai_regions) :=
    fold_left
      (fun acc trad_text =>
         let '(merged, used_ai_regions) := acc in
         match fst (best_ai_region trad_text text_regions used_ai_regions) with
         | Some (idx, ai_region) =>
             (merged ++ [enhanced_text trad_text ai_region],
              {[idx]} ∪ used_ai_regions)
         | None => (merged ++ [trad_text], used_ai_regions)
         end)
      traditional_texts ([], (∅ : gset nat)) in
  fold_left
    (fun merged ir =>
       let '(idx, ai_region) := ir in
       if bool_decide (idx ∉ used_ai_regions)
          && bool_decide (TextRegion.text_type ai_region = "ayah")
       then merged ++ [ai_only_text ai_analysis ai_region]
       else merged)
    (enumerate text_regions) merged.

Section Matcher.

Variable NFKC : str -> str.

Variable self : AyatExtractor.t.

(** [_calculate_match_score]; [ref_clean] is not read. *)
Definition _calculate_match_score (ref_text ref_clean extracted_text : str)
    (aya_number : Z) : Q :=
  let basic_score :=
    text_similarity NFKC (AyatExtractor.text_processor self)
                    ref_text extracted_text "combined" in
  let extracted_verses := extract_verse_numbers extracted_text in
  let verse_bonus :=
    if existsb (fun verse => (value verse =? aya_number)%Z) extracted_verses
    then 0.15%Q else 0%Q in
  let symbols_bonus :=
    match AyatExtractor.font_manager self with
    | None => 0%Q
    | Some fm =>
        let ref_symbols := symbols_of fm ref_text in
        let ext_symbols := symbols_of fm extracted_text in
        if bool_decide (ref_symbols ≠ ∅) && bool_decide (ext_symbols ≠ ∅)
        then
          let common := size (ref_symbols ∩ ext_symbols) in
          let total := size (ref_symbols ∪ ext_symbols) in
          if 0 <? total then (Qnat common / Qnat total * 0.1)%Q else 0%Q
        else 0%Q
    end in
  Qmin (basic_score + verse_bonus + symbols_bonus) 1.

(** [_determine_extraction_method]. *)
Definition _determine_extraction_method (extracted : ExtractedText.t) : string :=
  if bool_decide (ExtractedText.source extracted = "svg")
  then match ExtractedText.metadata extracted !! "merged_from" with
       | Some (MInt n) => if (1 <? n)%Z then "svg_merged" else "svg_direct"
       | _ => "svg_direct"
       end
  else "pdf_text".

(** [_get_match_details]. *)
Definition _get_match_details (ref_text extracted_text : str) : MatchDetails.t :=
  let count_symbols (t : str) :=
    match AyatExtractor.font_manager self with
    | None => 0
    | Some fm => length (filter (fun c => is_uthmani_symbol fm c = true) t)
    end in
  {| MatchDetails.ref_length := length ref_text;
     MatchDetails.extracted_length := length extracted_text;
     MatchDetails.length_ratio :=
       if 0 <? length ref_text
       then (Qnat (length extracted_text) / Qnat (length ref_text))%Q else 0%Q;
     MatchDetails.ref_words := length (split ref_text);
     MatchDetails.extracted_words := length (split extracted_text);
     MatchDetails.has_verse_number :=
       match extract_verse_numbers extracted_text with [] => false | _ => true end;
     MatchDetails.ref_symbols := count_symbols ref_text;
     MatchDetails.extracted_symbols := count_symbols extracted_text |}.

(** The score of a fragment against a verse of the table, as the matcher
    computes it. *)
Definition score_against (aya_row : AyaRow.t) (extracted : ExtractedText.t) : Q :=
  _calculate_match_score (AyaRow.aya_text aya_row) (AyaRow.text_clean aya_row)
                         (ExtractedText.text extracted) (AyaRow.aya_no aya_row).

(** The body of the search of [match_ayat_with_texts] for one verse: [acc] is
    [(best_match, best_score, best_text_idx)]. *)
Definition consider_candidate (aya_row : AyaRow.t) (used_texts : gset Z)
    (acc : option ExtractedText.t * Q * Z) (ie : nat * ExtractedText.t)
    : option ExtractedText.t * Q * Z :=
  let '(best_match, best_score, best_text_idx) := acc in
  let '(text_idx, extracted) := ie in
  if bool_decide (Z.of_nat text_idx ∈ used_texts) then acc
  else
    let score := score_against aya_row extracted in
    if Qltb best_score score
       && Qle_bool (min_similarity (AyatExtractor.config self)) score
    then (Some extracted, score, Z.of_nat text_idx)
    else acc.

(** The search itself: the loop over [enumerate(extracted_texts)]. *)
Definition best_candidate (aya_row : AyaRow.t)
    (extracted_texts : list ExtractedText.t) (used_texts : gset Z)
    : option ExtractedText.t * Q * Z :=
  fold_left (consider_candidate aya_row used_texts)
            (enumerate extracted_texts) (None, 0%Q, (-1)%Z).

(** The match built for [aya_row] from the chosen fragment. *)
Definition new_match (page_num : Z) (aya_row : AyaRow.t)
    (best_match : ExtractedText.t) (best_score : Q) : MatchedAyah.t :=
  let ref_text := AyaRow.aya_text aya_row in
  {| MatchedAyah.page := page_num;
     MatchedAyah.sura_no := AyaRow.sura_no aya_row;
     MatchedAyah.sura_name_ar := AyaRow.sura_name_ar aya_row;
     MatchedAyah.sura_name_en := AyaRow.sura_name_en aya_row;
     MatchedAyah.aya_no := AyaRow.aya_no aya_row;
     MatchedAyah.text_uthmani := ref_text;
     MatchedAyah.text_extracted := ExtractedText.text best_match;
     MatchedAyah.text_clean :=
       clean_text NFKC (ExtractedText.text best_match) false;
     MatchedAyah.similarity := best_score;
     MatchedAyah.bbox := ExtractedText.bbox best_match;
     MatchedAyah.source := ExtractedText.source best_match;
     MatchedAyah.extraction_method := _determine_extraction_method best_match;
     MatchedAyah.confidence := (ExtractedText.confidence best_match * best_score)%Q;
     MatchedAyah.metadata_line_number := ExtractedText.line_number best_match;
     MatchedAyah.metadata_match_details :=
       _get_match_details ref_text (ExtractedText.text best_match) |}.

(** What the loop over the verses of the page carries: [matches],
    [used_texts], and the extractor's counters and log. *)
Definition MatchLoop : Type := list MatchedAyah.t * gset Z * State.

(** The body of the loop of [match_ayat_with_texts] for one verse. *)
Definition match_aya (page_num : Z) (extracted_texts : list ExtractedText.t)
    (acc : MatchLoop) (aya_row : AyaRow.t) : MatchLoop :=
  let '(matches, used_texts, st) := acc in
  let '(best_match, best_score, best_text_idx) :=
    best_candidate aya_row extracted_texts used_texts in
  match best_match with
  | Some best_match =>
      (matches ++ [new_match page_num aya_row best_match best_score],
       {[best_text_idx]} ∪ used_texts,
       log DEBUG (MatchedMsg (AyaRow.sura_no aya_row) (AyaRow.aya_no aya_row)
                             best_score (ExtractedText.source best_match))
           (stats_incr "matched" st))
  | None =>
      (matches, used_texts,
       log WARNING (UnmatchedMsg (AyaRow.sura_no aya_row) (AyaRow.aya_no aya_row))
           (stats_incr "unmatched" st))
  end.

(** [ayat_df[ayat_df['page'] == page_num]]. *)
Definition page_rows (ayat_df : list AyaRow.t) (page_num : Z) : list AyaRow.t :=
  filter (fun row => AyaRow.page row = page_num) ayat_df.

(** [match_ayat_with_texts]. *)
Definition match_ayat_with_texts (ayat_df : list AyaRow.t)
    (extracted_texts : list ExtractedText.t) (page_num : Z) (st : State)
    : list MatchedAyah.t * State :=
  let page_ayat := page_rows ayat_df page_num in
  match page_ayat with
  | [] => ([], log WARNING (NoAyatOnPage page_num) st)
  | _ =>
      let '(matches, _, st) :=
        fold_left (match_aya page_num extracted_texts) page_ayat ([], ∅, st) in
      (matches, st)
  end.

End Matcher.

(** ** [AyatExtractor]: collecting the fragments of a page *)

(** A computation that may raise and that writes to the extractor's state. *)
Inductive result (A : Type) :=
  | Ok (a : A)
  | Raise (e : exn).
Arguments Ok {A} a.
Arguments Raise {A} e.

Definition Py (A : Type) : Type := State -> result A * State.

#[global] Instance Py_ret : MRet Py := fun A a st => (Ok a, st).

#[global] Instance Py_bind : MBind Py := fun A B f m st =>
  match m st with
  | (Ok a, st') => f a st'
  | (Raise e, st') => (Raise e, st')
  end.

Definition lift {A} (r : result A) : Py A := fun st => (r, st).

Definition logger (lvl : Level) (m : Message) : Py unit :=
  fun st => (Ok tt, log lvl m st).

(** [try: body except Exception as e: handler(e)]. *)
Definition try_except {A} (body : Py A) (handler : exn -> Py A) : Py A :=
  fun st =>
    match body st with
    | (Ok a, st') => (Ok a, st')
    | (Raise e, st') => handler e st'
    end.

(** A [for] loop whose body may raise: the first exception ends it. *)
Fixpoint for_each {A S} (l : list A) (body : S -> A -> Py S) (s : S) : Py S :=
  match l with
  | [] => mret s
  | x :: l' => s' ← body s x; for_each l' body s'
  end.

(** [xml.etree.ElementTree.Element]. *)
#[warnings="-register-all"]
Inductive Element :=
  | mkElement (tag : string) (attrib : gmap string str)
              (text tail : option str) (children : list Element).

Definition tag (e : Element) : string :=
  match e with mkElement t _ _ _ _ => t end.
Definition attrib (e : Element) : gmap string str :=
  match e with mkElement _ a _ _ _ => a end.
Definition elem_text (e : Element) : option str :=
  match e with mkElement _ _ t _ _ => t end.
Definition elem_tail (e : Element) : option str :=
  match e with mkElement _ _ _ t _ => t end.

(** [elem.iter()]: the element and its descendants, in document order. *)
Fixpoint iter (e : Element) : list Element :=
  match e with
  | mkElement _ _ _ _ cs =>
      e :: (fix iter_all (cs : list Element) : list Element :=
              match cs with
              | [] => []
              | c :: cs' => iter c ++ iter_all cs'
              end) cs
  end.

(** [elem.findall('.//' + t)]: the proper descendants with tag [t]. *)
Definition findall_descendants (t : string) (e : Element) : list Element :=
  filter (fun d => tag d = t) (tail (iter e)).

(** [s.endswith(suffix)] on tag names. *)
Definition endswith (s suffix : string) : bool :=
  String.prefix (String.rev suffix) (String.rev s).

(** [x or ''], and the truth value of a string. *)
Definition or_empty (x : option str) : str := default [] x.

Definition nonempty (s : str) : bool :=
  match s with [] => false | _ => true end.

(** A text span of PyMuPDF's [page.get_text("dict")]; [attrs] holds the keys
    read with [span.get]. *)
Module Span.
Record t := mk {
  text : str;
  bbox : BBox;
  attrs : gmap string MetaValue
}.
End Span.

(** A line of a text block; ["line_no"] is read with [line["line_no"]] and
    raises [KeyError] when the key is missing. *)
Module Line.
Record t := mk {
  spans : list Span.t;
  line_no : option Z
}.
End Line.

Module Block.
Record t := mk {
  type : Z;
  lines : list Line.t
}.
End Block.

(** A page: [get_text] returns its blocks or raises. *)
Module Page.
Record t := mk {
  get_text : result (list Block.t)
}.
End Page.

(** An opened document. *)
Module Document.
Record t := mk {
  page_count : Z;
  pages : list Page.t
}.
End Document.

(** What the collectors take from outside the repository: the parsers
    ([ET.parse(path).getroot()] and [fitz.open(path)], which return or
    raise), [float(s)], the groups found by the two patterns applied to a
    [transform] attribute, the decoding of character references (whose [chr]
    may raise) and the page number read off a file name. *)
Record Runtime := {
  ET_parse : string -> result Element;
  fitz_open : string -> result Document.t;
  float : str -> result Q;
  re_search_matrix : str -> option (list str);
  re_search_translate : str -> option (str * option str);
  _decode_html_entities : str -> result str;
  _get_page_from_filename : string -> Z
}.

Section Collector.

Variable self : AyatExtractor.t.

Variable rt : Runtime.

(** [float(elem.get(key, 0))]. *)
Definition float_attr (elem : Element) (key : string) : result Q :=
  match attrib elem !! key with
  | Some s => float rt s
  | None => Ok 0%Q
  end.

(** [map(float, groups)], forced from left to right. *)
Fixpoint map_float (l : list str) : result (list Q) :=
  match l with
  | [] => Ok []
  | s :: l' =>
      match float rt s with
      | Raise e => Raise e
      | Ok q =>
          match map_float l' with
          | Raise e => Raise e
          | Ok qs => Ok (q :: qs)
          end
      end
  end.

(** The body of [_extract_svg_coordinates], inside its [try]. *)
Definition svg_coordinates_body (transform : str) (elem : Element)
    : result BBox :=
  let xy : result (Q * Q) :=
    match re_search_matrix rt transform with
    | Some groups =>
        match map_float groups with
        | Raise e => Raise e
        | Ok [a; b; c; d; e; f] => Ok (e, f)
        | Ok _ => Raise (ValueError "unpack")
        end
    | None =>
        match re_search_translate rt transform with
        | Some (g1, g2) =>
            match float rt g1 with
            | Raise e => Raise e
            | Ok x =>
                match g2 with
                | None | Some [] => Ok (x, 0%Q)
                | Some g2 =>
                    match float rt g2 with
                    | Raise e => Raise e
                    | Ok y => Ok (x, y)
                    end
                end
            end
        | None =>
            match float_attr elem "x" with
            | Raise e => Raise e
            | Ok x =>
                match float_attr elem "y" with
                | Raise e => Raise e
                | Ok y => Ok (x, y)
                end
            end
        end
    end in
  match xy with
  | Raise e => Raise e
  | Ok (x, y) =>
      let width := 100%Q in
      let height := 20%Q in
      Ok {| x1 := x; y1 := (y - height)%Q; x2 := (x + width)%Q; y2 := y |}
  end.

(** [_extract_svg_coordinates]: any exception is logged and gives [None]. *)
Definition _extract_svg_coordinates (transform : str) (elem : Element)
    : Py (option BBox) :=
  try_except
    (coords ← lift (svg_coordinates_body transform elem); mret (Some coords))
    (fun e => _ ← logger DEBUG (CoordinatesFailed e); mret None).

(** [_extract_text_element_content]. *)
Definition _extract_text_element_content (elem : Element) : str :=
  let text_parts := match elem_text elem with
                    | Some (_ :: _ as t) => [t]
                    | _ => []
                    end in
  let text_parts :=
    fold_left
      (fun text_parts tspan =>
         match elem_text tspan with
         | Some (_ :: _ as t) => text_parts ++ [t]
         | _ => text_parts
         end)
      (findall_descendants "{http://www.w3.org/2000/svg}tspan" elem)
      text_parts in
  let text_parts := match elem_tail elem with
                    | Some (_ :: _ as t) => text_parts ++ [t]
                    | _ => text_parts
                    end in
  concat text_parts.

(** [_estimate_text_bbox]; [get_rendering_info(text)['estimated_width']] is
    [len(text) * 12]. *)
Definition _estimate_text_bbox (text : str) (x y : Q) : BBox :=
  let estimated_width :=
    match AyatExtractor.font_manager self with
    | Some _ => (Qnat (length text * 12) * 0.1)%Q
    | None => Qnat (length text * 10)
    end in
  let estimated_height := 20%Q in
  {| x1 := x; y1 := (y - estimated_height)%Q;
     x2 := (x + estimated_width)%Q; y2 := y |}.

(** [min] and [max] over a non-empty sequence of floats. *)
Definition Qmin_list (d : Q) (l : list Q) : Q :=
  match l with
  | [] => d
  | q :: l' => fold_left Qmin l' q
  end.

Definition Qmax_list (d : Q) (l : list Q) : Q :=
  match l with
  | [] => d
  | q :: l' => fold_left Qmax l' q
  end.

(** [_merge_line_texts]; it is called on non-empty lines only. *)
Definition _merge_line_texts (line_texts : list ExtractedText.t)
    : ExtractedText.t :=
  let line_texts :=
    sorted_by (fun t u => Qle_bool (- x1 (ExtractedText.bbox t))
                                   (- x1 (ExtractedText.bbox u)))
              line_texts in
  let merged_text := concat (map ExtractedText.text line_texts) in
  let boxes := map ExtractedText.bbox line_texts in
  {| ExtractedText.text := merged_text;
     ExtractedText.bbox :=
       {| x1 := Qmin_list 0 (map x1 boxes); y1 := Qmin_list 0 (map y1 boxes);
          x2 := Qmax_list 0 (map x2 boxes); y2 := Qmax_list 0 (map y2 boxes) |};
     ExtractedText.page :=
       match line_texts with t :: _ => ExtractedText.page t | [] => 0%Z end;
     ExtractedText.source := "svg";
     ExtractedText.line_number := None;
     ExtractedText.confidence :=
       Qmin_list 0 (map ExtractedText.confidence line_texts);
     ExtractedText.metadata :=
       <["original_texts" := MList (map ExtractedText.text line_texts)]>
         (<["merged_from" := MInt (Z.of_nat (length line_texts))]> ∅) |}.

(** [_process_svg_texts]: the fragments sorted by descending [y1] then
    ascending [x1], cut into lines where the vertical centre moves by more
    than the threshold from the line's first fragment. *)
Definition _process_svg_texts (texts : list ExtractedText.t)
    : list ExtractedText.t :=
  match texts with
  | [] => []
  | _ =>
      let key_le (t u : ExtractedText.t) :=
        let '(bt, bu) := (ExtractedText.bbox t, ExtractedText.bbox u) in
        Qltb (- y1 bt) (- y1 bu)
        || (Qeq_bool (- y1 bt) (- y1 bu) && Qle_bool (x1 bt) (x1 bu)) in
      let texts := sorted_by key_le texts in
      let line_threshold :=
        default 10%Q (line_threshold (AyatExtractor.config self)) in
      let '(lines, current_line, current_y) :=
        fold_left
          (fun acc text =>
             let '(lines, current_line, current_y) := acc in
             let b := ExtractedText.bbox text in
             let y_center := ((y1 b + y2 b) / 2)%Q in
             match current_y with
             | None => (lines, [text], Some y_center)
             | Some cy =>
                 if Qle_bool (Qabs (y_center - cy)) line_threshold
                 then (lines, current_line ++ [text], current_y)
                 else
                   (match current_line with
                    | [] => lines
                    | _ => lines ++ [_merge_line_texts current_line]
                    end,
                    [text], Some y_center)
             end)
          texts ([], [], None) in
      match current_line with
      | [] => lines
      | _ => lines ++ [_merge_line_texts current_line]
      end
  end.

(** The body of the loop of [extract_from_svg] for one element. *)
Definition svg_element (svg_path : string) (texts : list ExtractedText.t)
    (elem : Element) : Py (list ExtractedText.t) :=
  if endswith (tag elem) "use" && bool_decide (is_Some (attrib elem !! "data-text"))
  then
    let text_content := default [] (attrib elem !! "data-text") in
    let transform := default [] (attrib elem !! "transform") in
    if nonempty (strip text_content)
    then
      coords ← _extract_svg_coordinates transform elem;
      match coords with
      | Some coords =>
          text_content ← lift (_decode_html_entities rt text_content);
          mret (texts ++
            [ {| ExtractedText.text := text_content;
                 ExtractedText.bbox := coords;
                 ExtractedText.page := _get_page_from_filename rt svg_path;
                 ExtractedText.source := "svg";
                 ExtractedText.line_number := None;
                 ExtractedText.confidence := 1%Q;
                 ExtractedText.metadata :=
                   <["href" := MStr (default []
                       (attrib elem !! "{http://www.w3.org/1999/xlink}href"))]>
                     (<["element_id" := MStr (default [] (attrib elem !! "id"))]>
                        (<["transform" := MStr transform]> ∅)) |} ])
      | None => mret texts
      end
    else mret texts
  else if endswith (tag elem) "text"
  then
    let text_content := _extract_text_element_content elem in
    if nonempty (strip text_content)
    then
      x ← lift (float_attr elem "x");
      y ← lift (float_attr elem "y");
      let bbox := _estimate_text_bbox text_content x y in
      mret (texts ++
        [ {| ExtractedText.text := text_content;
             ExtractedText.bbox := bbox;
             ExtractedText.page := _get_page_from_filename rt svg_path;
             ExtractedText.source := "svg";
             ExtractedText.line_number := None;
             ExtractedText.confidence := 1%Q;
             ExtractedText.metadata :=
               <["font_family" := MStr (default [] (attrib elem !! "font-family"))]>
                 (<["font_size" := MStr (default [] (attrib elem !! "font-size"))]>
                    (<["element_type" := MTag "text"]> ∅)) |} ])
    else mret texts
  else mret texts.

(** The body of [extract_from_svg], inside its [try]. *)
Definition extract_from_svg_body (svg_path : string)
    : Py (list ExtractedText.t) :=
  root ← lift (ET_parse rt svg_path);
  texts ← for_each (iter root) (svg_element svg_path) [];
  let processed_texts := _process_svg_texts texts in
  _ ← logger INFO (SvgExtracted (length processed_texts) svg_path);
  mret processed_texts.

(** [extract_from_svg]: whatever the body raises is logged as an error and
    the method returns the empty list. *)
Definition extract_from_svg (svg_path : string) (st : State)
    : list ExtractedText.t * State :=
  match extract_from_svg_body svg_path st with
  | (Ok processed_texts, st') => (processed_texts, st')
  | (Raise e, st') => ([], log ERROR (SvgError svg_path e) st')
  end.

(** The loop over the spans of one line: the text of the non-blank spans and
    the union of their boxes. *)
Definition pdf_line_spans (line : Line.t) : str * option BBox :=
  fold_left
    (fun acc span =>
       let '(line_text, line_bbox) := acc in
       let span_text := Span.text span in
       if nonempty (strip span_text)
       then
         let span_bbox := Span.bbox span in
         (line_text ++ span_text,
          Some match line_bbox with
               | None => span_bbox
               | Some line_bbox =>
                   {| x1 := Qmin (x1 line_bbox) (x1 span_bbox);
                      y1 := Qmin (y1 line_bbox) (y1 span_bbox);
                      x2 := Qmax (x2 line_bbox) (x2 span_bbox);
                      y2 := Qmax (y2 line_bbox) (y2 span_bbox) |}
               end)
       else acc)
    (Line.spans line) ([], None).

(** The body of the loop over the lines of a text block.  After the loop
    over the spans, [span] is the last span of the line. *)
Definition pdf_line (page_num : Z) (texts : list ExtractedText.t)
    (line : Line.t) : Py (list ExtractedText.t) :=
  let '(line_text, line_bbox) := pdf_line_spans line in
  match nonempty (strip line_text), line_bbox, last (Line.spans line) with
  | true, Some line_bbox, Some span =>
      line_no ← lift match Line.line_no line with
                     | Some n => Ok n
                     | None => Raise (KeyError "line_no")
                     end;
      let get (key : string) (d : MetaValue) :=
        default d (Span.attrs span !! key) in
      mret (texts ++
        [ {| ExtractedText.text := strip line_text;
             ExtractedText.bbox := line_bbox;
             ExtractedText.page := (page_num + 1)%Z;
             ExtractedText.source := "pdf";
             ExtractedText.line_number := Some line_no;
             ExtractedText.confidence := 1%Q;
             ExtractedText.metadata :=
               <["color" := get "color" (MInt 0)]>
                 (<["flags" := get "flags" (MInt 0)]>
                    (<["size" := get "size" (MInt 0)]>
                       (<["font" := get "font" (MTag "")]> ∅))) |} ])
  | _, _, _ => mret texts
  end.

(** The body of the loop over the blocks of the page. *)
Definition pdf_block (page_num : Z) (texts : list ExtractedText.t)
    (block : Block.t) : Py (list ExtractedText.t) :=
  if (Block.type block =? 0)%Z
  then for_each (Block.lines block) (pdf_line page_num) texts
  else mret texts.

(** The body of [extract_from_pdf], inside its [try]. *)
Definition extract_from_pdf_body (pdf_path : string) (page_num : Z)
    : Py (list ExtractedText.t) :=
  doc ← lift (fitz_open rt pdf_path);
  if (page_num <? 0)%Z || (Document.page_count doc <=? page_num)%Z
  then _ ← logger ERROR (PdfPageOutOfRange page_num); mret []
  else
    page ← lift match Document.pages doc !! Z.to_nat page_num with
                | Some page => Ok page
                | None => Raise (IndexError "page not in document")
                end;
    blocks ← lift (Page.get_text page);
    texts ← for_each blocks (pdf_block page_num) [];
    _ ← logger INFO (PdfExtracted (length texts) (page_num + 1)%Z);
    mret texts.

(** [extract_from_pdf]: whatever the body raises is logged as an error and
    the method returns the empty list. *)
Definition extract_from_pdf (pdf_path : string) (page_num : Z) (st : State)
    : list ExtractedText.t * State :=
  match extract_from_pdf_body pdf_path page_num st with
  | (Ok texts, st') => (texts, st')
  | (Raise e, st') => ([], log ERROR (PdfError e) st')
  end.

End Collector.

(** ** Vocabulary of the statements *)

(** The rectangles of the scenario of section 8 of the specification. *)
Definition scenario_box1 : BBox := {| x1 := 0; y1 := 0; x2 := 10; y2 := 10 |}.
Definition scenario_box2 : BBox := {| x1 := 5; y1 := 5; x2 := 15; y2 := 15 |}.

Section MatcherVocabulary.

Variable NFKC : str -> str.

Variable self : AyatExtractor.t.

(** What the search for one verse returns: either nothing, when no unused
    fragment passes the test of the loop, or an unused fragment with its
    index and its score, which is positive and reaches the threshold. *)
Definition candidate_ok (aya_row : AyaRow.t)
    (extracted_texts : list ExtractedText.t) (used_texts : gset Z)
    (r : option ExtractedText.t * Q * Z) : Prop :=
  match r with
  | (Some e, s, i) =>
      exists n : nat,
        (i = Z.of_nat n) /\ (extracted_texts !! n = Some e)
        /\ (Z.of_nat n ∉ used_texts)
        /\ s = score_against NFKC self aya_row e
        /\ (min_similarity (AyatExtractor.config self) <= s)%Q /\ (0 < s)%Q
  | (None, s, i) =>
      s = 0%Q /\ i = (-1)%Z
      /\ forall n e, extracted_texts !! n = Some e ->
           Z.of_nat n ∉ used_texts ->
           ~ ((0 < score_against NFKC self aya_row e)%Q
              /\ (min_similarity (AyatExtractor.config self)
                  <= score_against NFKC self aya_row e)%Q)
  end.

(** The verses matched so far, each with the index of the fragment it
    consumed and that fragment. *)
Definition trace : Type := list (AyaRow.t * nat * ExtractedText.t).

Definition trace_row (c : AyaRow.t * nat * ExtractedText.t) : AyaRow.t :=
  fst (fst c).
Definition trace_idx (c : AyaRow.t * nat * ExtractedText.t) : nat :=
  snd (fst c).
Definition trace_text (c : AyaRow.t * nat * ExtractedText.t) : ExtractedText.t :=
  snd c.

(** The match the loop builds for one entry of the trace. *)
Definition match_of (page_num : Z) (c : AyaRow.t * nat * ExtractedText.t)
    : MatchedAyah.t :=
  new_match NFKC self page_num (trace_row c) (trace_text c)
            (score_against NFKC self (trace_row c) (trace_text c)).

(** The invariant of the loop over the verses of the page. *)
Definition loop_ok (page_num : Z) (extracted_texts : list ExtractedText.t)
    (rows : list AyaRow.t) (matches : list MatchedAyah.t) (used_texts : gset Z)
    (tr : trace) : Prop :=
  matches = map (match_of page_num) tr
  /\ sublist (map trace_row tr) rows
  /\ NoDup (map trace_idx tr)
  /\ used_texts = list_to_set (map (fun c => Z.of_nat (trace_idx c)) tr)
  /\ Forall (fun c =>
       extracted_texts !! trace_idx c = Some (trace_text c)
       /\ (min_similarity (AyatExtractor.config self)
           <= score_against NFKC self (trace_row c) (trace_text c))%Q
       /\ (0 < score_against NFKC self (trace_row c) (trace_text c))%Q) tr.

End MatcherVocabulary.

Section PageRunVocabulary.

Variable NFKC : str -> str.

Variable self : AyatExtractor.t.

(** What the matcher did with one verse of the page, its outcome, is
    [Some (n, e)] when the verse was given the fragment [e] of index [n] and
    [None] when it was left unmatched. *)

(** The match emitted for a verse, if any. *)
Definition outcome_match (page_num : Z) (row_outcome : AyaRow.t * option (nat * ExtractedText.t))
    : option MatchedAyah.t :=
  match snd row_outcome with
  | Some (n, e) =>
      Some (new_match NFKC self page_num (fst row_outcome) e
                      (score_against NFKC self (fst row_outcome) e))
  | None => None
  end.

(** The record logged for a verse. *)
Definition outcome_record (aya_row : AyaRow.t) (o : option (nat * ExtractedText.t))
    : Level * Message :=
  match o with
  | Some (n, e) =>
      (DEBUG, MatchedMsg (AyaRow.sura_no aya_row) (AyaRow.aya_no aya_row)
                         (score_against NFKC self aya_row e)
                         (ExtractedText.source e))
  | None =>
      (WARNING, UnmatchedMsg (AyaRow.sura_no aya_row) (AyaRow.aya_no aya_row))
  end.

(** The indices of the fragments given to the first [k] verses: the
    fragments that are no longer available to verse [k]. *)
Definition used_before (outcomes : list (option (nat * ExtractedText.t)))
    (k : nat) : gset Z :=
  list_to_set (omap (fun o : option (nat * ExtractedText.t) =>
                       (fun ne => Z.of_nat (fst ne)) <$> o)
                    (take k outcomes)).

End PageRunVocabulary.

(** [self.stats[key]], a [defaultdict(int)]. *)
Definition stat (st : State) (key : string) : Z := default 0%Z (stats st !! key).

(** A rectangle whose corners are in order. *)
Definition well_formed (r : BBox) : Prop := (x1 r <= x2 r)%Q /\ (y1 r <= y2 r)%Q.

(** A fragment and a region with the boxes of the scenario. *)
Definition scenario_fragment : ExtractedText.t :=
  {| ExtractedText.text := [0x61; 0x62]%Z;
     ExtractedText.bbox := scenario_box1;
     ExtractedText.page := 1%Z;
     ExtractedText.source := "svg";
     ExtractedText.line_number := None;
     ExtractedText.confidence := 1%Q;
     ExtractedText.metadata := ∅ |}.

Definition scenario_region : TextRegion.t :=
  {| TextRegion.bbox := scenario_box2;
     TextRegion.text := Some [0x61; 0x62]%Z;
     TextRegion.confidence := 0.9%Q;
     TextRegion.text_type := "ayah";
     TextRegion.font_type := "uthmani";
     TextRegion.line_number := None;
     TextRegion.metadata := ∅ |}.

(** [unicodedata.normalize('NFKC', t)] for a text [t] that is in normal form
    already, which it returns unchanged.  ASCII letters and digits and the
    Arabic letters, marks and digits are in normal form: the examples below
    use no other character. *)
Definition NFKC_of_normalized : str -> str := fun t => t.

(** The texts ["ab"], ["ab 1"], ["ab 2"] and ["a" + fatha + " 1"], a
    processor without font manager and one whose font has the fatha among its
    symbols. *)
Definition text_ab : str := [0x61; 0x62]%Z.
Definition text_ab_1 : str := [0x61; 0x62; 0x20; 0x31]%Z.
Definition text_ab_2 : str := [0x61; 0x62; 0x20; 0x32]%Z.
Definition text_xy : str := [0x78; 0x79]%Z.
Definition text_a_fatha_1 : str := [0x61; 0x064E; 0x20; 0x31]%Z.

Definition processor_without_font : AdvancedTextProcessor :=
  {| font_manager := None |}.

Definition processor_with_fatha : AdvancedTextProcessor :=
  {| font_manager := Some {| uthmani_symbols := {[ 0x064E%Z ]} |} |}.

(** An extractor with threshold 0.8 and no font manager, a verse of page 1
    whose text is ["ab"], and two fragments, ["ab 1"] and ["xy"]. *)
Definition example_extractor : AyatExtractor.t :=
  {| AyatExtractor.config := {| min_similarity := 0.8%Q; line_threshold := None |};
     AyatExtractor.font_manager := None |}.

Definition example_row : AyaRow.t :=
  {| AyaRow.page := 1%Z; AyaRow.sura_no := 1%Z;
     AyaRow.sura_name_ar := []; AyaRow.sura_name_en := [];
     AyaRow.aya_no := 1%Z; AyaRow.aya_text := text_ab;
     AyaRow.text_clean := text_ab |}.

Definition example_fragment (t : str) : ExtractedText.t :=
  {| ExtractedText.text := t;
     ExtractedText.bbox := scenario_box1;
     ExtractedText.page := 1%Z;
     ExtractedText.source := "svg";
     ExtractedText.line_number := None;
     ExtractedText.confidence := 1%Q;
     ExtractedText.metadata := ∅ |}.

Definition empty_state : State := {| stats := ∅; logs := [] |}.

(** A runtime in which no page source can be read. *)
Definition unreadable_runtime : Runtime :=
  {| ET_parse := fun _ => Raise (ParseError "not well-formed");
     fitz_open := fun _ => Raise (RuntimeError "cannot open document");
     float := fun _ => Raise (ValueError "could not convert string to float");
     re_search_matrix := fun _ => None;
     re_search_translate := fun _ => None;
     _decode_html_entities := fun t => Ok t;
     _get_page_from_filename := fun _ => 1%Z |}.

(** *** Invariants of [difflib.find_longest_match] *)

Section SelfMatchVocabulary.

Variable s : str.

Variables lo hi : nat.

(** The length of the run of indexed (not popular) elements of [s] that ends
    at [i], counted inside the window that starts at [lo]: the entry of the
    diagonal when [s] is compared with itself. *)
Fixpoint diag (i : nat) : nat :=
  match s !! i with
  | Some x =>
      if difflib.bpopular s x || (i <? lo) then 0
      else S (match i with O => 0 | S i' => diag i' end)
  | None => 0
  end.

(** The entry above and to the left of the diagonal entry of row [i]. *)
Definition diag_pred (i : nat) : nat :=
  match i with O => 0 | S i' => diag i' end.

(** The state of a row: [row] is [j2len] once row [i] is done. *)
Definition row_ok (i : nat) (row : gmap nat nat) : Prop :=
  (forall j v, row !! j = Some v ->
     lo <= j < hi /\ 1 <= v /\ (j <= i -> v <= diag j) /\ (i <= j -> v <= diag i))
  /\ default 0 (row !! i) = diag i.

(** [prev] is [j2len] when row [i] starts. *)
Definition prev_ok (i : nat) (prev : gmap nat nat) : Prop :=
  (i = lo /\ prev = ∅) \/ (exists i', i = S i' /\ lo <= i' /\ row_ok i' prev).

(** The best block so far lies on the diagonal and is at least as long as the
    diagonal runs seen; [done_i] tells that the diagonal entry of row [i] has
    been read. *)
Definition best_ok (i : nat) (done_i : bool) (best : difflib.Match) : Prop :=
  exists p k, best = (p, p, k) /\ lo <= p /\ p + k <= i + 1
    /\ (forall j, lo <= j < i -> diag j <= k)
    /\ (done_i = true -> diag i <= k)
    /\ (done_i = false -> p + k <= i).

(** The state inside a row: the keys of [new] are below [m], the next
    position to be read. *)
Definition within_ok (i m : nat) (new : gmap nat nat) : Prop :=
  (forall j v, new !! j = Some v ->
     j < m /\ lo <= j < hi /\ 1 <= v
     /\ (j <= i -> v <= diag j) /\ (i <= j -> v <= diag i))
  /\ (i < m -> new !! i = Some (diag i)).

(** Between two rows: the best block lies on the diagonal above row [i]. *)
Definition start_ok (i : nat) (best : difflib.Match) : Prop :=
  exists p k, best = (p, p, k) /\ lo <= p /\ p + k <= i
    /\ (forall j, lo <= j < i -> diag j <= k).

End SelfMatchVocabulary.

(** For any two sequences: the values of a row are at most the number of
    rows read, and the best block lies inside the rows read. *)
Definition row_bounded (alo i : nat) (row : gmap nat nat) : Prop :=
  forall j v, row !! j = Some v -> v <= i - alo.

Definition best_bounded (alo i : nat) (best : difflib.Match) : Prop :=
  alo <= fst (fst best) /\ fst (fst best) + difflib.size best <= i.

(** The work a queue of windows stands for. *)
Definition queue_weight (queue : list difflib.window) : nat :=
  foldr (fun w acc => 2 * (snd (fst (fst w)) - fst (fst (fst w))) + 1 + acc)
        0 queue.

Definition window_ok (w : difflib.window) : Prop :=
  fst (fst (fst w)) <= snd (fst (fst w)).

(** ** Further methods of [AdvancedTextProcessor] *)

(** [re.split('[cls]+', s)]: the pieces of [s] between the maximal runs of
    the class, empty pieces included.  [cur] is the piece being read,
    reversed; [inrun] tells that the previous character was a separator. *)
Fixpoint re_split_runs_from (cls : Z -> bool) (cur : str) (inrun : bool)
    (s : str) : list str :=
  match s with
  | [] => [rev cur]
  | c :: s' =>
      if cls c
      then (if inrun then re_split_runs_from cls [] true s'
            else rev cur :: re_split_runs_from cls [] true s')
      else re_split_runs_from cls (c :: cur) false s'
  end.

Definition re_split_runs (cls : Z -> bool) (s : str) : list str :=
  re_split_runs_from cls [] false s.

(** [separator.join(l)]. *)
Fixpoint join (separator : str) (l : list str) : str :=
  match l with
  | [] => []
  | [x] => x
  | x :: l' => x ++ separator ++ join separator l'
  end.

(** The characters counted as Arabic by [_calculate_language_confidence] and
    [detect_text_direction]. *)
Definition is_arabic_block (c : Z) : bool := (0x0600 <=? c)%Z && (c <=? 0x06FF)%Z.

(** [_calculate_language_confidence]. *)
Definition _calculate_language_confidence (text : str) : Q :=
  match text with
  | [] => 0%Q
  | _ =>
      let arabic_chars := length (filter (fun c => is_arabic_block c = true) text) in
      let total_chars := length (replace 0x20%Z [] text) in
      if 0 <? total_chars then (Qnat arabic_chars / Qnat total_chars)%Q else 0%Q
  end.

(** [detect_text_direction]. *)
Definition detect_text_direction (text : str) : string :=
  match text with
  | [] => "ltr"
  | _ =>
      let arabic_chars := length (filter (fun c => is_arabic_block c = true) text) in
      let total_chars := length (replace 0x20%Z [] text) in
      if total_chars =? 0 then "ltr"
      else
        let arabic_ratio := (Qnat arabic_chars / Qnat total_chars)%Q in
        if Qltb 0.5 arabic_ratio then "rtl" else "ltr"
  end.

(** [merge_segments(segments, separator)]. *)
Definition merge_segments (segments : list str) (separator : str) : str :=
  match segments with
  | [] => []
  | _ =>
      let cleaned :=
        map strip (filter (fun s => nonempty (strip s) = true) segments) in
      let merged := join separator cleaned in
      let merged := re_sub_runs py_isspace [0x20%Z] merged in
      strip merged
  end.

Section TextProcessorMore.

Variable NFKC : str -> str.

Variable self : AdvancedTextProcessor.

(** The body of the loop of [find_best_match]: [acc] is
    [(best_match, best_score)]. *)
Definition consider_match (target : str) (min_similarity : Q)
    (acc : option str * Q) (candidate : str) : option str * Q :=
  let '(best_match, best_score) := acc in
  let score := text_similarity NFKC self target candidate "combined" in
  if Qltb best_score score && Qle_bool min_similarity score
  then (Some candidate, score)
  else acc.

(** [find_best_match(target, candidates, min_similarity)]. *)
Definition find_best_match (target : str) (candidates : list str)
    (min_similarity : Q) : option str * Q :=
  fold_left (consider_match target min_similarity) candidates (None, 0%Q).

(** [split_into_words(text, preserve_marks)]. *)
Definition split_into_words (text : str) (preserve_marks : bool) : list str :=
  let words :=
    if preserve_marks
    then re_split_runs
           (fun c => py_isspace c || (c =? 0x200C)%Z || (c =? 0x200D)%Z) text
    else split (clean_text NFKC text false) in
  filter (fun w => nonempty w = true) words.

End TextProcessorMore.

(** ** Vocabulary of the further properties *)

(** A word: a non-empty string without white space. *)
Definition is_word (w : str) : Prop :=
  w <> [] /\ Forall (fun c => py_isspace c = false) w.

(** The symbols [clean_text] replaces by a space: the ornate parentheses,
    the end-of-ayah and rub-el-hizb signs, brackets, guillemets and the
    double quote. *)
Definition special_symbols : list Z :=
  [0xFD3E; 0xFD3F; 0x06DD; 0x06DE; 0x5B; 0x5D; 0x28; 0x29;
   0x7B; 0x7D; 0xAB; 0xBB; 0x22]%Z.

(** The letters [normalize_text] keeps at level ['aggressive']. *)
Definition is_arabic_letter (c : Z) : Prop :=
  (0x0621 <= c <= 0x064A)%Z \/ (0x0671 <= c <= 0x06D3)%Z.

(** Two Latin words, the example of the [difflib] manual for the order of
    the arguments of [ratio]. *)
Definition text_tide : str := [0x74; 0x69; 0x64; 0x65]%Z.
Definition text_diet : str := [0x64; 0x69; 0x65; 0x74]%Z.

(** For [difflib]: the values of a row and the best block, seen from [b],
    and the elements of [a] and of [b] a queue of windows still covers. *)
Definition row_bounded_b (blo : nat) (row : gmap nat nat) : Prop :=
  forall j v, row !! j = Some v -> v <= j + 1 - blo.

Definition best_bounded_b (blo bhi : nat) (best : difflib.Match) : Prop :=
  blo <= snd (fst best) /\ snd (fst best) + difflib.size best <= bhi.

Definition window_ok_b (w : difflib.window) : Prop :=
  snd (fst w) <= snd w.

Definition queue_span_a (queue : list difflib.window) : nat :=
  foldr (fun w acc => (snd (fst (fst w)) - fst (fst (fst w))) + acc) 0 queue.

Definition queue_span_b (queue : list difflib.window) : nat :=
  foldr (fun w acc => (snd w - snd (fst w)) + acc) 0 queue.

Definition total_size (blocks : list difflib.Match) : nat :=
  foldr (fun m acc => difflib.size m + acc) 0 blocks.

Section ChoiceVocabulary.

Variable NFKC : str -> str.

(** What [find_best_match] returns: the candidate with the highest score
    when that score is positive and reaches the threshold, [None] and 0
    otherwise. *)
Definition best_match_ok (self : AdvancedTextProcessor) (target : str)
    (candidates : list str) (min_similarity : Q) (r : option str * Q) : Prop :=
  let score c := text_similarity NFKC self target c "combined" in
  match r with
  | (Some best, s) =>
      best ∈ candidates /\ s = score best
      /\ (min_similarity <= s)%Q /\ (0 < s)%Q
      /\ forall c, c ∈ candidates -> (score c <= s)%Q
  | (None, s) =>
      s = 0%Q
      /\ forall c, c ∈ candidates ->
           (score c <= 0)%Q \/ (score c < min_similarity)%Q
  end.


End ChoiceVocabulary.

(** An extractor whose threshold no score can reach. *)
Definition unreachable_extractor : AyatExtractor.t :=
  {| AyatExtractor.config := {| min_similarity := 1.5%Q; line_threshold := None |};
     AyatExtractor.font_manager := None |}.

(** The output of [_merge_ai_results] for one primary fragment: the fragment
    itself, or the fragment enhanced by the region chosen for it. *)
Definition merged_with (trad_text : ExtractedText.t)
    (choice : option (nat * TextRegion.t)) : ExtractedText.t :=
  match choice with
  | Some (_, ai_region) => enhanced_text trad_text ai_region
  | None => trad_text
  end.

(** The indices of the regions chosen. *)
Definition chosen_indices (choices : list (option (nat * TextRegion.t)))
    : list nat :=
  omap (fun choice => fst <$> choice) choices.

(** A box of positive width and height. *)
Definition positive_area (r : BBox) : Prop := (x1 r < x2 r)%Q /\ (y1 r < y2 r)%Q.

(** * Properties *)

(** ** Python strings *)

Lemma in_ranges_true_iff rs c :
  in_ranges rs c = true <-> exists r, In r rs /\ (fst r <= c <= snd r)%Z.
Proof.
  unfold in_ranges. rewrite existsb_exists. split.
  - intros (r & Hr & H). exists r. split; [done|].
    apply andb_true_iff in H as [H1 H2]. lia.
  - intros (r & Hr & H). exists r. split; [done|].
    apply andb_true_iff. split; lia.
Qed.

Lemma elem_of_lstrip c s : c ∈ lstrip s -> c ∈ s.
Proof.
  induction s as [|x s IH]; simpl; [done|].
  destruct (py_isspace x); [|done].
  intros H. right. by apply IH.
Qed.

Lemma elem_of_strip c s : c ∈ strip s -> c ∈ s.
Proof.
  unfold strip, rstrip. intros H.
  apply elem_of_lstrip. apply list_elem_of_In, in_rev, list_elem_of_In in H.
  apply elem_of_lstrip in H. by apply list_elem_of_In, in_rev, list_elem_of_In in H.
Qed.

Lemma elem_of_re_sub_class_nil cls c s :
  c ∈ re_sub_class cls [] s -> c ∈ s /\ cls c = false.
Proof.
  unfold re_sub_class. induction s as [|x s IH]; simpl.
  - intros H. inversion H.
  - destruct (cls x) eqn:E; simpl.
    + intros H. destruct (IH H). split; [by right|done].
    + intros H. apply elem_of_cons in H as [->|H].
      * split; [by left|done].
      * destruct (IH H). split; [by right|done].
Qed.

(** Boolean comparisons of rationals. *)
Lemma Qltb_true x y : Qltb x y = true <-> (x < y)%Q.
Proof.
  unfold Qltb. rewrite negb_true_iff. split.
  - intros H. apply Qnot_le_lt. intros Hle. apply Qle_bool_iff in Hle. congruence.
  - intros H. destruct (Qle_bool y x) eqn:E; [|done].
    apply Qle_bool_iff in E. exfalso. by apply (Qlt_not_le x y).
Qed.

Lemma Qltb_false x y : Qltb x y = false <-> (y <= x)%Q.
Proof.
  unfold Qltb. rewrite negb_false_iff. apply Qle_bool_iff.
Qed.

Lemma Qle_bool_false x y : Qle_bool x y = false <-> (y < x)%Q.
Proof.
  split.
  - intros H. apply Qnot_le_lt. intros Hle. apply Qle_bool_iff in Hle. congruence.
  - intros H. destruct (Qle_bool x y) eqn:E; [|done].
    apply Qle_bool_iff in E. exfalso. by apply (Qlt_not_le y x).
Qed.

Lemma Qltb_comp x x' y y' : (x == x')%Q -> (y == y')%Q -> Qltb x y = Qltb x' y'.
Proof.
  intros Hx Hy. destruct (Qltb x' y') eqn:E.
  - apply Qltb_true. apply Qltb_true in E. by rewrite Hx, Hy.
  - apply Qltb_false. apply Qltb_false in E. by rewrite Hx, Hy.
Qed.

(** ** The normaliser *)

(** C8.  For every text [t], no character of [normalize_text(t, 'full')]
    lies in one of the six diacritic ranges: the deletion of the diacritics
    comes after the glyph substitutions, and only [strip] follows it. *)
Theorem normalize_full_has_no_diacritic (NFKC : str -> str) (t : str) :
  Forall (fun c =>
            ~ ((0x064B <= c <= 0x0652) \/ (0x0653 <= c <= 0x065F)
               \/ (0x0670 <= c <= 0x0671) \/ (0x06D6 <= c <= 0x06ED)
               \/ (0x08D3 <= c <= 0x08FF) \/ (0xFBB2 <= c <= 0xFBC1))%Z)
         (normalize_text NFKC t "full").
Proof.
  apply Forall_forall. intros c.
  unfold normalize_text. destruct t as [|x t]; [intros H; inversion H|].
  replace (bool_decide ("full" = "minimal")) with false by (by vm_compute).
  replace (bool_decide ("full" ∈ ["basic"; "full"; "aggressive"])) with true
    by (by vm_compute).
  replace (bool_decide ("full" ∈ ["full"; "aggressive"])) with true
    by (by vm_compute).
  replace (bool_decide ("full" = "aggressive")) with false by (by vm_compute).
  intros H. apply elem_of_strip in H.
  apply elem_of_re_sub_class_nil in H as [_ H].
  intros Hc.
  assert (diacritic_pattern c = true) as E; [|congruence].
  apply in_ranges_true_iff. unfold DIACRITIC_RANGES.
  destruct Hc as [Hc|[Hc|[Hc|[Hc|[Hc|Hc]]]]];
    [exists (0x064B, 0x0652)%Z|exists (0x0653, 0x065F)%Z|exists (0x0670, 0x0671)%Z
    |exists (0x06D6, 0x06ED)%Z|exists (0x08D3, 0x08FF)%Z|exists (0xFBB2, 0xFBC1)%Z];
    (split; [simpl; tauto|exact Hc]).
Qed.

(** ** The reconciler *)

Lemma best_ai_region_nil trad_text used :
  best_ai_region trad_text [] used = (None, 0%Q).
Proof. reflexivity. Qed.

Lemma merge_loop_no_regions trad merged (used : gset nat) :
  fold_left
    (fun acc trad_text =>
       let '(merged, used_ai_regions) := acc in
       match fst (best_ai_region trad_text [] used_ai_regions) with
       | Some (idx, ai_region) =>
           (merged ++ [enhanced_text trad_text ai_region],
            {[idx]} ∪ used_ai_regions)
       | None => (merged ++ [trad_text], used_ai_regions)
       end)
    trad (merged, used) = (merged ++ trad, used).
Proof.
  revert merged. induction trad as [|t trad IH]; intros merged; simpl.
  - by rewrite app_nil_r.
  - rewrite IH. by rewrite <- app_assoc.
Qed.

(** C6.  Merging any sequence of primary fragments with an analysis that has
    no region returns the sequence itself: same fragments, same order. *)
Theorem merge_without_regions_is_identity
    (traditional_texts : list ExtractedText.t) (page_number : Z) :
  _merge_ai_results traditional_texts
    {| PageAnalysis.page_number := page_number;
       PageAnalysis.text_regions := [] |}
  = traditional_texts.
Proof.
  unfold _merge_ai_results. cbn [PageAnalysis.text_regions].
  rewrite merge_loop_no_regions. reflexivity.
Qed.

Lemma clipped_product (dx dy : Q) :
  (Qmax 0 dx * Qmax 0 dy ==
   if Qle_bool 0 dx && Qle_bool 0 dy then dx * dy else 0)%Q.
Proof.
  destruct (Qle_bool 0 dx) eqn:Ex; destruct (Qle_bool 0 dy) eqn:Ey; simpl.
  - apply Qle_bool_iff in Ex, Ey. by rewrite (Q.max_r _ _ Ex), (Q.max_r _ _ Ey).
  - apply Qle_bool_false in Ey.
    rewrite (Q.max_l 0 dy) by (by apply Qlt_le_weak). ring.
  - apply Qle_bool_false in Ex.
    rewrite (Q.max_l 0 dx) by (by apply Qlt_le_weak). ring.
  - apply Qle_bool_false in Ex.
    rewrite (Q.max_l 0 dx) by (by apply Qlt_le_weak). ring.
Qed.

Lemma Qle_bool_sub x y : Qle_bool x y = Qle_bool 0 (y - x).
Proof.
  destruct (Qle_bool 0 (y - x)) eqn:E.
  - apply Qle_bool_iff. apply Qle_bool_iff in E. lra.
  - apply Qle_bool_false. apply Qle_bool_false in E. lra.
Qed.

Lemma code_intersection_is_intersection_area (b1 b2 : BBox) :
  (Qmax 0 (Qmin (x2 b1) (x2 b2) - Qmax (x1 b1) (x1 b2))
   * Qmax 0 (Qmin (y2 b1) (y2 b2) - Qmax (y1 b1) (y1 b2))
   == intersection_area b1 b2)%Q.
Proof.
  rewrite clipped_product.
  unfold intersection_area, rect_intersection. cbn [x1 y1 x2 y2].
  rewrite <- !Qle_bool_sub.
  destruct (Qle_bool _ _ && Qle_bool _ _); [|reflexivity].
  unfold rect_area. cbn [x1 y1 x2 y2]. reflexivity.
Qed.

Lemma bbox_overlap_refines_spec (b1 b2 : BBox) :
  (_calculate_bbox_overlap b1 b2 == spec_IoU b1 b2)%Q.
Proof.
  unfold _calculate_bbox_overlap, spec_IoU, union_area.
  cbv zeta. cbn [fst snd].
  pose proof (code_intersection_is_intersection_area b1 b2) as HI.
  set (I := (Qmax 0 _ * Qmax 0 _)%Q) in *.
  fold (rect_area b1). fold (rect_area b2).
  rewrite (Qltb_comp 0 0 (rect_area b1 + rect_area b2 - I)
             (rect_area b1 + rect_area b2 - intersection_area b1 b2))
    by (try reflexivity; by rewrite HI).
  destruct (Qltb _ _); [|reflexivity].
  by rewrite HI.
Qed.

Lemma zero_area_no_intersection (b1 b2 : BBox) :
  (rect_area b1 == 0)%Q \/ (rect_area b2 == 0)%Q ->
  (intersection_area b1 b2 == 0)%Q.
Proof.
  intros H. unfold intersection_area, rect_intersection.
  cbn [x1 y1 x2 y2].
  destruct (Qle_bool _ _) eqn:Ex; [|reflexivity].
  destruct (Qle_bool (Qmax (y1 b1) _) _) eqn:Ey; [|reflexivity].
  simpl. unfold rect_area in *. cbn [x1 y1 x2 y2].
  apply Qle_bool_iff in Ex, Ey.
  pose proof (Q.le_max_l (x1 b1) (x1 b2)). pose proof (Q.le_max_r (x1 b1) (x1 b2)).
  pose proof (Q.le_max_l (y1 b1) (y1 b2)). pose proof (Q.le_max_r (y1 b1) (y1 b2)).
  pose proof (Q.le_min_l (x2 b1) (x2 b2)). pose proof (Q.le_min_r (x2 b1) (x2 b2)).
  pose proof (Q.le_min_l (y2 b1) (y2 b2)). pose proof (Q.le_min_r (y2 b1) (y2 b2)).
  set (a := Qmax (x1 b1) (x1 b2)) in *. set (b := Qmin (x2 b1) (x2 b2)) in *.
  set (c := Qmax (y1 b1) (y1 b2)) in *. set (d := Qmin (y2 b1) (y2 b2)) in *.
  assert ((b - a == 0)%Q \/ (d - c == 0)%Q) as [E|E].
  { destruct H as [H|H]; apply Qmult_integral in H as [H|H];
      [left|right|left|right]; lra. }
  - rewrite E. ring.
  - rewrite E. ring.
Qed.

Lemma Qmult_le_mono (p q r s : Q) :
  (0 <= p)%Q -> (p <= q)%Q -> (0 <= r)%Q -> (r <= s)%Q -> (p * r <= q * s)%Q.
Proof.
  intros Hp Hpq Hr Hrs.
  apply Qle_trans with (q * r)%Q.
  - by apply Qmult_le_compat_r.
  - rewrite (Qmult_comm q r), (Qmult_comm q s).
    apply Qmult_le_compat_r; [done|]. by apply Qle_trans with p.
Qed.

Lemma intersection_area_bounds (r s : BBox) :
  well_formed r -> well_formed s ->
  (0 <= intersection_area r s)%Q
  /\ (intersection_area r s <= rect_area r)%Q
  /\ (intersection_area r s <= rect_area s)%Q.
Proof.
  intros [Hrx Hry] [Hsx Hsy].
  assert (0 <= rect_area r)%Q as Hr0 by (apply Qmult_le_0_compat; lra).
  assert (0 <= rect_area s)%Q as Hs0 by (apply Qmult_le_0_compat; lra).
  unfold intersection_area, rect_intersection. cbn [x1 y1 x2 y2].
  destruct (Qle_bool (Qmax (x1 r) (x1 s)) (Qmin (x2 r) (x2 s))) eqn:Ex;
    [|by repeat split].
  destruct (Qle_bool (Qmax (y1 r) (y1 s)) (Qmin (y2 r) (y2 s))) eqn:Ey;
    [|by repeat split].
  cbn [andb].
  apply Qle_bool_iff in Ex, Ey. unfold rect_area. cbn [x1 y1 x2 y2].
  pose proof (Q.le_max_l (x1 r) (x1 s)). pose proof (Q.le_max_r (x1 r) (x1 s)).
  pose proof (Q.le_max_l (y1 r) (y1 s)). pose proof (Q.le_max_r (y1 r) (y1 s)).
  pose proof (Q.le_min_l (x2 r) (x2 s)). pose proof (Q.le_min_r (x2 r) (x2 s)).
  pose proof (Q.le_min_l (y2 r) (y2 s)). pose proof (Q.le_min_r (y2 r) (y2 s)).
  set (a := Qmax (x1 r) (x1 s)) in *. set (b := Qmin (x2 r) (x2 s)) in *.
  set (c := Qmax (y1 r) (y1 s)) in *. set (d := Qmin (y2 r) (y2 s)) in *.
  split; [apply Qmult_le_0_compat; lra|].
  split; apply Qmult_le_mono; lra.
Qed.

Lemma spec_IoU_range (r s : BBox) :
  well_formed r -> well_formed s ->
  (0 <= union_area r s)%Q /\ (0 <= spec_IoU r s <= 1)%Q.
Proof.
  intros Hr Hs.
  destruct (intersection_area_bounds r s Hr Hs) as (H0 & H1 & H2).
  assert (0 <= rect_area s)%Q as Hs0 by lra.
  assert (intersection_area r s <= union_area r s)%Q as HU
    by (unfold union_area; lra).
  split; [lra|]. unfold spec_IoU.
  destruct (Qltb 0 (union_area r s)) eqn:E; [|split; discriminate].
  apply Qltb_true in E. split.
  - apply Qle_shift_div_l; [done|]. lra.
  - apply Qle_shift_div_r; [done|]. lra.
Qed.

(** C7.  [_calculate_bbox_overlap] is intersection area over union area as
    the specification defines them ([spec_IoU]); it is 0 when the union has
    no area and when one of the rectangles has no area, and for rectangles
    whose corners are in order the union area is not negative and the value
    lies between 0 and 1.  For the rectangles [[0,0,10,10]] and
    [[5,5,15,15]] it is 25/175, which does not exceed 0.5, and
    [_merge_ai_results] leaves a fragment and a region with these boxes
    unmerged: the fragment comes out as it is, followed at most by the
    region as a fragment of its own. *)
Theorem bbox_overlap_is_iou :
  (forall b1 b2 : BBox,
     (_calculate_bbox_overlap b1 b2 == spec_IoU b1 b2)%Q
     /\ ((union_area b1 b2 == 0)%Q -> (_calculate_bbox_overlap b1 b2 == 0)%Q)
     /\ ((rect_area b1 == 0)%Q \/ (rect_area b2 == 0)%Q ->
         (_calculate_bbox_overlap b1 b2 == 0)%Q)
     /\ (well_formed b1 -> well_formed b2 ->
         (0 <= union_area b1 b2)%Q
         /\ (0 <= _calculate_bbox_overlap b1 b2 <= 1)%Q))
  /\ (_calculate_bbox_overlap scenario_box1 scenario_box2 == 25 # 175)%Q
  /\ ~ (0.5 < _calculate_bbox_overlap scenario_box1 scenario_box2)%Q
  /\ (forall (trad_text : ExtractedText.t) (ai_region : TextRegion.t)
             (page_number : Z),
        ExtractedText.bbox trad_text = scenario_box1 ->
        TextRegion.bbox ai_region = scenario_box2 ->
        exists rest,
          _merge_ai_results [trad_text]
            {| PageAnalysis.page_number := page_number;
               PageAnalysis.text_regions := [ai_region] |}
          = trad_text :: rest
          /\ Forall (fun t => ExtractedText.source t = "ai_only") rest).
Proof.
  split; [|split; [|split]].
  - intros b1 b2. split; [apply bbox_overlap_refines_spec|]. split; [|split].
    + intros HU. rewrite bbox_overlap_refines_spec. unfold spec_IoU.
      rewrite (Qltb_comp 0 0 (union_area b1 b2) 0) by (done || reflexivity).
      reflexivity.
    + intros HZ. rewrite bbox_overlap_refines_spec. unfold spec_IoU.
      destruct (Qltb _ _); [|reflexivity].
      rewrite (zero_area_no_intersection _ _ HZ). unfold Qdiv. ring.
    + intros H1 H2. rewrite bbox_overlap_refines_spec.
      by apply spec_IoU_range.
  - vm_compute. reflexivity.
  - vm_compute. discriminate.
  - intros trad_text ai_region page_number H1 H2.
    unfold _merge_ai_results, best_ai_region. cbn [PageAnalysis.text_regions].
    cbn [enumerate imap fold_left]. rewrite H1, H2.
    replace (bool_decide (0 ∈ (∅ : gset nat))) with false by (by vm_compute).
    replace (Qltb 0 (_calculate_bbox_overlap scenario_box1 scenario_box2)
             && Qltb 0.5 (_calculate_bbox_overlap scenario_box1 scenario_box2))
      with false by (by vm_compute).
    cbn [fst app].
    destruct (bool_decide (0 ∉ (∅ : gset nat))
              && bool_decide (TextRegion.text_type ai_region = "ayah")).
    + eexists. split; [reflexivity|]. by repeat constructor.
    + eexists. split; [reflexivity|]. constructor.
Qed.

(** The scenario on a concrete fragment and a concrete region: the fragment
    is kept as it is. *)
Lemma bbox_overlap_is_iou_witness :
  ExtractedText.bbox scenario_fragment = scenario_box1
  /\ TextRegion.bbox scenario_region = scenario_box2
  /\ exists rest,
       _merge_ai_results [scenario_fragment]
         {| PageAnalysis.page_number := 1%Z;
            PageAnalysis.text_regions := [scenario_region] |}
       = scenario_fragment :: rest
       /\ Forall (fun t => ExtractedText.source t = "ai_only") rest.
Proof.
  split; [reflexivity|]. split; [reflexivity|].
  apply (proj2 (proj2 (proj2 bbox_overlap_is_iou))); reflexivity.
Defined.

(** ** The collectors *)

(** Whatever the body of a collector raises, the collector returns [[]] and
    logs one error. *)
Lemma extract_from_svg_catches self rt svg_path st e st' :
  extract_from_svg_body self rt svg_path st = (Raise e, st') ->
  extract_from_svg self rt svg_path st
  = ([], log ERROR (SvgError svg_path e) st').
Proof. unfold extract_from_svg. by intros ->. Qed.

Lemma extract_from_pdf_catches rt pdf_path page_num st e st' :
  extract_from_pdf_body rt pdf_path page_num st = (Raise e, st') ->
  extract_from_pdf rt pdf_path page_num st = ([], log ERROR (PdfError e) st').
Proof. unfold extract_from_pdf. by intros ->. Qed.

(** C9.  When parsing the page source raises (the SVG parser, the opening
    of the PDF document, or the text extraction of the PDF page), the
    collector returns the empty list and logs the error: the exception does
    not leave the collector. *)
Theorem unparsable_page_yields_no_fragment
    (self : AyatExtractor.t) (rt : Runtime) (st : State) (e : exn) :
  (forall svg_path,
     ET_parse rt svg_path = Raise e ->
     extract_from_svg self rt svg_path st
     = ([], log ERROR (SvgError svg_path e) st))
  /\ (forall pdf_path page_num,
        fitz_open rt pdf_path = Raise e ->
        extract_from_pdf rt pdf_path page_num st
        = ([], log ERROR (PdfError e) st))
  /\ (forall pdf_path page_num doc page,
        fitz_open rt pdf_path = Ok doc ->
        (0 <= page_num < Document.page_count doc)%Z ->
        Document.pages doc !! Z.to_nat page_num = Some page ->
        Page.get_text page = Raise e ->
        extract_from_pdf rt pdf_path page_num st
        = ([], log ERROR (PdfError e) st)).
Proof.
  split; [|split].
  - intros svg_path H. apply extract_from_svg_catches.
    unfold extract_from_svg_body, mbind, Py_bind, lift. by rewrite H.
  - intros pdf_path page_num H. apply extract_from_pdf_catches.
    unfold extract_from_pdf_body, mbind, Py_bind, lift. by rewrite H.
  - intros pdf_path page_num doc page H Hr Hp Hg.
    apply extract_from_pdf_catches.
    unfold extract_from_pdf_body, mbind, Py_bind, lift. rewrite H.
    replace ((page_num <? 0)%Z || (Document.page_count doc <=? page_num)%Z)
      with false by (symmetry; apply orb_false_iff; split; lia).
    by rewrite Hp, Hg.
Qed.

(** With a runtime whose parsers raise, both collectors return no fragment
    and log the error. *)
Lemma unparsable_page_yields_no_fragment_witness :
  ET_parse unreadable_runtime "page_001.svg" = Raise (ParseError "not well-formed")
  /\ extract_from_svg example_extractor unreadable_runtime "page_001.svg"
       empty_state
     = ([], log ERROR (SvgError "page_001.svg" (ParseError "not well-formed"))
                empty_state).
Proof.
  split; [reflexivity|].
  apply (proj1 (unparsable_page_yields_no_fragment example_extractor
                  unreadable_runtime empty_state
                  (ParseError "not well-formed"))).
  reflexivity.
Defined.

(** ** The matcher *)

Lemma enumerate_snoc {A} (l : list A) (x : A) :
  enumerate (l ++ [x]) = enumerate l ++ [(length l, x)].
Proof.
  unfold enumerate. rewrite imap_app. simpl. by rewrite Nat.add_0_r.
Qed.

Section MatcherFacts.

Variable NFKC : str -> str.
Variable self : AyatExtractor.t.

Lemma best_candidate_ok aya_row extracted_texts used_texts :
  candidate_ok NFKC self aya_row extracted_texts used_texts
    (best_candidate NFKC self aya_row extracted_texts used_texts).
Proof.
  unfold best_candidate.
  induction extracted_texts as [|x l IH] using rev_ind.
  - simpl. repeat split. intros n e H. by rewrite lookup_nil in H.
  - rewrite enumerate_snoc, fold_left_app. simpl.
    destruct (fold_left _ (enumerate l) _) as [[bm bs] bi].
    unfold consider_candidate.
    case_bool_decide as Hused.
    + (* the fragment is used already *)
      destruct bm as [e|]; simpl in *.
      * destruct IH as (n & -> & Hn & Hu & Hs & Ht & Hp).
        exists n. repeat split; try done.
        by apply lookup_app_l_Some.
      * destruct IH as (-> & -> & Hall). repeat split.
        intros n e Hn Hu. apply lookup_app_Some in Hn as [Hn|[Hlen Hn]].
        -- by eapply Hall.
        -- apply list_lookup_singleton_Some in Hn as [Hz <-].
           replace n with (length l) in Hu by lia. done.
    + destruct (Qltb bs _ && Qle_bool _ _) eqn:E.
      * apply andb_true_iff in E as [E1 E2].
        apply Qltb_true in E1. apply Qle_bool_iff in E2.
        simpl. exists (length l). repeat split; try done.
        -- rewrite lookup_app_r by lia. by rewrite Nat.sub_diag.
        -- destruct bm as [e|]; simpl in IH.
           ++ destruct IH as (n & _ & _ & _ & _ & _ & Hp).
              eapply Qlt_trans; eauto.
           ++ destruct IH as (-> & _). done.
      * destruct bm as [e|]; simpl in *.
        -- destruct IH as (n & -> & Hn & Hu & Hs & Ht & Hp).
           exists n. repeat split; try done.
           by apply lookup_app_l_Some.
        -- destruct IH as (-> & -> & Hall). repeat split.
           intros n e Hn Hu. apply lookup_app_Some in Hn as [Hn|[Hlen Hn]].
           ++ by eapply Hall.
           ++ apply list_lookup_singleton_Some in Hn as [Hz <-].
              intros [H1 H2].
              apply Qltb_true in H1. apply Qle_bool_iff in H2.
              rewrite H1, H2 in E. discriminate.
Qed.


Lemma match_loop_ok page_num extracted_texts rows st :
  exists tr,
    loop_ok NFKC self page_num extracted_texts rows
      (fst (fst (fold_left (match_aya NFKC self page_num extracted_texts) rows
                           ([], ∅, st))))
      (snd (fst (fold_left (match_aya NFKC self page_num extracted_texts) rows
                           ([], ∅, st))))
      tr.
Proof.
  induction rows as [|row rows IH] using rev_ind.
  - exists []. simpl. repeat split; try constructor.
  - rewrite fold_left_app. simpl.
    destruct (fold_left _ rows _) as [[matches used] st'].
    destruct IH as (tr & Hm & Hsub & Hnd & Hused & Hall). simpl in *.
    unfold match_aya.
    pose proof (best_candidate_ok row extracted_texts used) as Hc.
    destruct (best_candidate _ _ _ _ _) as [[[e|] s] i]; simpl in Hc.
    + destruct Hc as (n & -> & Hn & Hu & -> & Ht & Hp). simpl.
      exists (tr ++ [(row, n, e)]). repeat split.
      * rewrite map_app. by rewrite Hm.
      * rewrite !map_app. simpl. by apply sublist_app.
      * rewrite map_app. simpl. apply NoDup_app. repeat split; try done.
        -- intros x Hx Hx'. apply list_elem_of_singleton in Hx'.
           unfold trace_idx in Hx' at 1. simpl in Hx'. subst x.
           apply Hu. rewrite Hused. apply elem_of_list_to_set.
           apply list_elem_of_fmap in Hx as (c & -> & Hc).
           apply list_elem_of_fmap. by exists c.
        -- apply NoDup_singleton.
      * rewrite map_app, list_to_set_app_L. simpl. rewrite Hused.
        rewrite union_empty_r_L. apply (comm_L (∪)).
      * apply Forall_app. split; [done|]. by repeat constructor.
    + simpl. exists tr. repeat split; try done.
      rewrite <- (app_nil_r (map trace_row tr)).
      apply sublist_app; [done|]. apply sublist_nil_l.
Qed.

End MatcherFacts.

Lemma match_ayat_with_texts_trace NFKC self ayat_df extracted_texts page_num st :
  exists (tr : trace) (used_texts : gset Z),
    loop_ok NFKC self page_num extracted_texts (page_rows ayat_df page_num)
      (fst (match_ayat_with_texts NFKC self ayat_df extracted_texts page_num st))
      used_texts tr.
Proof.
  unfold match_ayat_with_texts.
  destruct (page_rows ayat_df page_num) as [|row rows] eqn:E.
  - exists [], ∅. simpl. repeat split; try constructor.
  - destruct (match_loop_ok NFKC self page_num extracted_texts (row :: rows) st)
      as (tr & Htr).
    destruct (fold_left _ (row :: rows) _) as [[matches used] st'].
    exists tr, used. exact Htr.
Qed.

Lemma stat_incr_same key st : stat (stats_incr key st) key = (stat st key + 1)%Z.
Proof. unfold stat, stats_incr. simpl. by rewrite lookup_insert_eq. Qed.

Lemma stat_incr_other key key' st :
  key <> key' -> stat (stats_incr key st) key' = stat st key'.
Proof. intros H. unfold stat, stats_incr. simpl. by rewrite lookup_insert_ne. Qed.

Lemma used_before_all outcomes (o : option (nat * ExtractedText.t)) :
  used_before (outcomes ++ [o]) (length outcomes)
  = used_before outcomes (length outcomes).
Proof. unfold used_before. by rewrite take_app_length, firstn_all. Qed.

Lemma used_before_prefix outcomes (o : option (nat * ExtractedText.t)) k :
  k <= length outcomes ->
  used_before (outcomes ++ [o]) k = used_before outcomes k.
Proof. intros H. unfold used_before. by rewrite take_app_le. Qed.

Lemma used_before_snoc outcomes n e :
  used_before (outcomes ++ [Some (n, e)]) (S (length outcomes))
  = {[Z.of_nat n]} ∪ used_before outcomes (length outcomes).
Proof.
  unfold used_before.
  rewrite firstn_all, take_ge by (rewrite length_app; simpl; lia).
  rewrite omap_app, list_to_set_app_L. simpl.
  rewrite union_empty_r_L. apply (comm_L (∪)).
Qed.

Lemma used_before_snoc_none outcomes :
  used_before (outcomes ++ [None]) (S (length outcomes))
  = used_before outcomes (length outcomes).
Proof.
  unfold used_before.
  rewrite firstn_all, take_ge by (rewrite length_app; simpl; lia).
  rewrite omap_app, list_to_set_app_L. simpl.
  by rewrite union_empty_r_L.
Qed.

Section PageRun.

Variable NFKC : str -> str.

Variable self : AyatExtractor.t.

(** The invariant of the loop of [match_ayat_with_texts], verse by verse:
    what it returns, logs and counts is the image of a list of outcomes, one
    per verse, in which a verse whose available fragments all score below
    the threshold is unmatched. *)
Lemma match_loop_run page_num extracted_texts rows st :
  exists outcomes : list (option (nat * ExtractedText.t)),
    let r := fold_left (match_aya NFKC self page_num extracted_texts) rows
                       ([], ∅, st) in
    length outcomes = length rows
    /\ fst (fst r) = omap (outcome_match NFKC self page_num) (zip rows outcomes)
    /\ snd (fst r) = used_before outcomes (length rows)
    /\ logs (snd r)
       = logs st ++ zip_with (outcome_record NFKC self) rows outcomes
    /\ stat (snd r) "matched"
       = (stat st "matched" + Z.of_nat (length (fst (fst r))))%Z
    /\ stat (snd r) "unmatched"
       = (stat st "unmatched" + Z.of_nat (length rows)
          - Z.of_nat (length (fst (fst r))))%Z
    /\ (forall k aya_row,
          rows !! k = Some aya_row ->
          (forall n e, extracted_texts !! n = Some e ->
                       Z.of_nat n ∉ used_before outcomes k ->
                       (score_against NFKC self aya_row e
                        < min_similarity (AyatExtractor.config self))%Q) ->
          outcomes !! k = Some None)
    /\ (forall k aya_row n e,
          rows !! k = Some aya_row -> outcomes !! k = Some (Some (n, e)) ->
          extracted_texts !! n = Some e
          /\ (Z.of_nat n ∉ used_before outcomes k)
          /\ (min_similarity (AyatExtractor.config self)
              <= score_against NFKC self aya_row e)%Q).
Proof.
  induction rows as [|row rows IH] using rev_ind.
  - exists []. cbn [fold_left fst snd length zip_with omap]. unfold stat.
    rewrite app_nil_r.
    split; [done|]. split; [done|]. split; [done|]. split; [done|].
    split; [lia|]. split; [lia|].
    split; intros k aya_row; intros; by rewrite lookup_nil in *.
  - destruct IH as (outcomes & Hlen & Hm & Hused & Hlog & Hsm & Hsu & Hlow & Hok).
    rewrite fold_left_app. cbn [fold_left].
    destruct (fold_left _ rows _) as [[matches used] st'].
    cbn [fst snd] in Hm, Hused, Hlog, Hsm, Hsu.
    unfold match_aya.
    pose proof (best_candidate_ok NFKC self row extracted_texts used) as Hc.
    destruct (best_candidate _ _ _ _ _) as [[[e|] s] i]; simpl in Hc.
    + destruct Hc as (n & -> & Hn & Hu & -> & Ht & Hp).
      exists (outcomes ++ [Some (n, e)]). cbn [fst snd].
      rewrite !length_app. cbn [length].
      split; [lia|].
      split.
      { rewrite zip_with_app by done. rewrite omap_app. by rewrite Hm. }
      split.
      { rewrite Hused, Nat.add_1_r, <- Hlen. by rewrite used_before_snoc. }
      split.
      { change (logs (log ?l ?m ?s)) with (logs s ++ [(l, m)]).
        change (logs (stats_incr ?key ?s)) with (logs s).
        rewrite Hlog, zip_with_app by done. by rewrite <- app_assoc. }
      split.
      { change (stat (log ?l ?m ?s) ?key) with (stat s key).
        rewrite stat_incr_same, Hsm.
        generalize (stat st "matched"). intros z. lia. }
      split.
      { change (stat (log ?l ?m ?s) ?key) with (stat s key).
        rewrite stat_incr_other by done. rewrite Hsu.
        generalize (stat st "unmatched"). intros z. lia. }
      split.
      { intros k aya_row Hk Hbelow.
        apply lookup_app_Some in Hk as [Hk|[Hge Hk]].
        - pose proof (lookup_lt_Some _ _ _ Hk) as Hlt. 
          rewrite lookup_app_l by lia. apply (Hlow k aya_row Hk).
          intros n' e' Hn' Hu'. apply (Hbelow n' e' Hn').
          rewrite used_before_prefix by lia. done.
        - apply list_lookup_singleton_Some in Hk as [Hz <-].
          assert (k = length outcomes) as -> by lia.
          exfalso. apply (Qlt_not_le _ _ (Hbelow n e Hn ltac:(
            rewrite used_before_all, Hlen, <- Hused; exact Hu))). exact Ht. }
      { intros k aya_row n' e' Hk Ho.
        apply lookup_app_Some in Hk as [Hk|[Hge Hk]].
        - pose proof (lookup_lt_Some _ _ _ Hk) as Hlt.
          rewrite lookup_app_l in Ho by lia.
          rewrite used_before_prefix by lia. by apply (Hok k aya_row).
        - apply list_lookup_singleton_Some in Hk as [Hz <-].
          assert (k = length outcomes) as -> by lia.
          rewrite lookup_app_r, Nat.sub_diag in Ho by lia.
          injection Ho as <- <-.
          rewrite used_before_all, Hlen, <- Hused. done. }
    + destruct Hc as (-> & -> & Hall).
      exists (outcomes ++ [None]). cbn [fst snd].
      rewrite !length_app. cbn [length].
      split; [lia|].
      split.
      { rewrite zip_with_app by done. rewrite omap_app. simpl.
        by rewrite app_nil_r. }
      split.
      { rewrite Hused, Nat.add_1_r, <- Hlen. by rewrite used_before_snoc_none. }
      split.
      { change (logs (log ?l ?m ?s)) with (logs s ++ [(l, m)]).
        change (logs (stats_incr ?key ?s)) with (logs s).
        rewrite Hlog, zip_with_app by done. by rewrite <- app_assoc. }
      split.
      { change (stat (log ?l ?m ?s) ?key) with (stat s key).
        rewrite stat_incr_other by done. exact Hsm. }
      split.
      { change (stat (log ?l ?m ?s) ?key) with (stat s key).
        rewrite stat_incr_same, Hsu.
        generalize (stat st "unmatched"). intros z. lia. }
      split.
      { intros k aya_row Hk Hbelow.
        apply lookup_app_Some in Hk as [Hk|[Hge Hk]].
        - pose proof (lookup_lt_Some _ _ _ Hk) as Hlt.
          rewrite lookup_app_l by lia. apply (Hlow k aya_row Hk).
          intros n' e' Hn' Hu'. apply (Hbelow n' e' Hn').
          rewrite used_before_prefix by lia. done.
        - apply list_lookup_singleton_Some in Hk as [Hz <-].
          assert (k = length outcomes) as -> by lia.
          by rewrite lookup_app_r, Nat.sub_diag by lia. }
      { intros k aya_row n' e' Hk Ho.
        apply lookup_app_Some in Hk as [Hk|[Hge Hk]].
        - pose proof (lookup_lt_Some _ _ _ Hk) as Hlt.
          rewrite lookup_app_l in Ho by lia.
          rewrite used_before_prefix by lia. by apply (Hok k aya_row).
        - apply list_lookup_singleton_Some in Hk as [Hz <-].
          assert (k = length outcomes) as -> by lia.
          rewrite lookup_app_r, Nat.sub_diag in Ho by lia. discriminate. }
Qed.

End PageRun.

Lemma match_ayat_with_texts_run NFKC self ayat_df extracted_texts page_num st :
  exists outcomes : list (option (nat * ExtractedText.t)),
    let r := match_ayat_with_texts NFKC self ayat_df extracted_texts page_num st in
    let rows := page_rows ayat_df page_num in
    length outcomes = length rows
    /\ fst r = omap (outcome_match NFKC self page_num) (zip rows outcomes)
    /\ logs (snd r)
       = logs st ++ match rows with
                    | [] => [(WARNING, NoAyatOnPage page_num)]
                    | _ => zip_with (outcome_record NFKC self) rows outcomes
                    end
    /\ stat (snd r) "matched" = (stat st "matched" + Z.of_nat (length (fst r)))%Z
    /\ stat (snd r) "unmatched"
       = (stat st "unmatched" + Z.of_nat (length rows)
          - Z.of_nat (length (fst r)))%Z
    /\ (forall k aya_row,
          rows !! k = Some aya_row ->
          (forall n e, extracted_texts !! n = Some e ->
                       Z.of_nat n ∉ used_before outcomes k ->
                       (score_against NFKC self aya_row e
                        < min_similarity (AyatExtractor.config self))%Q) ->
          outcomes !! k = Some None
          /\ logs (snd r) !! (length (logs st) + k)
             = Some (WARNING, UnmatchedMsg (AyaRow.sura_no aya_row)
                                           (AyaRow.aya_no aya_row)))
    /\ (forall k aya_row n e,
          rows !! k = Some aya_row -> outcomes !! k = Some (Some (n, e)) ->
          extracted_texts !! n = Some e
          /\ (Z.of_nat n ∉ used_before outcomes k)
          /\ (min_similarity (AyatExtractor.config self)
              <= score_against NFKC self aya_row e)%Q).
Proof.
  unfold match_ayat_with_texts.
  destruct (page_rows ayat_df page_num) as [|row rows] eqn:E.
  - exists []. cbn [fst snd length zip omap zip_with].
    change (stat (log ?l ?m ?s) ?key) with (stat s key).
    split; [done|]. split; [done|]. split; [done|].
    split; [lia|]. split; [lia|].
    split; intros k aya_row; intros; by rewrite lookup_nil in *.
  - destruct (match_loop_run NFKC self page_num extracted_texts (row :: rows) st)
      as (outcomes & Hlen & Hm & _ & Hlog & Hsm & Hsu & Hlow & Hok).
    destruct (fold_left _ (row :: rows) _) as [[matches used] st'].
    cbn [fst snd] in *.
    exists outcomes.
    split; [done|]. split; [done|]. split; [done|].
    split; [done|]. split; [done|]. split; [|done].
    intros k aya_row Hk Hbelow.
    pose proof (Hlow k aya_row Hk Hbelow) as Ho. split; [done|].
    rewrite Hlog, lookup_app_r by lia.
    replace (length (logs st) + k - length (logs st)) with k by lia.
    rewrite lookup_zip_with, Hk. simpl. by rewrite Ho.
Qed.

(** C2.  Every match returned by [match_ayat_with_texts] has a similarity
    that reaches [config['min_similarity']].  A verse all of whose unused
    candidates score below the threshold adds no match and uses no fragment:
    the body of the loop counts it in [stats['unmatched']] and logs a
    warning.  So does the page matcher as a whole: what it returns, logs and
    counts is given by one outcome per verse of the page, in order, a
    fragment or nothing; the matches are those of the verses with a
    fragment, [stats['matched']] grows by their number and
    [stats['unmatched']] by the number of the other verses, the log receives
    one record per verse, and a verse whose candidates not used by the
    verses before it all score below the threshold has no fragment, hence no
    match, and its record in the returned log is the warning that reports
    it unmatched. *)
Theorem matched_similarity_reaches_threshold
    (NFKC : str -> str) (self : AyatExtractor.t) (ayat_df : list AyaRow.t)
    (extracted_texts : list ExtractedText.t) (page_num : Z) (st : State) :
  Forall (fun m => (min_similarity (AyatExtractor.config self)
                    <= MatchedAyah.similarity m)%Q)
         (fst (match_ayat_with_texts NFKC self ayat_df extracted_texts page_num st))
  /\ (forall (aya_row : AyaRow.t) (matches : list MatchedAyah.t)
             (used_texts : gset Z) (st0 : State),
        (forall n e, extracted_texts !! n = Some e ->
                     Z.of_nat n ∉ used_texts ->
                     (score_against NFKC self aya_row e
                      < min_similarity (AyatExtractor.config self))%Q) ->
        match_aya NFKC self page_num extracted_texts (matches, used_texts, st0) aya_row
        = (matches, used_texts,
           log WARNING (UnmatchedMsg (AyaRow.sura_no aya_row) (AyaRow.aya_no aya_row))
               (stats_incr "unmatched" st0)))
  /\ exists outcomes : list (option (nat * ExtractedText.t)),
       let r := match_ayat_with_texts NFKC self ayat_df extracted_texts
                                      page_num st in
       let rows := page_rows ayat_df page_num in
       length outcomes = length rows
       /\ fst r = omap (outcome_match NFKC self page_num) (zip rows outcomes)
       /\ logs (snd r)
          = logs st ++ match rows with
                       | [] => [(WARNING, NoAyatOnPage page_num)]
                       | _ => zip_with (outcome_record NFKC self) rows outcomes
                       end
       /\ stat (snd r) "matched"
          = (stat st "matched" + Z.of_nat (length (fst r)))%Z
       /\ stat (snd r) "unmatched"
          = (stat st "unmatched" + Z.of_nat (length rows)
             - Z.of_nat (length (fst r)))%Z
       /\ (forall k aya_row,
             rows !! k = Some aya_row ->
             (forall n e, extracted_texts !! n = Some e ->
                          Z.of_nat n ∉ used_before outcomes k ->
                          (score_against NFKC self aya_row e
                           < min_similarity (AyatExtractor.config self))%Q) ->
             outcomes !! k = Some None
             /\ logs (snd r) !! (length (logs st) + k)
                = Some (WARNING, UnmatchedMsg (AyaRow.sura_no aya_row)
                                              (AyaRow.aya_no aya_row)))
       /\ (forall k aya_row n e,
             rows !! k = Some aya_row -> outcomes !! k = Some (Some (n, e)) ->
             extracted_texts !! n = Some e
             /\ (Z.of_nat n ∉ used_before outcomes k)
             /\ (min_similarity (AyatExtractor.config self)
                 <= score_against NFKC self aya_row e)%Q).
Proof.
  split; [|split].
  - destruct (match_ayat_with_texts_trace NFKC self ayat_df extracted_texts page_num st)
      as (tr & used & Hm & _ & _ & _ & Hall).
    rewrite Hm. apply Forall_map. eapply Forall_impl; [exact Hall|].
    intros c (_ & Ht & _). exact Ht.
  - intros aya_row matches used_texts st0 Hlow.
    unfold match_aya.
    pose proof (best_candidate_ok NFKC self aya_row extracted_texts used_texts) as Hc.
    destruct (best_candidate _ _ _ _ _) as [[[e|] s] i]; simpl in Hc; [|done].
    destruct Hc as (n & -> & Hn & Hu & -> & Ht & _).
    specialize (Hlow n e Hn Hu). exfalso. by apply (Qlt_not_le _ _ Hlow).
  - apply match_ayat_with_texts_run.
Qed.

(** On a page whose only verse is ["ab"], with the threshold 0.8 and the
    single fragment ["xy"], which scores below it: the verse is counted as
    unmatched by the body of the loop. *)
Lemma matched_similarity_reaches_threshold_witness :
  match_aya NFKC_of_normalized example_extractor 1 [example_fragment text_xy]
            ([], ∅, empty_state) example_row
  = ([], ∅, log WARNING (UnmatchedMsg 1 1) (stats_incr "unmatched" empty_state)).
Proof.
  apply (proj1 (proj2 (matched_similarity_reaches_threshold NFKC_of_normalized
                  example_extractor [] [example_fragment text_xy] 1 empty_state))).
  intros n e Hn _. destruct n as [|n]; [|destruct n; discriminate].
  injection Hn as <-. vm_compute. reflexivity.
Defined.

(** The same page through the page matcher: no match is returned, the
    returned counters hold one unmatched verse and the returned log ends
    with the warning for verse 1:1. *)
Example unmatched_verse_is_reported_by_the_page_matcher :
  match_ayat_with_texts NFKC_of_normalized example_extractor [example_row]
                        [example_fragment text_xy] 1 empty_state
  = ([], {| stats := {["unmatched" := 1%Z]};
            logs := [(WARNING, UnmatchedMsg 1 1)] |}).
Proof. vm_compute. reflexivity. Qed.

(** C3.  The matches of a page come from distinct verses of the page, taken
    in the order of the table, and from distinct fragments: there is a list
    of (verse, fragment index, fragment) entries, with the verses a
    subsequence of the page's verses and no index repeated, of which the
    matches are the images.  Hence there are never more matches than verses
    on the page. *)
Theorem matches_are_one_to_one
    (NFKC : str -> str) (self : AyatExtractor.t) (ayat_df : list AyaRow.t)
    (extracted_texts : list ExtractedText.t) (page_num : Z) (st : State) :
  length (fst (match_ayat_with_texts NFKC self ayat_df extracted_texts page_num st))
  <= length (page_rows ayat_df page_num)
  /\ exists tr : trace,
       fst (match_ayat_with_texts NFKC self ayat_df extracted_texts page_num st)
       = map (match_of NFKC self page_num) tr
       /\ sublist (map trace_row tr) (page_rows ayat_df page_num)
       /\ NoDup (map trace_idx tr)
       /\ Forall (fun c => extracted_texts !! trace_idx c = Some (trace_text c)) tr.
Proof.
  destruct (match_ayat_with_texts_trace NFKC self ayat_df extracted_texts page_num st)
    as (tr & used & Hm & Hsub & Hnd & _ & Hall).
  split.
  - rewrite Hm, length_map. apply sublist_length in Hsub.
    by rewrite length_map in Hsub.
  - exists tr. repeat split; try done.
    eapply Forall_impl; [exact Hall|]. by intros c (H & _).
Qed.

(** C10.  Every match is built from a fragment of the input whose text and
    box it carries, and its confidence is that fragment's confidence times
    its similarity; when the fragment's confidence is at most 1, the
    confidence of the match is at most its similarity. *)
Theorem matched_confidence_is_product
    (NFKC : str -> str) (self : AyatExtractor.t) (ayat_df : list AyaRow.t)
    (extracted_texts : list ExtractedText.t) (page_num : Z) (st : State) :
  Forall (fun m =>
            exists (n : nat) (e : ExtractedText.t),
              extracted_texts !! n = Some e
              /\ MatchedAyah.text_extracted m = ExtractedText.text e
              /\ MatchedAyah.bbox m = ExtractedText.bbox e
              /\ MatchedAyah.confidence m
                 = (ExtractedText.confidence e * MatchedAyah.similarity m)%Q
              /\ ((ExtractedText.confidence e <= 1)%Q ->
                  (MatchedAyah.confidence m <= MatchedAyah.similarity m)%Q))
         (fst (match_ayat_with_texts NFKC self ayat_df extracted_texts page_num st)).
Proof.
  destruct (match_ayat_with_texts_trace NFKC self ayat_df extracted_texts page_num st)
    as (tr & used & Hm & _ & _ & _ & Hall).
  rewrite Hm. apply Forall_map. eapply Forall_impl; [exact Hall|].
  intros [[row n] e] (Hn & _ & Hp). simpl in *.
  exists n, e. repeat split; try done.
  intros Hle. unfold match_of, trace_row, trace_text. simpl.
  set (s := score_against NFKC self row e) in *.
  assert (ExtractedText.confidence e * s <= 1 * s)%Q as H.
  { apply Qmult_le_compat_r; [done|]. by apply Qlt_le_weak. }
  by rewrite Qmult_1_l in H.
Qed.

(** ** Scores lie between 0 and 1 *)

Lemma Qnat_nonneg n : (0 <= Qnat n)%Q.
Proof. unfold Qnat. rewrite <- (Zle_Qle 0). lia. Qed.

Lemma Qnat_pos n : 0 < n -> (0 < Qnat n)%Q.
Proof. intros H. unfold Qnat. rewrite <- (Zlt_Qlt 0). lia. Qed.

Lemma Qnat_le n m : n <= m -> (Qnat n <= Qnat m)%Q.
Proof. intros H. unfold Qnat. rewrite <- Zle_Qle. lia. Qed.

Lemma Qnat_div_nonneg n m : (0 <= Qnat n / Qnat m)%Q.
Proof.
  destruct m as [|m].
  - unfold Qdiv. change (/ Qnat 0)%Q with 0%Q. rewrite Qmult_0_r. apply Qle_refl.
  - apply Qle_shift_div_l; [apply Qnat_pos; lia|].
    rewrite Qmult_0_l. apply Qnat_nonneg.
Qed.

Lemma Qnat_div_le_1 n m : n <= m -> (Qnat n / Qnat m <= 1)%Q.
Proof.
  intros H. destruct m as [|m].
  - unfold Qdiv. change (/ Qnat 0)%Q with 0%Q. rewrite Qmult_0_r. discriminate.
  - apply Qle_shift_div_r; [apply Qnat_pos; lia|].
    rewrite Qmult_1_l. by apply Qnat_le.
Qed.

Lemma Qnat_div_diag n : 0 < n -> (Qnat n / Qnat n == 1)%Q.
Proof.
  intros H. apply Qdiv_mult_l_inv || idtac.
  unfold Qdiv. apply Qmult_inv_r. intros E.
  pose proof (Qnat_pos n H) as Hp. rewrite E in Hp. by apply Qlt_irrefl in Hp.
Qed.

(** *** [Levenshtein.distance] *)

Lemma distance_nil_r a : Levenshtein.distance a [] = length a.
Proof. by destruct a. Qed.

Lemma distance_cons x a y b :
  Levenshtein.distance (x :: a) (y :: b)
  = Nat.min (Nat.min (S (Levenshtein.distance a (y :: b)))
                     (S (Levenshtein.distance (x :: a) b)))
            ((if (x =? y)%Z then 0 else 1) + Levenshtein.distance a b).
Proof. reflexivity. Qed.

Lemma distance_le_max a b :
  Levenshtein.distance a b <= Nat.max (length a) (length b).
Proof.
  revert b. induction a as [|x a IH]; intros b.
  - simpl. lia.
  - destruct b as [|y b].
    + rewrite distance_nil_r. lia.
    + rewrite distance_cons. specialize (IH b). simpl length.
      destruct (x =? y)%Z; lia.
Qed.

Lemma distance_diag a : Levenshtein.distance a a = 0.
Proof.
  induction a as [|x a IH]; [done|].
  rewrite distance_cons, IH, Z.eqb_refl. lia.
Qed.

(** *** The components of the score *)

Lemma ratio_nonneg a b : (0 <= difflib.ratio a b)%Q.
Proof.
  unfold difflib.ratio, difflib._calculate_ratio.
  destruct (0 <? _); [|discriminate].
  unfold Qdiv. rewrite <- Qmult_assoc.
  apply Qmult_le_0_compat; [discriminate|]. apply Qnat_div_nonneg.
Qed.

Lemma levenshtein_similarity_range text1 text2 :
  (0 <= _levenshtein_similarity text1 text2 <= 1)%Q.
Proof.
  unfold _levenshtein_similarity. destruct (0 <? _); [|split; discriminate].
  pose proof (Qnat_div_nonneg (Levenshtein.distance text1 text2)
                (Nat.max (length text1) (length text2))).
  pose proof (Qnat_div_le_1 _ _ (distance_le_max text1 text2)).
  split; lra.
Qed.

Lemma jaccard_range `{Countable A} (s1 s2 : gset A) :
  (0 <= jaccard s1 s2 <= 1)%Q.
Proof.
  unfold jaccard. destruct (0 <? _); [|split; discriminate].
  split; [apply Qnat_div_nonneg|].
  apply Qnat_div_le_1. apply subseteq_size.
  etrans; [apply intersection_subseteq_l|apply union_subseteq_l].
Qed.

Lemma symbols_bonus_range self text1 text2 :
  (0 <= _calculate_symbols_bonus self text1 text2 <= 1)%Q.
Proof.
  unfold _calculate_symbols_bonus.
  destruct (font_manager self); [|split; discriminate].
  destruct (_ && _); [split; discriminate|].
  destruct (_ && _); [apply jaccard_range|split; discriminate].
Qed.

Lemma verse_number_bonus_cases text1 text2 :
  _calculate_verse_number_bonus text1 text2 = 0%Q
  \/ _calculate_verse_number_bonus text1 text2 = 0.5%Q
  \/ _calculate_verse_number_bonus text1 text2 = 1%Q.
Proof.
  unfold _calculate_verse_number_bonus.
  destruct (extract_verse_numbers text1); [by left|].
  destruct (extract_verse_numbers text2); [by left|].
  destruct (bool_decide _); [by right; right|].
  destruct (bool_decide _); [by right; left|by left].
Qed.

Lemma verse_number_bonus_range text1 text2 :
  (0 <= _calculate_verse_number_bonus text1 text2 <= 1)%Q.
Proof.
  destruct (verse_number_bonus_cases text1 text2) as [-> | [-> | ->]];
    split; discriminate.
Qed.

Lemma guarded_jaccard_range `{Countable A} (b : bool) (s1 s2 : gset A) :
  (0 <= (if b then jaccard s1 s2 else 0) <= 1)%Q.
Proof. destruct b; [apply jaccard_range|split; discriminate]. Qed.

Lemma advanced_weights_range (w c l s : Q) :
  (0 <= w <= 1)%Q -> (0 <= c <= 1)%Q -> (0 <= l <= 1)%Q -> (0 <= s <= 1)%Q ->
  (0 <= w * 0.4 + c * 0.3 + l * 0.2 + s * 0.1 <= 1)%Q.
Proof. intros. split; lra. Qed.

Lemma advanced_similarity_range self orig1 orig2 clean1 clean2 :
  (0 <= _advanced_similarity self orig1 orig2 clean1 clean2 <= 1)%Q.
Proof.
  unfold _advanced_similarity. cbv zeta.
  apply advanced_weights_range.
  - apply guarded_jaccard_range.
  - apply guarded_jaccard_range.
  - destruct (0 <? _); [|split; discriminate].
    split; [apply Qnat_div_nonneg|]. apply Qnat_div_le_1. lia.
  - apply symbols_bonus_range.
Qed.

Lemma Qmin_1_range x : (0 <= x)%Q -> (0 <= Qmin x 1 <= 1)%Q.
Proof.
  intros H. split; [|apply Q.le_min_r].
  apply Q.min_glb; [done|discriminate].
Qed.

Lemma combined_nonneg self orig1 orig2 clean1 clean2 :
  (0 <= _simple_similarity clean1 clean2 * 0.3
        + _levenshtein_similarity clean1 clean2 * 0.3
        + _advanced_similarity self orig1 orig2 clean1 clean2 * 0.3
        + _calculate_verse_number_bonus orig1 orig2 * 0.1)%Q.
Proof.
  pose proof (ratio_nonneg clean1 clean2) as H1.
  pose proof (levenshtein_similarity_range clean1 clean2) as H2.
  pose proof (advanced_similarity_range self orig1 orig2 clean1 clean2) as H3.
  pose proof (verse_number_bonus_range orig1 orig2) as H4.
  unfold _simple_similarity. lra.
Qed.

Lemma combined_similarity_range self orig1 orig2 clean1 clean2 :
  (0 <= _combined_similarity self orig1 orig2 clean1 clean2 <= 1)%Q.
Proof. apply Qmin_1_range, combined_nonneg. Qed.

Lemma text_similarity_combined_range NFKC self text1 text2 :
  (0 <= text_similarity NFKC self text1 text2 "combined" <= 1)%Q.
Proof.
  unfold text_similarity.
  destruct text1; [split; discriminate|].
  destruct text2; [split; discriminate|].
  replace (bool_decide ("combined" = "simple")) with false by (by vm_compute).
  replace (bool_decide ("combined" = "levenshtein")) with false by (by vm_compute).
  replace (bool_decide ("combined" = "advanced")) with false by (by vm_compute).
  replace (bool_decide ("combined" = "combined")) with true by (by vm_compute).
  apply combined_similarity_range.
Qed.

(** C5.  The combined score of any two texts, on whatever cleaned forms, lies
    between 0 and 1, and so does the final score of the page matcher, which
    adds the verse-number bonus (0.15) and the symbols bonus (at most 0.1) to
    it before capping at 1. *)
Theorem scores_lie_in_unit_interval
    (NFKC : str -> str) (self : AdvancedTextProcessor)
    (extractor : AyatExtractor.t) :
  (forall orig1 orig2 clean1 clean2 : str,
     (0 <= _combined_similarity self orig1 orig2 clean1 clean2 <= 1)%Q)
  /\ (forall text1 text2 : str,
        (0 <= text_similarity NFKC self text1 text2 "combined" <= 1)%Q)
  /\ (forall (ref_text ref_clean extracted_text : str) (aya_number : Z),
        (0 <= _calculate_match_score NFKC extractor ref_text ref_clean
                extracted_text aya_number <= 1)%Q).
Proof.
  split; [|split].
  - apply combined_similarity_range.
  - apply text_similarity_combined_range.
  - intros ref_text ref_clean extracted_text aya_number.
    unfold _calculate_match_score. cbv zeta. apply Qmin_1_range.
    pose proof (text_similarity_combined_range NFKC
                  (AyatExtractor.text_processor extractor) ref_text extracted_text)
      as Hb.
    set (vb := if existsb _ _ then _ else 0%Q).
    assert (0 <= vb)%Q as Hv by (subst vb; destruct (existsb _ _); discriminate).
    set (sb := match AyatExtractor.font_manager extractor with
               | Some _ => _ | None => 0%Q end).
    assert (0 <= sb)%Q as Hs.
    { subst sb. destruct (AyatExtractor.font_manager extractor); [|discriminate].
      destruct (_ && _); [|discriminate].
      destruct (0 <? _); [|discriminate].
      pose proof (Qnat_div_nonneg
        (size (symbols_of a ref_text ∩ symbols_of a extracted_text))
        (size (symbols_of a ref_text ∪ symbols_of a extracted_text))).
      lra. }
    lra.
Qed.

(** ** [difflib]: a sequence matches itself entirely *)

Lemma indices_from_spec pos x b j :
  j ∈ difflib.indices_from pos x b <-> pos <= j /\ b !! (j - pos) = Some x.
Proof.
  revert pos. induction b as [|y b IH]; intros pos; simpl.
  - split; [intros H; inversion H|]. intros [_ H]. by destruct (j - pos).
  - destruct (Z.eqb_spec y x) as [->|Hne].
    + rewrite elem_of_cons, IH. split.
      * intros [->|[Hle Hj]].
        -- split; [lia|]. by rewrite Nat.sub_diag.
        -- split; [lia|]. replace (j - pos) with (S (j - S pos)) by lia. done.
      * intros [Hle Hj]. destruct (decide (j = pos)) as [->|Hn]; [by left|].
        right. split; [lia|].
        replace (j - pos) with (S (j - S pos)) in Hj by lia. done.
    + rewrite IH. split.
      * intros [Hle Hj]. split; [lia|].
        replace (j - pos) with (S (j - S pos)) by lia. done.
      * intros [Hle Hj]. destruct (decide (j = pos)) as [->|Hn].
        -- rewrite Nat.sub_diag in Hj. simpl in Hj. congruence.
        -- split; [lia|].
           replace (j - pos) with (S (j - S pos)) in Hj by lia. done.
Qed.

Lemma indices_from_sorted pos x b :
  StronglySorted lt (difflib.indices_from pos x b).
Proof.
  revert pos. induction b as [|y b IH]; intros pos; simpl; [constructor|].
  destruct (y =? x)%Z; [|apply IH].
  constructor; [apply IH|].
  apply Forall_forall. intros j Hj. apply indices_from_spec in Hj. lia.
Qed.

Section SelfMatch.

Variable s : str.
Variables lo hi : nat.
Hypothesis Hhi : hi <= length s.

Lemma diag_unfold i :
  diag s lo i = match s !! i with
           | Some x =>
               if difflib.bpopular s x || (i <? lo) then 0
               else S (match i with O => 0 | S i' => diag s lo i' end)
           | None => 0
           end.
Proof. by destruct i. Qed.

Lemma diag_below i : i < lo -> diag s lo i = 0.
Proof.
  intros H. rewrite diag_unfold. destruct (s !! i); [|done].
  replace (i <? lo) with true by (symmetry; apply Nat.ltb_lt; lia).
  by rewrite orb_true_r.
Qed.

Lemma diag_bound i : diag s lo i <= i + 1 - lo.
Proof.
  induction i as [|i IH]; rewrite diag_unfold.
  - destruct (s !! 0); [|lia]. destruct (_ || _) eqn:E; [lia|].
    apply orb_false_iff in E as [_ E]. apply Nat.ltb_ge in E. lia.
  - destruct (s !! S i); [|lia]. destruct (_ || _) eqn:E; [lia|].
    apply orb_false_iff in E as [_ E]. apply Nat.ltb_ge in E.
    destruct (decide (i < lo)) as [Hi|Hi]; [rewrite (diag_below _ Hi)|]; lia.
Qed.

Lemma diag_indexed i x :
  s !! i = Some x -> difflib.bpopular s x = false -> lo <= i ->
  diag s lo i = S (diag_pred s lo i).
Proof.
  intros Hx Hp Hi. rewrite diag_unfold, Hx, Hp.
  replace (i <? lo) with false by (symmetry; apply Nat.ltb_ge; lia).
  done.
Qed.

Lemma diag_popular i x :
  s !! i = Some x -> difflib.bpopular s x = true -> diag s lo i = 0.
Proof. intros Hx Hp. by rewrite diag_unfold, Hx, Hp. Qed.

Lemma diag_pred_below i : i <= lo -> diag_pred s lo i = 0.
Proof. destruct i as [|i']; [done|]. intros H. apply diag_below. lia. Qed.

Lemma j2len_get_pred_empty j : difflib.j2len_get_pred ∅ j = 0.
Proof. by destruct j. Qed.

Lemma prev_diag i prev :
  prev_ok s lo hi i prev -> difflib.j2len_get_pred prev i = diag_pred s lo i.
Proof.
  intros [[-> ->]|(i' & -> & Hi' & _ & Hd)].
  - by rewrite j2len_get_pred_empty, diag_pred_below.
  - simpl. exact Hd.
Qed.

Lemma prev_left i prev j x :
  prev_ok s lo hi i prev -> lo <= j < i ->
  s !! j = Some x -> difflib.bpopular s x = false ->
  difflib.j2len_get_pred prev j + 1 <= diag s lo j.
Proof.
  intros Hprev Hj Hx Hp. rewrite (diag_indexed j x) by (done || lia).
  destruct j as [|j']; simpl; [lia|].
  destruct Hprev as [[-> ->]|(i' & -> & Hi' & Hrow & _)].
  - rewrite lookup_empty. simpl. lia.
  - destruct (prev !! j') as [v|] eqn:E; simpl; [|lia].
    destruct (Hrow j' v E) as (_ & _ & H & _). specialize (H ltac:(lia)). lia.
Qed.

Lemma prev_right i prev j x :
  prev_ok s lo hi i prev -> lo <= i < j ->
  s !! i = Some x -> difflib.bpopular s x = false ->
  difflib.j2len_get_pred prev j + 1 <= diag s lo i.
Proof.
  intros Hprev Hj Hx Hp. rewrite (diag_indexed i x) by (done || lia).
  destruct j as [|j']; simpl; [lia|].
  destruct Hprev as [[-> ->]|(i' & -> & Hi' & Hrow & _)].
  - rewrite lookup_empty. simpl. lia.
  - destruct (prev !! j') as [v|] eqn:E; simpl; [|lia].
    destruct (Hrow j' v E) as (_ & _ & _ & H). specialize (H ltac:(lia)).
    simpl. lia.
Qed.

Lemma scan_row_ok i x prev js :
  lo <= i < hi -> s !! i = Some x -> difflib.bpopular s x = false ->
  prev_ok s lo hi i prev ->
  StronglySorted lt js ->
  (forall j, j ∈ js -> s !! j = Some x) ->
  forall m new best,
    within_ok s lo hi i m new ->
    best_ok s lo i (bool_decide (i < m)) best ->
    (forall j, j ∈ js -> m <= j) ->
    (i < m \/ i ∈ js) ->
    row_ok s lo hi i (fst (difflib.scan_row i lo hi prev js new best))
    /\ best_ok s lo i true (snd (difflib.scan_row i lo hi prev js new best)).
Proof.
  intros Hi Hx Hp Hprev Hsorted Hjs.
  induction js as [|j js IH]; intros m new best [Hnew Hdiag] Hbest Hm Hin.
  - simpl. destruct Hin as [Hin|Hin]; [|inversion Hin].
    rewrite bool_decide_eq_true_2 in Hbest by done.
    split; [|done]. split.
    + intros j v Hv. destruct (Hnew j v Hv) as (_ & ? & ? & ? & ?). done.
    + by rewrite (Hdiag Hin).
  - apply StronglySorted_inv in Hsorted as [Hsorted Hlt].
    rewrite Forall_forall in Hlt.
    assert (s !! j = Some x) as Hxj by (apply Hjs; by left).
    assert (m <= j) as Hmj by (apply Hm; by left).
    simpl. destruct (Nat.ltb_spec j lo) as [Hjlo|Hjlo].
    { (* below the window: skipped *)
      apply (IH Hsorted (fun j' H => Hjs j' (list_elem_of_further _ _ _ H)) (S j)).
      - split.
        + intros j' v Hv. destruct (Hnew j' v Hv) as (? & ? & ? & ? & ?).
          repeat split; try done; lia.
        + intros Hij. apply Hdiag. lia.
      - destruct Hbest as (p & k & -> & Hp1 & Hp2 & Hp3 & Hp4 & Hp5).
        exists p, k. repeat split; try done.
        * intros Hd. apply bool_decide_eq_true in Hd. lia.
        * intros Hd. apply bool_decide_eq_false in Hd. apply Hp5.
          apply bool_decide_eq_false. lia.
      - intros j' Hj'. specialize (Hlt j' Hj'). lia.
      - destruct Hin as [Hin|Hin]; [left; lia|].
        apply elem_of_cons in Hin as [->|Hin]; [lia|by right]. }
    destruct (Nat.leb_spec hi j) as [Hjhi|Hjhi].
    { (* past the window: the loop ends *)
      simpl. assert (i < m) as Him.
      { destruct Hin as [Hin|Hin]; [done|].
        apply elem_of_cons in Hin as [->|Hin]; [lia|].
        specialize (Hlt i Hin). lia. }
      rewrite bool_decide_eq_true_2 in Hbest by done.
      split; [|done]. split.
      - intros j' v Hv. destruct (Hnew j' v Hv) as (_ & ? & ? & ? & ?). done.
      - by rewrite (Hdiag Him). }
    (* inside the window *)
    assert (i < m \/ i = j \/ (j < i /\ i ∈ js)) as Hcase.
    { destruct Hin as [Hin|Hin]; [by left|].
      apply elem_of_cons in Hin as [->|Hin]; [by right; left|].
      right; right. split; [by apply Hlt|done]. }
    set (k := difflib.j2len_get_pred prev j + 1).
    destruct Hbest as (p & bk & -> & Hp1 & Hp2 & Hp3 & Hp4 & Hp5).
    assert (1 <= k) as Hk1 by (unfold k; lia).
    assert (j <= i -> k <= diag s lo j) as HkL.
    { intros Hji. destruct (decide (j = i)) as [->|Hne].
      - unfold k. rewrite (prev_diag _ _ Hprev).
        rewrite (diag_indexed i x) by (done || lia). lia.
      - apply (prev_left i prev j x); try done. lia. }
    assert (i <= j -> k <= diag s lo i) as HkR.
    { intros Hji. destruct (decide (j = i)) as [->|Hne].
      - unfold k. rewrite (prev_diag _ _ Hprev).
        rewrite (diag_indexed i x) by (done || lia). lia.
      - apply (prev_right i prev j x); try done. lia. }
    assert (j = i -> k = diag s lo i) as HkD.
    { intros ->. unfold k. rewrite (prev_diag _ _ Hprev).
      rewrite (diag_indexed i x) by (done || lia). lia. }
    apply (IH Hsorted (fun j' H => Hjs j' (list_elem_of_further _ _ _ H)) (S j)).
    + split.
      * intros j' v Hv. destruct (decide (j' = j)) as [->|Hne].
        -- rewrite lookup_insert_eq in Hv. injection Hv as <-.
           repeat split; try done; lia.
        -- rewrite lookup_insert_ne in Hv by done.
           destruct (Hnew j' v Hv) as (? & ? & ? & ? & ?).
           repeat split; try done; lia.
      * intros Hij. destruct (decide (i = j)) as [->|Hne].
        -- rewrite lookup_insert_eq. f_equal. by apply HkD.
        -- rewrite lookup_insert_ne by done. apply Hdiag.
           destruct Hcase as [?|[?|[? ?]]]; lia.
    + unfold difflib.size. cbn [snd].
      destruct (Nat.ltb_spec bk k) as [Hup|Hup].
      * (* a longer block: it can only be the diagonal entry *)
        assert (j = i) as ->.
        { destruct (Nat.lt_trichotomy j i) as [Hlt'|[Heq|Hgt]]; [|done|].
          - specialize (Hp3 j ltac:(lia)). specialize (HkL ltac:(lia)). lia.
          - assert (i < m) as Him.
            { destruct Hin as [Hin|Hin]; [done|].
              apply elem_of_cons in Hin as [->|Hin]; [lia|].
              specialize (Hlt i Hin). lia. }
            specialize (Hp4 (bool_decide_eq_true_2 _ Him)).
            specialize (HkR ltac:(lia)). lia. }
        pose proof (diag_bound i) as Hb. specialize (HkD eq_refl).
        exists (i + 1 - k), k.
        split; [done|]. split; [lia|]. split; [lia|]. split; [|split].
        -- intros j' Hj'. specialize (Hp3 j' Hj'). lia.
        -- intros _. lia.
        -- intros Hd. apply bool_decide_eq_false in Hd. lia.
      * exists p, bk.
        split; [done|]. split; [done|]. split; [done|]. split; [done|]. split.
        -- intros Hd. apply bool_decide_eq_true in Hd.
           destruct Hcase as [Him|[->|[Hji _]]]; [|by rewrite <- HkD|lia].
           apply Hp4. by apply bool_decide_eq_true_2.
        -- intros Hd. apply bool_decide_eq_false in Hd. apply Hp5.
           apply bool_decide_eq_false. lia.
    + intros j' Hj'. specialize (Hlt j' Hj'). lia.
    + destruct Hin as [Hin|Hin]; [left; lia|].
      apply elem_of_cons in Hin as [->|Hin]; [left; lia|by right].
Qed.


Lemma scan_rows_ok n :
  forall i prev best,
    lo <= i -> i + n = hi -> prev_ok s lo hi i prev -> start_ok s lo i best ->
    start_ok s lo hi (difflib.scan_rows s s lo hi (seq i n) prev best).
Proof.
  induction n as [|n IH]; intros i prev best Hi Hn Hprev Hbest.
  - simpl. replace hi with i by lia. done.
  - simpl. destruct (s !! i) as [x|] eqn:Hx.
    2:{ apply lookup_ge_None in Hx. lia. }
    destruct (difflib.scan_row i lo hi prev (difflib.b2j_get s x) ∅ best)
      as [new best'] eqn:E.
    assert (row_ok s lo hi i new /\ best_ok s lo i true best') as [Hrow Hbest'].
    { unfold difflib.b2j_get in E.
      destruct (difflib.bpopular s x) eqn:Hp.
      - simpl in E. injection E as <- <-. split.
        + split; [intros j v Hv; by rewrite lookup_empty in Hv|].
          rewrite lookup_empty. simpl. symmetry. by eapply diag_popular.
        + destruct Hbest as (p & k & -> & Hp1 & Hp2 & Hp3).
          exists p, k. repeat split; try done; try lia.
          intros _. rewrite (diag_popular i x) by done. lia.
      - pose proof (scan_row_ok i x prev (difflib.indices_from 0 x s)
                      ltac:(lia) Hx Hp Hprev (indices_from_sorted 0 x s)) as H.
        specialize (H (fun j Hj => ltac:(
          apply indices_from_spec in Hj as [_ Hj];
          by rewrite Nat.sub_0_r in Hj))).
        specialize (H 0 ∅ best).
        rewrite E in H. apply H.
        + split; [intros j v Hv; by rewrite lookup_empty in Hv|lia].
        + destruct Hbest as (p & k & -> & Hp1 & Hp2 & Hp3).
          exists p, k. repeat split; try done; try lia.
        + intros j _. lia.
        + right. apply indices_from_spec. split; [lia|].
          by rewrite Nat.sub_0_r. }
    apply (IH (S i)); [lia|lia| |].
    + right. exists i. split; [done|]. split; [lia|]. exact Hrow.
    + destruct Hbest' as (p & k & -> & Hp1 & Hp2 & Hp3 & Hp4 & _).
      exists p, k. repeat split; try done; try lia.
      intros j Hj. destruct (decide (j = i)) as [->|Hne].
      * by apply Hp4.
      * apply Hp3. lia.
Qed.

Lemma extend_left_diag n :
  forall p k, p <= length s -> p - lo = n -> lo <= p ->
    difflib.extend_left s s lo n (p, p, k) = (lo, lo, k + n).
Proof.
  induction n as [|n IH]; intros p k Hp Hn Hlo.
  - simpl. replace p with lo by lia. by rewrite Nat.add_0_r.
  - simpl. replace (lo <? p) with true by (symmetry; apply Nat.ltb_lt; lia).
    rewrite bool_decide_eq_true_2.
    2:{ split; [|done]. apply lookup_lt_is_Some. lia. }
    simpl. rewrite IH by lia. f_equal. lia.
Qed.

Lemma extend_right_diag n :
  forall k, lo + k + n = hi ->
    difflib.extend_right s s hi n (lo, lo, k) = (lo, lo, k + n).
Proof.
  induction n as [|n IH]; intros k Hn.
  - simpl. by rewrite Nat.add_0_r.
  - simpl. replace (lo + k <? hi) with true by (symmetry; apply Nat.ltb_lt; lia).
    rewrite bool_decide_eq_true_2.
    2:{ split; [|done]. apply lookup_lt_is_Some. lia. }
    simpl. rewrite IH by lia. f_equal. lia.
Qed.

(** On the same window of the same sequence, the longest match is the whole
    window. *)
Lemma find_longest_match_self :
  lo <= hi ->
  difflib.find_longest_match s s lo hi lo hi = (lo, lo, hi - lo).
Proof.
  intros Hlo. unfold difflib.find_longest_match.
  pose proof (scan_rows_ok (hi - lo) lo ∅ (lo, lo, 0) ltac:(lia) ltac:(lia)) as H.
  destruct H as (p & k & -> & Hp1 & Hp2 & _).
  { by left. }
  { exists lo, 0. repeat split; try done; lia. }
  cbn [fst snd]. rewrite (extend_left_diag (p - lo)) by lia.
  unfold difflib.size. cbn [fst snd].
  rewrite (extend_right_diag (hi - (lo + (k + (p - lo))))) by lia.
  f_equal. lia.
Qed.

End SelfMatch.

Lemma matches_self (s : str) : difflib.matches s s = length s.
Proof.
  unfold difflib.matches, difflib.get_matching_blocks.
  replace (2 * length s + 1) with (S (2 * length s)) by lia.
  cbn [difflib.matching_loop].
  rewrite (find_longest_match_self s 0 (length s)) by lia.
  rewrite Nat.sub_0_r.
  destruct (Nat.eqb_spec (length s) 0) as [E|E].
  - rewrite E. by destruct (2 * 0).
  - rewrite Nat.ltb_irrefl. cbn [andb].
    replace (0 + length s <? length s) with false
      by (symmetry; apply Nat.ltb_ge; lia).
    cbn [andb app].
    assert (forall fuel, difflib.matching_loop s s fuel [] [(0, 0, length s)]
                         = [(0, 0, length s)]) as -> by (by intros []).
    unfold difflib.size. simpl. lia.
Qed.

Lemma ratio_self (s : str) : s <> [] -> (difflib.ratio s s == 1)%Q.
Proof.
  intros H. unfold difflib.ratio, difflib._calculate_ratio.
  rewrite matches_self.
  assert (0 < length s) as Hlen by (destruct s; [done|simpl; lia]).
  replace (0 <? length s + length s) with true
    by (symmetry; apply Nat.ltb_lt; lia).
  unfold Qnat. rewrite Nat2Z.inj_add, inject_Z_plus.
  assert (~ inject_Z (Z.of_nat (length s)) == 0)%Q as Hnz.
  { intros E. assert (0 < inject_Z (Z.of_nat (length s)))%Q as Hpos
      by (rewrite <- (Zlt_Qlt 0); lia).
    rewrite E in Hpos. by apply Qlt_irrefl in Hpos. }
  field. intros E. apply Hnz. lra.
Qed.

(** ** [difflib]: the loop of [get_matching_blocks] ends within its fuel *)

Section Bounds.

Variables a b : str.
Variables alo ahi blo bhi : nat.

Lemma scan_row_bounded i prev js :
  alo <= i -> row_bounded alo i prev ->
  forall new best,
    row_bounded alo (S i) new -> best_bounded alo (S i) best ->
    row_bounded alo (S i) (fst (difflib.scan_row i blo bhi prev js new best))
    /\ best_bounded alo (S i) (snd (difflib.scan_row i blo bhi prev js new best)).
Proof.
  intros Hi Hprev. induction js as [|j js IH]; intros new best Hnew Hbest.
  - done.
  - simpl. destruct (j <? blo); [by apply IH|].
    destruct (bhi <=? j); [done|].
    assert (difflib.j2len_get_pred prev j <= i - alo) as Hk.
    { destruct j as [|j']; simpl; [lia|].
      destruct (prev !! j') as [v|] eqn:E; simpl; [|lia]. by apply (Hprev j'). }
    apply IH.
    + intros j' v Hv. destruct (decide (j' = j)) as [->|Hne].
      * rewrite lookup_insert_eq in Hv. injection Hv as <-. lia.
      * rewrite lookup_insert_ne in Hv by done. by apply (Hnew j').
    + destruct (_ <? _); [|done].
      unfold best_bounded, difflib.size. simpl. lia.
Qed.

Lemma scan_rows_bounded n :
  forall i prev best,
    alo <= i -> row_bounded alo i prev -> best_bounded alo i best ->
    best_bounded alo (i + n) (difflib.scan_rows a b blo bhi (seq i n) prev best).
Proof.
  induction n as [|n IH]; intros i prev best Hi Hprev Hbest.
  - simpl. by rewrite Nat.add_0_r.
  - simpl. destruct (a !! i) as [x|].
    2:{ destruct Hbest. split; [done|lia]. }
    pose proof (scan_row_bounded i prev (difflib.b2j_get b x) Hi Hprev ∅ best)
      as H.
    destruct (difflib.scan_row i blo bhi prev (difflib.b2j_get b x) ∅ best)
      as [new best'].
    destruct H as [Hnew Hbest'].
    { intros j v Hv. by rewrite lookup_empty in Hv. }
    { destruct Hbest. split; [done|lia]. }
    replace (i + S n) with (S i + n) by lia.
    apply IH; [lia|done|done].
Qed.

Lemma extend_left_bounded n :
  forall m, fst (fst m) - alo = n ->
    alo <= fst (fst m) ->
    alo <= fst (fst (difflib.extend_left a b blo n m))
    /\ fst (fst (difflib.extend_left a b blo n m))
       + difflib.size (difflib.extend_left a b blo n m)
       = fst (fst m) + difflib.size m.
Proof.
  induction n as [|n IH]; intros [[p q] k] Hn Hp; simpl in *; [done|].
  destruct (_ && _); [|done].
  destruct (IH (p - 1, q - 1, k + 1)) as [H1 H2]; simpl; [lia|lia|].
  split; [done|]. rewrite H2. unfold difflib.size. simpl. lia.
Qed.

Lemma extend_right_bounded n :
  forall m,
    fst (fst (difflib.extend_right a b bhi n m)) = fst (fst m)
    /\ difflib.size m <= difflib.size (difflib.extend_right a b bhi n m)
       <= difflib.size m + n.
Proof.
  induction n as [|n IH]; intros [[p q] k]; simpl; [unfold difflib.size; simpl; lia|].
  destruct (_ && _); [|unfold difflib.size; simpl; lia].
  destruct (IH (p, q, k + 1)) as [H1 H2]. unfold difflib.size in *. simpl in *.
  split; [done|lia].
Qed.

(** The block found lies inside the window of [a]. *)
Lemma find_longest_match_bounded :
  alo <= ahi ->
  alo <= fst (fst (difflib.find_longest_match a b alo ahi blo bhi))
  /\ fst (fst (difflib.find_longest_match a b alo ahi blo bhi))
     + difflib.size (difflib.find_longest_match a b alo ahi blo bhi) <= ahi.
Proof.
  intros Hlo. unfold difflib.find_longest_match.
  pose proof (scan_rows_bounded (ahi - alo) alo ∅ (alo, blo, 0)) as H.
  replace (alo + (ahi - alo)) with ahi in H by lia.
  destruct H as [H1 H2].
  { lia. }
  { intros j v Hv. by rewrite lookup_empty in Hv. }
  { unfold best_bounded, difflib.size. simpl. lia. }
  set (m1 := difflib.scan_rows a b blo bhi (seq alo (ahi - alo)) ∅ (alo, blo, 0)) in *.
  destruct (extend_left_bounded (fst (fst m1) - alo) m1 eq_refl H1) as [H3 H4].
  set (m2 := difflib.extend_left a b blo (fst (fst m1) - alo) m1) in *.
  destruct (extend_right_bounded (ahi - (fst (fst m2) + difflib.size m2)) m2)
    as [H5 H6].
  rewrite H5. split; [done|]. lia.
Qed.

End Bounds.

(** With at least [queue_weight queue] steps the loop ends by emptying its
    queue: more fuel gives the same blocks. *)
Lemma matching_loop_fuel a b fuel :
  forall queue blocks fuel',
    Forall window_ok queue ->
    queue_weight queue <= fuel -> fuel <= fuel' ->
    difflib.matching_loop a b fuel queue blocks
    = difflib.matching_loop a b fuel' queue blocks.
Proof.
  induction fuel as [|fuel IH]; intros queue blocks fuel' Hok Hw Hf.
  - destruct queue as [|[[[alo ahi] blo] bhi] queue]; [by destruct fuel'|].
    simpl in Hw. lia.
  - destruct queue as [|[[[alo ahi] blo] bhi] queue]; [by destruct fuel'|].
    destruct fuel' as [|fuel']; [lia|].
    apply Forall_cons in Hok as [Hwin Hok]. unfold window_ok in Hwin.
    simpl in Hwin, Hw. cbn [difflib.matching_loop].
    pose proof (find_longest_match_bounded a b alo ahi blo bhi Hwin) as [H1 H2].
    destruct (difflib.find_longest_match a b alo ahi blo bhi) as [[i j] k].
    unfold difflib.size in H2. simpl in H1, H2.
    destruct (Nat.eqb_spec k 0) as [Hk|Hk].
    + apply IH; [done|lia|lia].
    + apply IH; [| |lia].
      * repeat (match goal with
                | |- context [if ?c then _ else _] => destruct c eqn:?
                end);
        repeat (apply Forall_cons; split); try done;
          unfold window_ok; simpl;
          repeat match goal with
                 | H : (_ && _) = true |- _ => apply andb_true_iff in H as [? ?]
                 | H : (_ <? _) = true |- _ => apply Nat.ltb_lt in H
                 end; lia.
      * repeat (match goal with
                | |- context [if ?c then _ else _] => destruct c eqn:?
                end);
        simpl;
          repeat match goal with
                 | H : (_ && _) = true |- _ => apply andb_true_iff in H as [? ?]
                 | H : (_ <? _) = true |- _ => apply Nat.ltb_lt in H
                 end; lia.
Qed.

(** [get_matching_blocks] does not depend on the fuel it is given, beyond what
    it takes by default. *)
Lemma get_matching_blocks_total a b extra :
  difflib.matching_loop a b (2 * length a + 1 + extra)
    [(0, length a, 0, length b)] []
  = difflib.get_matching_blocks a b.
Proof.
  unfold difflib.get_matching_blocks. symmetry.
  apply matching_loop_fuel.
  - repeat constructor. unfold window_ok. simpl. lia.
  - simpl. lia.
  - lia.
Qed.

(** ** Texts that are equal once cleaned *)

Lemma lstrip_suffix u : exists w, u = w ++ lstrip u.
Proof.
  induction u as [|c u [w IH]]; simpl; [by exists []|].
  destruct (py_isspace c); [|by exists []].
  exists (c :: w). simpl. by f_equal.
Qed.

Lemma lstrip_head u c r : lstrip u = c :: r -> py_isspace c = false.
Proof.
  induction u as [|x u IH]; simpl; [done|].
  destruct (py_isspace x) eqn:E; [done|]. intros H. by injection H as <- _.
Qed.

Lemma rstrip_prefix u : exists w, u = rstrip u ++ w.
Proof.
  unfold rstrip. destruct (lstrip_suffix (rev u)) as [w Hw].
  exists (rev w). rewrite <- rev_app_distr, <- Hw. by rewrite rev_involutive.
Qed.

Lemma strip_head u c r : strip u = c :: r -> py_isspace c = false.
Proof.
  unfold strip. intros H.
  destruct (rstrip_prefix (lstrip u)) as [w Hw]. rewrite H in Hw.
  by apply (lstrip_head u c (r ++ w)).
Qed.

Lemma split_from_nonempty cur u : cur <> [] -> split_from cur u <> [].
Proof.
  revert cur. induction u as [|c u IH]; intros cur Hcur; simpl.
  - by destruct cur.
  - destruct (py_isspace c).
    + by destruct cur.
    + by apply IH.
Qed.

Lemma clean_text_stripped NFKC t k : exists u, clean_text NFKC t k = strip u.
Proof.
  unfold clean_text. destruct t; [by exists []|]. by eexists.
Qed.

Lemma clean_text_nil NFKC k : clean_text NFKC [] k = [].
Proof. reflexivity. Qed.

Lemma nonempty_set_size `{Countable A} (X : gset A) : X ≠ ∅ -> 0 < size X.
Proof.
  intros HX. destruct (size X) eqn:E; [|lia].
  apply size_empty_iff in E. exfalso. apply HX. by apply leibniz_equiv.
Qed.

Lemma jaccard_self `{Countable A} (X : gset A) :
  X ≠ ∅ -> (jaccard X X == 1)%Q.
Proof.
  intros HX. unfold jaccard.
  assert (X ∩ X = X) as -> by apply intersection_idemp_L.
  assert (X ∪ X = X) as -> by apply union_idemp_L.
  pose proof (nonempty_set_size X HX) as Hs.
  replace (0 <? size X) with true by (symmetry; apply Nat.ltb_lt; lia).
  by apply Qnat_div_diag.
Qed.

Lemma length_similarity_self n :
  0 < n ->
  ((if 0 <? Nat.max n n then Qnat (Nat.min n n) / Qnat (Nat.max n n) else 0)
   == 1)%Q.
Proof.
  intros H. rewrite Nat.max_id, Nat.min_id.
  replace (0 <? n) with true by (symmetry; apply Nat.ltb_lt; lia).
  by apply Qnat_div_diag.
Qed.

Lemma levenshtein_similarity_self c :
  c <> [] -> (_levenshtein_similarity c c == 1)%Q.
Proof.
  intros H. unfold _levenshtein_similarity.
  assert (0 < length c) as Hlen by (destruct c; [done|simpl; lia]).
  rewrite distance_diag, Nat.max_id.
  replace (0 <? length c) with true by (symmetry; apply Nat.ltb_lt; lia).
  unfold Qdiv. change (Qnat 0) with 0%Q. ring.
Qed.

(** The words and the letters of a text that is the result of [strip] and is
    not empty. *)
Lemma stripped_has_word u :
  strip u <> [] -> (list_to_set (split (strip u)) : gset str) ≠ ∅.
Proof.
  intros H. destruct (strip u) as [|c r] eqn:E; [done|].
  pose proof (strip_head u c r E) as Hc.
  unfold split. simpl. rewrite Hc.
  pose proof (split_from_nonempty [c] r ltac:(done)) as Hne.
  destruct (split_from [c] r) as [|w ws]; [done|].
  simpl. intros Hempty.
  assert (w ∈ ({[w]} ∪ list_to_set ws : gset str)) as Hin by set_solver.
  rewrite Hempty in Hin. by apply not_elem_of_empty in Hin.
Qed.

Lemma stripped_has_letter u :
  strip u <> [] -> (list_to_set (replace 0x20%Z [] (strip u)) : gset Z) ≠ ∅.
Proof.
  intros H. destruct (strip u) as [|c r] eqn:E; [done|].
  pose proof (strip_head u c r E) as Hc.
  unfold replace. simpl.
  destruct (Z.eqb_spec c 32) as [->|Hne]; [by vm_compute in Hc|].
  simpl. intros Hempty.
  assert (c ∈ ({[c]} ∪ list_to_set (flat_map (fun c0 : Z => if (c0 =? 32)%Z then [] else [c0]) r) : gset Z))
    as Hin by set_solver.
  rewrite Hempty in Hin. by apply not_elem_of_empty in Hin.
Qed.

Lemma advanced_similarity_self self orig1 orig2 u :
  strip u <> [] ->
  (_advanced_similarity self orig1 orig2 (strip u) (strip u)
   == 1 * 0.4 + 1 * 0.3 + 1 * 0.2
      + _calculate_symbols_bonus self orig1 orig2 * 0.1)%Q.
Proof.
  intros H. unfold _advanced_similarity. cbv zeta.
  pose proof (stripped_has_word u H) as Hw.
  pose proof (stripped_has_letter u H) as Hl.
  rewrite !(bool_decide_eq_true_2 _ Hw), !(bool_decide_eq_true_2 _ Hl).
  cbn [andb].
  rewrite (jaccard_self _ Hw), (jaccard_self _ Hl).
  rewrite length_similarity_self
    by (destruct (strip u); [done|simpl; lia]).
  reflexivity.
Qed.

Lemma Qmin_1_comp x y : (x == y)%Q -> (Qmin x 1 == Qmin y 1)%Q.
Proof. intros H. by rewrite H. Qed.

Lemma combined_similarity_self self orig1 orig2 u :
  strip u <> [] ->
  (_combined_similarity self orig1 orig2 (strip u) (strip u)
   == Qmin (1 * 0.3 + 1 * 0.3
            + (1 * 0.4 + 1 * 0.3 + 1 * 0.2
               + _calculate_symbols_bonus self orig1 orig2 * 0.1) * 0.3
            + _calculate_verse_number_bonus orig1 orig2 * 0.1) 1)%Q.
Proof.
  intros H. unfold _combined_similarity. cbv zeta.
  apply Qmin_1_comp. unfold _simple_similarity.
  by rewrite (ratio_self _ H), (levenshtein_similarity_self _ H),
             (advanced_similarity_self self orig1 orig2 u H).
Qed.

(** The weighted sum of the code when every text component is 1, as a
    function of the two bonuses. *)
Lemma weighted_sum_bounds (sb vb : Q) :
  (0 <= sb <= 1)%Q -> (0 <= vb <= 1)%Q ->
  let s := Qmin (1 * 0.3 + 1 * 0.3
                 + (1 * 0.4 + 1 * 0.3 + 1 * 0.2 + sb * 0.1) * 0.3
                 + vb * 0.1) 1 in
  (0.86 < s <= 1)%Q
  /\ ((sb == 0)%Q -> (vb == 0)%Q -> (s < 0.88)%Q)
  /\ ((vb <= 1 # 2)%Q -> (s < 0.96)%Q)
  /\ ((sb <= 1 # 2)%Q -> (s < 0.99)%Q).
Proof.
  intros Hs Hv s.
  assert (E : (s == 0.87 + 0.03 * sb + 0.1 * vb)%Q).
  { unfold s. rewrite Q.min_l; [ring | lra]. }
  rewrite E. repeat split; intros; lra.
Qed.

(** ** The score of texts that are equal once cleaned *)

(** C1, as amended.  When the cleaned forms of two texts are equal and not
    empty, every text component of the combined score is 1: the [difflib]
    ratio, the edit-distance similarity, and the word, character and length
    parts of the advanced score.  The score is then the weighted sum of the
    code with these components at 1 and the two bonuses read off the raw
    texts, capped at 1.  It is not 1 in general: it lies above 0.86 and is
    at most 1; it is below 0.88 when both bonuses are 0, below 0.96 when the
    verse-number bonus is at most one half, and below 0.99 when the symbols
    bonus is at most one half. *)
Theorem equal_clean_texts_score
    (NFKC : str -> str) (self : AdvancedTextProcessor) (text1 text2 : str) :
  clean_text NFKC text1 false = clean_text NFKC text2 false ->
  clean_text NFKC text1 false <> [] ->
  let clean1 := clean_text NFKC text1 false in
  let clean2 := clean_text NFKC text2 false in
  let symbols_bonus := _calculate_symbols_bonus self text1 text2 in
  let verse_bonus := _calculate_verse_number_bonus text1 text2 in
  let score := text_similarity NFKC self text1 text2 "combined" in
  (_simple_similarity clean1 clean2 == 1)%Q
  /\ (_levenshtein_similarity clean1 clean2 == 1)%Q
  /\ (_advanced_similarity self text1 text2 clean1 clean2
      == 1 * 0.4 + 1 * 0.3 + 1 * 0.2 + symbols_bonus * 0.1)%Q
  /\ (score
      == Qmin (1 * 0.3 + 1 * 0.3
               + (1 * 0.4 + 1 * 0.3 + 1 * 0.2 + symbols_bonus * 0.1) * 0.3
               + verse_bonus * 0.1) 1)%Q
  /\ (0.86 < score <= 1)%Q
  /\ ((symbols_bonus == 0)%Q -> (verse_bonus == 0)%Q -> (score < 0.88)%Q)
  /\ ((verse_bonus <= 1 # 2)%Q -> (score < 0.96)%Q)
  /\ ((symbols_bonus <= 1 # 2)%Q -> (score < 0.99)%Q).
Proof.
  intros Heq Hne clean1 clean2 symbols_bonus verse_bonus score.
  assert (Hne2 : text2 <> []).
  { intros ->. apply Hne. by rewrite Heq. }
  assert (Hne1 : text1 <> []) by (by intros ->).
  destruct (clean_text_stripped NFKC text1 false) as [u Hu].
  assert (Hc2 : clean2 = strip u) by (unfold clean2; by rewrite <- Heq).
  assert (Hc1 : clean1 = strip u) by done.
  assert (Hsu : strip u <> []) by (by rewrite <- Hu).
  assert (E : (score
               == Qmin (1 * 0.3 + 1 * 0.3
                        + (1 * 0.4 + 1 * 0.3 + 1 * 0.2 + symbols_bonus * 0.1) * 0.3
                        + verse_bonus * 0.1) 1)%Q).
  { unfold score, text_similarity.
    destruct text1 as [|c1 t1]; [done|]. destruct text2 as [|c2 t2]; [done|].
    replace (bool_decide ("combined" = "simple")) with false by (by vm_compute).
    replace (bool_decide ("combined" = "levenshtein")) with false by (by vm_compute).
    replace (bool_decide ("combined" = "advanced")) with false by (by vm_compute).
    replace (bool_decide ("combined" = "combined")) with true by (by vm_compute).
    fold clean1 clean2. rewrite Hc1, Hc2. by apply combined_similarity_self. }
  rewrite Hc1, Hc2.
  split; [unfold _simple_similarity; by apply ratio_self|].
  split; [by apply levenshtein_similarity_self|].
  split; [by apply advanced_similarity_self|].
  split; [exact E|].
  rewrite E.
  apply weighted_sum_bounds.
  - apply symbols_bonus_range.
  - apply verse_number_bonus_range.
Qed.

(** ["ab 1"] and ["ab 2"] have the same cleaned form, ["ab"]. *)
Lemma equal_clean_texts_score_witness :
  clean_text NFKC_of_normalized text_ab_1 false
  = clean_text NFKC_of_normalized text_ab_2 false
  /\ clean_text NFKC_of_normalized text_ab_1 false <> []
  /\ (_simple_similarity (clean_text NFKC_of_normalized text_ab_1 false)
                         (clean_text NFKC_of_normalized text_ab_2 false) == 1)%Q.
Proof.
  split; [vm_compute; reflexivity|]. split; [vm_compute; discriminate|].
  apply (equal_clean_texts_score NFKC_of_normalized
           processor_without_font text_ab_1 text_ab_2
           ltac:(vm_compute; reflexivity)
           ltac:(vm_compute; discriminate)).
Defined.

(** C1, as stated, fails: the text ["ab"] against itself scores less than
    0.88, with or without a font manager, since it carries neither symbol
    nor digit. *)
Lemma plain_equal_texts_score_below_1 :
  clean_text NFKC_of_normalized text_ab false
  = clean_text NFKC_of_normalized text_ab false
  /\ clean_text NFKC_of_normalized text_ab false <> []
  /\ (text_similarity NFKC_of_normalized processor_without_font
        text_ab text_ab "combined" < 0.88)%Q
  /\ (text_similarity NFKC_of_normalized processor_with_fatha
        text_ab text_ab "combined" < 0.88)%Q
  /\ ~ (text_similarity NFKC_of_normalized processor_without_font
          text_ab text_ab "combined" == 1)%Q.
Proof.
  split; [reflexivity|].
  split; [vm_compute; discriminate|].
  split; [vm_compute; reflexivity|].
  split; [vm_compute; reflexivity|].
  vm_compute. discriminate.
Qed.

(** A text with a symbol of the font and a verse number earns both bonuses
    against itself, and scores above 0.99. *)
Example annotated_equal_texts_score_above_099 :
  (_calculate_symbols_bonus processor_with_fatha text_a_fatha_1 text_a_fatha_1
   == 1)%Q
  /\ (_calculate_verse_number_bonus text_a_fatha_1 text_a_fatha_1 == 1)%Q
  /\ (0.99 < text_similarity NFKC_of_normalized processor_with_fatha
               text_a_fatha_1 text_a_fatha_1 "combined" <= 1)%Q.
Proof.
  split; [vm_compute; reflexivity|]. split; [vm_compute; reflexivity|].
  split; [vm_compute; reflexivity | vm_compute; discriminate].
Qed.

(** C4, as amended.  The combined score of two texts is determined by their
    cleaned forms together with the two bonuses read off the raw texts:
    pairs of texts that agree on being empty, on the cleaned forms, on the
    symbols bonus and on the verse-number bonus have the same score. *)
Theorem score_depends_on_clean_forms_and_bonuses
    (NFKC : str -> str) (self : AdvancedTextProcessor) (a a' b b' : str) :
  (a = [] <-> a' = []) -> (b = [] <-> b' = []) ->
  clean_text NFKC a false = clean_text NFKC a' false ->
  clean_text NFKC b false = clean_text NFKC b' false ->
  (_calculate_symbols_bonus self a b == _calculate_symbols_bonus self a' b')%Q ->
  (_calculate_verse_number_bonus a b == _calculate_verse_number_bonus a' b')%Q ->
  (text_similarity NFKC self a b "combined"
   == text_similarity NFKC self a' b' "combined")%Q.
Proof.
  intros Ha Hb Hca Hcb Hs Hv. unfold text_similarity.
  destruct a as [|x a]; destruct a' as [|x' a'].
  { reflexivity. }
  { by destruct Ha as [Ha _]; specialize (Ha eq_refl). }
  { by destruct Ha as [_ Ha]; specialize (Ha eq_refl). }
  destruct b as [|y b]; destruct b' as [|y' b'].
  { reflexivity. }
  { by destruct Hb as [Hb _]; specialize (Hb eq_refl). }
  { by destruct Hb as [_ Hb]; specialize (Hb eq_refl). }
  replace (bool_decide ("combined" = "simple")) with false by (by vm_compute).
  replace (bool_decide ("combined" = "levenshtein")) with false by (by vm_compute).
  replace (bool_decide ("combined" = "advanced")) with false by (by vm_compute).
  replace (bool_decide ("combined" = "combined")) with true by (by vm_compute).
  rewrite <- Hca, <- Hcb.
  unfold _combined_similarity, _advanced_similarity. cbv zeta.
  rewrite Hs, Hv. reflexivity.
Qed.

(** Against ["ab"], which has no digit, ["ab 1"] and ["ab 2"] earn the same
    bonuses, hence the same score. *)
Lemma score_depends_on_clean_forms_and_bonuses_witness :
  clean_text NFKC_of_normalized text_ab_1 false
  = clean_text NFKC_of_normalized text_ab_2 false
  /\ (_calculate_verse_number_bonus text_ab_1 text_ab
      == _calculate_verse_number_bonus text_ab_2 text_ab)%Q
  /\ (text_similarity NFKC_of_normalized processor_without_font
        text_ab_1 text_ab "combined"
      == text_similarity NFKC_of_normalized processor_without_font
           text_ab_2 text_ab "combined")%Q.
Proof.
  split; [vm_compute; reflexivity|]. split; [vm_compute; reflexivity|].
  apply (score_depends_on_clean_forms_and_bonuses NFKC_of_normalized
           processor_without_font text_ab_1 text_ab_2 text_ab text_ab).
  - split; discriminate.
  - split; discriminate.
  - vm_compute. reflexivity.
  - reflexivity.
  - vm_compute. reflexivity.
  - vm_compute. reflexivity.
Defined.

(** C4, as stated, fails: ["ab 1"] and ["ab 2"] have the same cleaned form,
    yet against ["ab 1"] the first scores 0.97 and the second 0.87, because
    the verse-number bonus reads the digits of the raw texts. *)
Lemma raw_digits_change_the_score :
  clean_text NFKC_of_normalized text_ab_1 false
  = clean_text NFKC_of_normalized text_ab_2 false
  /\ (text_similarity NFKC_of_normalized processor_without_font
        text_ab_1 text_ab_1 "combined" == 0.97)%Q
  /\ (text_similarity NFKC_of_normalized processor_without_font
        text_ab_2 text_ab_1 "combined" == 0.87)%Q
  /\ ~ (text_similarity NFKC_of_normalized processor_without_font
          text_ab_1 text_ab_1 "combined"
        == text_similarity NFKC_of_normalized processor_without_font
             text_ab_2 text_ab_1 "combined")%Q.
Proof.
  split; [vm_compute; reflexivity|].
  split; [vm_compute; reflexivity|].
  split; [vm_compute; reflexivity|].
  vm_compute. discriminate.
Qed.

(** * Further properties *)

(** ** White space: [strip], [split], [join] and [re.sub(r'\s+', ' ', _)] *)

Lemma lstrip_app_keep u v : lstrip u <> [] -> lstrip (u ++ v) = lstrip u ++ v.
Proof.
  induction u as [|c u IH]; simpl; [done|].
  destruct (py_isspace c); [apply IH | done].
Qed.

Lemma lstrip_app_drop u v : lstrip u = [] -> lstrip (u ++ v) = lstrip v.
Proof.
  induction u as [|c u IH]; simpl; [done|].
  destruct (py_isspace c); [apply IH | done].
Qed.

Lemma rstrip_app_keep x y : rstrip y <> [] -> rstrip (x ++ y) = x ++ rstrip y.
Proof.
  unfold rstrip. intros H. rewrite rev_app_distr, lstrip_app_keep.
  - by rewrite rev_app_distr, rev_involutive.
  - intros E. apply H. by rewrite E.
Qed.

Lemma rstrip_app_drop x y : rstrip y = [] -> rstrip (x ++ y) = rstrip x.
Proof.
  unfold rstrip. intros H. rewrite rev_app_distr, lstrip_app_drop; [done|].
  apply (f_equal (@rev Z)) in H. by rewrite rev_involutive in H.
Qed.

Lemma rstrip_rev_word c cur : py_isspace c = false -> rstrip (rev (c :: cur)) = rev (c :: cur).
Proof.
  intros H. unfold rstrip. rewrite rev_involutive. simpl lstrip. by rewrite H.
Qed.

Lemma split_lstrip s : split (lstrip s) = split s.
Proof.
  unfold split. induction s as [|c s IH]; simpl; [done|].
  destruct (py_isspace c) eqn:E; [done|]. simpl. by rewrite E.
Qed.

Lemma lstrip_re_sub_runs b s :
  lstrip (re_sub_runs_from py_isspace [0x20%Z] b s)
  = re_sub_runs_from py_isspace [0x20%Z] true (lstrip s).
Proof.
  revert b. induction s as [|c s IH]; intros b; simpl; [done|].
  destruct (py_isspace c) eqn:E.
  - destruct b; simpl; apply IH.
  - simpl. by rewrite E.
Qed.

Lemma join_cons2 sep (x y : str) l : join sep (x :: y :: l) = x ++ sep ++ join sep (y :: l).
Proof. done. Qed.

Lemma split_nil_runs s :
  split_from [] s = [] -> re_sub_runs_from py_isspace [0x20%Z] true s = [].
Proof.
  induction s as [|c s IH]; simpl; [done|].
  destruct (py_isspace c); [apply IH|].
  intros H. by apply split_from_nonempty in H.
Qed.

Lemma split_from_words cur s :
  Forall (fun c => py_isspace c = false) cur ->
  Forall is_word (split_from cur s).
Proof.
  revert cur. induction s as [|c s IH]; intros cur Hcur; simpl.
  - destruct cur; [done|]. constructor; [|done]. split.
    + intros E. apply (f_equal (@length Z)) in E. rewrite length_rev in E. done.
    + apply Forall_forall. intros x Hx. apply list_elem_of_In, in_rev in Hx.
      rewrite Forall_forall in Hcur. apply Hcur. by apply list_elem_of_In.
  - destruct (py_isspace c) eqn:E.
    + destruct cur; [by apply IH|]. constructor; [|by apply IH]. split.
      * intros E'. apply (f_equal (@length Z)) in E'. rewrite length_rev in E'. done.
      * apply Forall_forall. intros x Hx. apply list_elem_of_In, in_rev in Hx.
        rewrite Forall_forall in Hcur. apply Hcur. by apply list_elem_of_In.
    + apply IH. by constructor.
Qed.

Lemma split_words s : Forall is_word (split s).
Proof. by apply split_from_words. Qed.

Lemma join_words_nonempty sep w ws : w <> [] -> join sep (w :: ws) <> [].
Proof. destruct ws; simpl; [done|]. by destruct w. Qed.

Lemma rstrip_re_sub_runs s :
  rstrip (re_sub_runs_from py_isspace [0x20%Z] true s)
  = join [0x20%Z] (split_from [] s)
  /\ forall c cur, py_isspace c = false ->
       rstrip (rev (c :: cur) ++ re_sub_runs_from py_isspace [0x20%Z] false s)
       = join [0x20%Z] (split_from (c :: cur) s).
Proof.
  induction s as [|d s [IH1 IH2]].
  - split; [done|]. intros c cur Hc. rewrite app_nil_r. by apply rstrip_rev_word.
  - split.
    + simpl. destruct (py_isspace d) eqn:E; [apply IH1|].
      apply (IH2 d [] E).
    + intros c cur Hc. simpl re_sub_runs_from. simpl split_from.
      destruct (py_isspace d) eqn:E.
      * simpl app at 2.
        destruct (split_from [] s) as [|w ws] eqn:Es.
        -- rewrite (split_nil_runs s Es).
           rewrite rstrip_app_drop; [by apply rstrip_rev_word|].
           done.
        -- rewrite join_cons2. rewrite <- IH1.
           assert (Hne : rstrip (re_sub_runs_from py_isspace [32%Z] true s) <> []).
           { rewrite IH1. apply join_words_nonempty.
             pose proof (split_from_words [] s (List.Forall_nil _)) as Hw.
             rewrite Es in Hw. inversion Hw as [|? ? [? _]]; by subst. }
           change (rev (c :: cur) ++ 32%Z :: ?r) with (rev (c :: cur) ++ [32%Z] ++ r).
           rewrite app_assoc, rstrip_app_keep by done. by rewrite <- app_assoc.
      * rewrite <- (IH2 d (c :: cur) E). simpl. by rewrite <- !app_assoc.
Qed.

(** [re.sub(r'\s+', ' ', s).strip()] is the words of [s] joined by single
    spaces. *)
Lemma strip_re_sub_runs s :
  strip (re_sub_runs py_isspace [0x20%Z] s) = join [0x20%Z] (split s).
Proof.
  unfold strip, re_sub_runs. rewrite lstrip_re_sub_runs.
  rewrite (proj1 (rstrip_re_sub_runs _)). fold (split (lstrip s)).
  by rewrite split_lstrip.
Qed.

Lemma split_from_word w cur r :
  Forall (fun c => py_isspace c = false) w ->
  split_from cur (w ++ r) = split_from (rev w ++ cur) r.
Proof.
  revert cur. induction w as [|c w IH]; intros cur Hw; [done|].
  inversion Hw as [|? ? Hc Hw']; subst. simpl. rewrite Hc, IH by done.
  by rewrite <- app_assoc.
Qed.

Lemma split_from_space cur r :
  cur <> [] -> split_from cur (0x20%Z :: r) = rev cur :: split_from [] r.
Proof. by destruct cur. Qed.

Lemma split_from_end cur : cur <> [] -> split_from cur [] = [rev cur].
Proof. by destruct cur. Qed.

Lemma rev_nonempty (w : str) : w <> [] -> rev w <> [].
Proof.
  intros H E. apply (f_equal (@length Z)) in E. rewrite length_rev in E.
  by destruct w.
Qed.

Lemma split_join_words ws :
  Forall is_word ws -> split (join [0x20%Z] ws) = ws.
Proof.
  unfold split. induction ws as [|w ws IH]; intros H; [done|].
  inversion H as [|? ? [Hne Hw] Hws]; subst.
  destruct ws as [|w' ws].
  - simpl join. rewrite <- (app_nil_r w) at 1. rewrite split_from_word by done.
    rewrite app_nil_r, split_from_end by by apply rev_nonempty.
    by rewrite rev_involutive.
  - rewrite join_cons2, split_from_word by done. rewrite app_nil_r.
    change ([32%Z] ++ ?r) with (32%Z :: r).
    rewrite split_from_space by by apply rev_nonempty.
    rewrite rev_involutive. f_equal. by apply IH.
Qed.

Lemma split_from_app_space cur a b :
  split_from cur (a ++ 0x20%Z :: b) = split_from cur a ++ split b.
Proof.
  revert cur. induction a as [|c a IH]; intros cur; simpl.
  - change (py_isspace 32) with true. cbv iota. by destruct cur.
  - destruct (py_isspace c); [|apply IH]. destruct cur; [apply IH|].
    simpl. f_equal. apply IH.
Qed.

Lemma split_join_space xs :
  split (join [0x20%Z] xs) = concat (map split xs).
Proof.
  induction xs as [|x xs IH]; [done|]. destruct xs as [|y xs].
  - simpl. by rewrite app_nil_r.
  - rewrite join_cons2. unfold split at 1.
    change ([32%Z] ++ ?r) with (32%Z :: r).
    by rewrite split_from_app_space, IH.
Qed.

Lemma split_from_app_blank cur a r :
  Forall (fun c => py_isspace c = true) r ->
  split_from cur (a ++ r) = split_from cur a.
Proof.
  revert cur. induction a as [|c a IH]; intros cur Hr; simpl.
  - revert cur. induction r as [|d r IHr]; intros cur; [done|].
    inversion Hr as [|? ? Hd Hr']; subst. simpl. rewrite Hd.
    destruct cur as [|e cur].
    + rewrite IHr by done. done.
    + rewrite IHr by done. done.
  - destruct (py_isspace c); [|by apply IH]. destruct cur; by rewrite IH.
Qed.

Lemma lstrip_dropped u : exists w, u = w ++ lstrip u /\ Forall (fun c => py_isspace c = true) w.
Proof.
  induction u as [|c u [w [E H]]]; [by exists []|]. simpl.
  destruct (py_isspace c) eqn:Ec.
  - exists (c :: w). split; [simpl; by f_equal | by constructor].
  - by exists [].
Qed.

Lemma rstrip_dropped u : exists w, u = rstrip u ++ w /\ Forall (fun c => py_isspace c = true) w.
Proof.
  destruct (lstrip_dropped (rev u)) as [w [E H]]. exists (rev w). split.
  - unfold rstrip. rewrite <- rev_app_distr, <- E. by rewrite rev_involutive.
  - apply Forall_forall. intros x Hx. apply list_elem_of_In, in_rev in Hx.
    rewrite Forall_forall in H. apply H. by apply list_elem_of_In.
Qed.

Lemma split_strip s : split (strip s) = split s.
Proof.
  unfold strip. rewrite <- (split_lstrip s).
  destruct (rstrip_dropped (lstrip s)) as [w [E H]].
  rewrite E at 2. unfold split. by rewrite split_from_app_blank.
Qed.

Lemma split_blank s : strip s = [] -> split s = [].
Proof. intros H. by rewrite <- split_strip, H. Qed.

(** Membership through the replacement functions. *)
Lemma elem_of_re_sub_class c cls repl s :
  c ∈ re_sub_class cls repl s -> (c ∈ s /\ cls c = false) \/ c ∈ repl.
Proof.
  unfold re_sub_class. rewrite list_elem_of_In, in_flat_map.
  intros [x [Hx Hc]]. destruct (cls x) eqn:E.
  - right. by apply list_elem_of_In.
  - left. destruct Hc as [->|[]]. split; [by apply list_elem_of_In | done].
Qed.

Lemma elem_of_re_sub_runs_from c cls repl b s :
  c ∈ re_sub_runs_from cls repl b s -> (c ∈ s /\ cls c = false) \/ c ∈ repl.
Proof.
  revert b. induction s as [|d s IH]; intros b; simpl.
  - by intros ?%elem_of_nil.
  - destruct (cls d) eqn:E.
    + rewrite elem_of_app. intros [H|H].
      * right. by destruct b; [apply elem_of_nil in H|].
      * destruct (IH _ H) as [[? ?]|?]; [left; split; [by right | done] | by right].
    + rewrite elem_of_cons. intros [->|H]; [left; split; [by left | done]|].
      destruct (IH _ H) as [[? ?]|?]; [left; split; [by right | done] | by right].
Qed.

Lemma elem_of_re_sub_runs c cls repl s :
  c ∈ re_sub_runs cls repl s -> (c ∈ s /\ cls c = false) \/ c ∈ repl.
Proof. apply elem_of_re_sub_runs_from. Qed.

Lemma elem_of_replace c old new s :
  c ∈ replace old new s -> (c ∈ s /\ c <> old) \/ c ∈ new.
Proof.
  unfold replace. rewrite list_elem_of_In, in_flat_map.
  intros [x [Hx Hc]]. destruct (Z.eqb_spec x old).
  - right. by apply list_elem_of_In.
  - left. destruct Hc as [->|[]]. split; [by apply list_elem_of_In | done].
Qed.

(** ** The text produced by [clean_text], [normalize_text], [merge_segments]
    and [split_into_words] *)

(** [text.replace(k, v)] for every entry of a table none of whose values is
    a key: no key is left. *)
Lemma elem_of_fold_replace (kvs : list (Z * Z)) text c :
  c ∈ fold_left (fun text kv => replace (fst kv) [snd kv] text) kvs text ->
  (c ∈ text \/ c ∈ map snd kvs)
  /\ ((forall v, v ∈ map snd kvs -> v ∉ map fst kvs) -> c ∉ map fst kvs).
Proof.
  revert c. induction kvs as [|kv kvs IH] using rev_ind; intros c.
  - simpl. intros H. split; [by left|]. intros _ ?%elem_of_nil. done.
  - rewrite fold_left_app. simpl. intros H. apply elem_of_replace in H.
    rewrite !map_app. simpl. destruct H as [[H Hne]|H].
    + destruct (IH _ H) as [H1 H2]. split.
      * destruct H1; [by left|]. right. apply elem_of_app. by left.
      * intros Hv. rewrite elem_of_app, list_elem_of_singleton.
        intros [Hk|Hk]; [|done]. revert Hk. apply H2.
        intros v Hv'. specialize (Hv v). rewrite !elem_of_app in Hv.
        intros Hk. apply Hv; [by left | by left].
    + apply list_elem_of_singleton in H. subst c. split.
      * right. apply elem_of_app. right. by apply list_elem_of_singleton.
      * intros Hv. apply Hv. apply elem_of_app. right. by apply list_elem_of_singleton.
Qed.

Lemma arabic_number_is_decimal c :
  arabic_number_pattern c = true -> py_isdecimal c = true.
Proof.
  unfold arabic_number_pattern. rewrite existsb_exists.
  intros [kv [Hin Hc]]. apply Z.eqb_eq in Hc. subst c.
  revert kv Hin.
  apply (proj1 (List.Forall_forall (fun kv => py_isdecimal (fst kv) = true)
                                   ARABIC_NUMBERS)).
  repeat (apply List.Forall_cons; [reflexivity|]); apply List.Forall_nil.
Qed.

Lemma arabic_number_values_disjoint :
  forall v, v ∈ map snd ARABIC_NUMBERS -> v ∉ map fst ARABIC_NUMBERS.
Proof.
  apply Forall_forall. apply (bool_decide_unpack _). by vm_compute.
Qed.

Lemma arabic_number_values_plain :
  forall v, v ∈ map snd ARABIC_NUMBERS ->
    diacritic_pattern v = false /\ (v ∉ special_symbols).
Proof.
  apply Forall_forall. apply (bool_decide_unpack _). by vm_compute.
Qed.

Lemma space_not_special : (32%Z ∉ special_symbols).
Proof. apply (bool_decide_unpack _). by vm_compute. Qed.

(** X1.  What [clean_text] leaves out.  Whatever the text, the cleaned form
    holds no diacritic of [DIACRITIC_RANGES], none of the bracket and
    ayah-mark symbols and no Arabic-Indic digit; without
    [keep_verse_numbers] it holds no decimal digit at all. *)
Theorem clean_text_alphabet (NFKC : str -> str) (text : str)
    (keep_verse_numbers : bool) :
  Forall (fun c =>
            diacritic_pattern c = false
            /\ (c ∉ special_symbols)
            /\ arabic_number_pattern c = false
            /\ (keep_verse_numbers = false -> py_isdecimal c = false))
         (clean_text NFKC text keep_verse_numbers).
Proof.
  apply Forall_forall. intros c Hc.
  destruct text as [|t0 text]; [by apply elem_of_nil in Hc|].
  unfold clean_text in Hc.
  apply elem_of_strip, elem_of_re_sub_runs in Hc.
  assert (Hsp : diacritic_pattern 32 = false /\ (32%Z ∉ special_symbols)
                /\ arabic_number_pattern 32 = false
                /\ (keep_verse_numbers = false -> py_isdecimal 32 = false)).
  { split; [done|]. split; [apply space_not_special | done]. }
  destruct Hc as [[Hc _]|Hc]; [|by apply list_elem_of_singleton in Hc; subst].
  apply elem_of_re_sub_class in Hc.
  destruct Hc as [[Hc Hs]|Hc]; [|by apply list_elem_of_singleton in Hc; subst].
  apply bool_decide_eq_false in Hs.
  destruct keep_verse_numbers; cbn [negb] in Hc; cbv iota in Hc.
  - apply elem_of_fold_replace in Hc. destruct Hc as [Hc Hk].
    assert (Hnk : c ∉ map fst ARABIC_NUMBERS).
    { apply Hk, arabic_number_values_disjoint. }
    assert (Hnum : arabic_number_pattern c = false).
    { apply not_true_is_false. unfold arabic_number_pattern.
      rewrite existsb_exists. intros [kv [Hin He]]. apply Z.eqb_eq in He.
      apply Hnk. subst c. apply list_elem_of_fmap. exists kv.
      split; [done | by apply list_elem_of_In]. }
    destruct Hc as [Hc|Hc].
    + apply elem_of_re_sub_class_nil in Hc. destruct Hc as [_ Hd]. done.
    + destruct (arabic_number_values_plain c Hc) as [? ?]. done.
  - apply elem_of_re_sub_runs in Hc.
    destruct Hc as [[Hc Hd]|Hc]; [|by apply list_elem_of_singleton in Hc; subst].
    apply orb_false_iff in Hd. destruct Hd as [Hd _].
    apply elem_of_re_sub_class_nil in Hc. destruct Hc as [_ Hm].
    split; [done|]. split; [done|]. split; [|done].
    apply not_true_is_false. intros Ha. apply arabic_number_is_decimal in Ha.
    congruence.
Qed.

Lemma clean_text_join_split NFKC text k :
  clean_text NFKC text k = join [0x20%Z] (split (clean_text NFKC text k)).
Proof.
  destruct text as [|t0 text]; [done|]. unfold clean_text.
  rewrite strip_re_sub_runs. by rewrite split_join_words by apply split_words.
Qed.

(** X2.  The shape of a cleaned text.  [clean_text] returns words (non-empty,
    free of white space) separated by exactly one U+0020: there is no white
    space at either end, no run of two, and no white space other than the
    plain space. *)
Theorem clean_text_is_words_joined_by_single_spaces (NFKC : str -> str)
    (text : str) (keep_verse_numbers : bool) :
  exists words : list str,
    Forall is_word words
    /\ clean_text NFKC text keep_verse_numbers = join [0x20%Z] words
    /\ split (clean_text NFKC text keep_verse_numbers) = words.
Proof.
  exists (split (clean_text NFKC text keep_verse_numbers)).
  split; [apply split_words|]. split; [apply clean_text_join_split | done].
Qed.

Lemma filter_nonempty_words ws :
  Forall is_word ws -> filter (fun w => nonempty w = true) ws = ws.
Proof.
  induction 1 as [|w ws [Hne _] _ IH]; [done|].
  rewrite filter_cons_True by by destruct w. by rewrite IH.
Qed.

(** X3.  [split_into_words] without marks is the word list of the cleaned
    text, and joining the words by single spaces gives the cleaned text
    back. *)
Theorem split_into_words_clean_round_trip (NFKC : str -> str) (text : str) :
  split_into_words NFKC text false = split (clean_text NFKC text false)
  /\ Forall is_word (split_into_words NFKC text false)
  /\ join [0x20%Z] (split_into_words NFKC text false)
     = clean_text NFKC text false.
Proof.
  assert (E : split_into_words NFKC text false = split (clean_text NFKC text false)).
  { unfold split_into_words. apply filter_nonempty_words, split_words. }
  rewrite E. split; [done|]. split; [apply split_words|].
  symmetry. apply clean_text_join_split.
Qed.

Lemma filter_nonempty_cons (w : str) ws :
  concat (filter (fun w => nonempty w = true) (w :: ws))
  = w ++ concat (filter (fun w => nonempty w = true) ws).
Proof.
  destruct w as [|c w]; [by rewrite filter_cons_False|].
  by rewrite filter_cons_True.
Qed.

Lemma re_split_runs_from_concat cls cur b s :
  (b = true -> cur = []) ->
  concat (filter (fun w => nonempty w = true) (re_split_runs_from cls cur b s))
  = rev cur ++ filter (fun c => cls c = false) s.
Proof.
  revert cur b. induction s as [|c s IH]; intros cur b Hb.
  - simpl re_split_runs_from. by rewrite filter_nonempty_cons, !filter_nil.
  - simpl re_split_runs_from. destruct (cls c) eqn:E.
    + rewrite (filter_cons_False _ c) by (rewrite E; done).
      destruct b.
      * rewrite (Hb eq_refl). by apply IH.
      * rewrite filter_nonempty_cons. f_equal. by rewrite IH.
    + rewrite (filter_cons_True _ c) by done. rewrite IH by done.
      simpl. by rewrite <- app_assoc.
Qed.

Lemma re_split_runs_from_words cls cur b s :
  Forall (fun c => cls c = false) cur ->
  Forall (fun w => w <> [] /\ Forall (fun c => cls c = false) w)
         (filter (fun w => nonempty w = true) (re_split_runs_from cls cur b s)).
Proof.
  assert (Hrev : forall cur : str, Forall (fun c => cls c = false) cur ->
            Forall (fun c => cls c = false) (rev cur)).
  { intros cur' H. apply Forall_forall. intros x Hx.
    apply list_elem_of_In, in_rev in Hx. rewrite Forall_forall in H.
    apply H. by apply list_elem_of_In. }
  assert (Hone : forall (w : str) ws, Forall (fun c => cls c = false) w ->
            Forall (fun w => w <> [] /\ Forall (fun c => cls c = false) w)
                   (filter (fun w => nonempty w = true) ws) ->
            Forall (fun w => w <> [] /\ Forall (fun c => cls c = false) w)
                   (filter (fun w => nonempty w = true) (w :: ws))).
  { intros w ws Hw Hws. destruct w as [|c w]; [by rewrite filter_cons_False|].
    rewrite filter_cons_True by done. by constructor. }
  revert cur b. induction s as [|c s IH]; intros cur b Hcur.
  - simpl. apply Hone; [by apply Hrev | by rewrite filter_nil].
  - simpl. destruct (cls c) eqn:E.
    + destruct b; [by apply IH|]. apply Hone; [by apply Hrev | by apply IH].
    + apply IH. by constructor.
Qed.

(** X4.  [split_into_words] with the marks kept cuts the text at white space
    and at the zero-width (non-)joiners and loses nothing else: no word is
    empty, no word holds a separator, and the words put end to end are the
    text without its separators. *)
Theorem split_into_words_keeps_all_but_separators (NFKC : str -> str)
    (text : str) :
  let separator c := py_isspace c || (c =? 0x200C)%Z || (c =? 0x200D)%Z in
  Forall (fun w => w <> [] /\ Forall (fun c => separator c = false) w)
         (split_into_words NFKC text true)
  /\ concat (split_into_words NFKC text true)
     = filter (fun c => separator c = false) text.
Proof.
  intros separator. unfold split_into_words, re_split_runs. split.
  - by apply re_split_runs_from_words.
  - by rewrite re_split_runs_from_concat.
Qed.

Lemma merge_segments_cleaned segments :
  concat (map split
            (map strip (filter (fun s => nonempty (strip s) = true) segments)))
  = concat (map split segments).
Proof.
  induction segments as [|s segments IH]; [done|].
  destruct (strip s) eqn:E.
  - rewrite filter_cons_False by (rewrite E; done). simpl.
    by rewrite (split_blank s E), IH.
  - rewrite filter_cons_True by (rewrite E; done). simpl.
    by rewrite split_strip, IH.
Qed.

Lemma concat_words (l : list (list str)) :
  Forall (Forall is_word) l -> Forall is_word (concat l).
Proof.
  induction 1; simpl; [done|]. apply Forall_app. by split.
Qed.

(** X5.  [merge_segments] with the default separator gives the words of all
    segments, in order, joined by single spaces (blank segments contribute
    nothing), and splitting the result gives those words back. *)
Theorem merge_segments_joins_the_words (segments : list str) :
  merge_segments segments [0x20%Z]
  = join [0x20%Z] (concat (map split segments))
  /\ split (merge_segments segments [0x20%Z]) = concat (map split segments).
Proof.
  assert (E : merge_segments segments [0x20%Z]
              = join [0x20%Z] (concat (map split segments))).
  { destruct segments as [|s segments]; [done|]. unfold merge_segments.
    rewrite strip_re_sub_runs, split_join_space, merge_segments_cleaned.
    done. }
  split; [done|]. rewrite E. apply split_join_words, concat_words.
  apply Forall_forall. intros ws Hws. apply list_elem_of_fmap in Hws.
  destruct Hws as [s [-> _]]. apply split_words.
Qed.

Lemma elem_of_split_from cur s w c :
  w ∈ split_from cur s -> c ∈ w -> c ∈ cur \/ c ∈ s.
Proof.
  assert (Hrev : forall cur : str, c ∈ rev cur -> c ∈ cur).
  { intros cur' H. by apply list_elem_of_In, in_rev, list_elem_of_In in H. }
  revert cur. induction s as [|d s IH]; intros cur; simpl.
  - destruct cur; [by intros ?%elem_of_nil|].
    intros ->%list_elem_of_singleton Hc. left. by apply Hrev.
  - destruct (py_isspace d).
    + destruct cur as [|e cur].
      * intros Hw Hc. destruct (IH _ Hw Hc) as [?|?]; [by left | right; by right].
      * rewrite elem_of_cons. intros [->|Hw] Hc; [left; by apply Hrev|].
        destruct (IH _ Hw Hc) as [?%elem_of_nil|?]; [done | right; by right].
    + intros Hw Hc. destruct (IH _ Hw Hc) as [H|H].
      * apply elem_of_cons in H. destruct H as [->|H]; [right; by left | by left].
      * right. by right.
Qed.

Lemma normalize_text_aggressive NFKC t0 text :
  normalize_text NFKC (t0 :: text) "aggressive"
  = strip (re_sub_runs py_isspace [0x20%Z]
      (re_sub_class
         (fun c => negb (in_ranges [(0x0621, 0x064A); (0x0671, 0x06D3)]%Z c
                         || py_isspace c))
         [0x20%Z]
         (re_sub_class diacritic_pattern []
            (fold_left (fun text kv => replace (fst kv) (snd kv) text)
                       all_normalizations (NFKC (t0 :: text)))))).
Proof. reflexivity. Qed.

(** X6.  The alphabet of aggressive normalisation.  At level ['aggressive']
    [normalize_text] returns words made of Arabic letters only (U+0621 to
    U+064A and U+0671 to U+06D3), separated by single spaces. *)
Theorem normalize_aggressive_is_arabic_words (NFKC : str -> str) (text : str) :
  exists words : list str,
    Forall (fun w => w <> [] /\ Forall is_arabic_letter w) words
    /\ normalize_text NFKC text "aggressive" = join [0x20%Z] words.
Proof.
  destruct text as [|t0 text]; [by exists []|].
  rewrite normalize_text_aggressive, strip_re_sub_runs.
  eexists. split; [|reflexivity].
  apply Forall_forall. intros w Hw.
  destruct (proj1 (Forall_forall _ _) (split_words _) w Hw) as [Hne Hnw].
  split; [done|].
  apply Forall_forall. intros c Hc.
  destruct (elem_of_split_from _ _ _ _ Hw Hc) as [?%elem_of_nil|Hin]; [done|].
  rewrite Forall_forall in Hnw. specialize (Hnw c Hc).
  apply elem_of_re_sub_class in Hin. destruct Hin as [[_ Hcls]|Hin].
  - apply negb_false_iff in Hcls. rewrite Hnw, orb_false_r in Hcls.
    apply in_ranges_true_iff in Hcls. destruct Hcls as [r [Hr Hc']].
    unfold is_arabic_letter.
    destruct Hr as [<-|[<-|[]]]; simpl in Hc'; [by left | by right].
  - apply list_elem_of_singleton in Hin. subst c. done.
Qed.

Lemma arabic_count_le text :
  length (filter (fun c => is_arabic_block c = true) text)
  <= length (replace 0x20%Z [] text).
Proof.
  induction text as [|c text IH]; [done|].
  unfold replace. simpl flat_map. fold (replace 0x20%Z [] text).
  rewrite length_app. destruct (Z.eqb_spec c 32).
  - subst c. rewrite filter_cons_False by done. simpl. lia.
  - destruct (is_arabic_block c) eqn:E.
    + rewrite filter_cons_True by done. simpl. lia.
    + rewrite filter_cons_False by (rewrite E; done). simpl. lia.
Qed.

Lemma proportion_and_direction (n m : nat) :
  n <= m ->
  let confidence := if 0 <? m then (Qnat n / Qnat m)%Q else 0%Q in
  let direction :=
    if m =? 0 then "ltr"
    else if Qltb 0.5 (Qnat n / Qnat m) then "rtl" else "ltr" in
  (0 <= confidence <= 1)%Q
  /\ (direction = "rtl" <-> (1 # 2 < confidence)%Q)
  /\ (direction = "rtl" \/ direction = "ltr").
Proof.
  intros Hle. destruct m as [|m]; simpl.
  - split; [split; by apply Qle_bool_iff|]. split; [|by right].
    split; [done|]. intros H. vm_compute in H. discriminate.
  - change (0 <? S m) with true. cbv iota.
    split; [split; [apply Qnat_div_nonneg | by apply Qnat_div_le_1]|].
    destruct (Qltb 0.5 (Qnat n / Qnat (S m))) eqn:E.
    + split; [|by left]. split; [|done]. intros _.
      apply Qltb_true in E. eapply Qle_lt_trans; [|exact E].
      by apply Qle_bool_iff.
    + split; [|by right]. split; [done|]. intros H.
      apply Qltb_false in E. exfalso. apply (Qlt_not_le _ _ H).
      eapply Qle_trans; [exact E|]. by apply Qle_bool_iff.
Qed.

(** X7.  The language confidence is a proportion, and the direction follows
    it: [_calculate_language_confidence] lies in [0, 1], and
    [detect_text_direction] answers ['rtl'] exactly when that confidence
    exceeds one half (['ltr'] otherwise, blank and empty texts included). *)
Theorem direction_follows_language_confidence (text : str) :
  (0 <= _calculate_language_confidence text <= 1)%Q
  /\ (detect_text_direction text = "rtl"
      <-> (1 # 2 < _calculate_language_confidence text)%Q)
  /\ (detect_text_direction text = "rtl" \/ detect_text_direction text = "ltr").
Proof.
  destruct text as [|t0 text].
  - apply (proportion_and_direction 0 0). lia.
  - apply (proportion_and_direction _ _ (arabic_count_le (t0 :: text))).
Qed.

(** ** [sorted] *)

Lemma insert_by_Permutation {A} (le : A -> A -> bool) x l :
  insert_by le x l ≡ₚ x :: l.
Proof.
  induction l as [|y l IH]; simpl; [done|].
  destruct (le x y); [done|]. rewrite IH. apply Permutation_swap.
Qed.




Lemma StronglySorted_weaken {A} (R S : A -> A -> Prop) l :
  (forall x y, R x y -> S x y) -> StronglySorted R l -> StronglySorted S l.
Proof.
  intros HRS. induction 1 as [|x l Hl IH Hx]; constructor; [done|].
  eapply Forall_impl; [exact Hx|]. intros y. apply HRS.
Qed.

Section SortedBy.

Context {A : Type} (le : A -> A -> bool).

Hypothesis le_total : forall x y, le x y = true \/ le y x = true.

Hypothesis le_trans : forall x y z, le x y = true -> le y z = true -> le x z = true.

Lemma insert_by_sorted x l :
  StronglySorted (fun x y => le x y = true) l ->
  StronglySorted (fun x y => le x y = true) (insert_by le x l).
Proof.
  induction 1 as [|y l Hl IH Hy]; simpl.
  - constructor; [constructor | done].
  - destruct (le x y) eqn:E.
    + constructor; [by constructor|]. constructor; [done|].
      eapply Forall_impl; [exact Hy|]. intros z Hz. by eapply le_trans.
    + constructor; [done|].
      apply Forall_forall. intros z Hz.
      rewrite insert_by_Permutation in Hz. apply elem_of_cons in Hz.
      destruct Hz as [->|Hz].
      * destruct (le_total x y) as [H|H]; [congruence | done].
      * rewrite Forall_forall in Hy. by apply Hy.
Qed.

Lemma sorted_by_sorted l :
  StronglySorted (fun x y => le x y = true) (sorted_by le l).
Proof.
  induction l as [|x l IH]; [constructor|].
  unfold sorted_by in *. simpl. by apply insert_by_sorted.
Qed.

End SortedBy.

(** ** [extract_verse_numbers] *)


Lemma fold_left_snoc_map {A B} (f : A -> B) l init :
  fold_left (fun acc m => acc ++ [f m]) l init = init ++ map f l.
Proof.
  revert init. induction l as [|x l IH]; intros init; simpl.
  - by rewrite app_nil_r.
  - by rewrite IH, <- app_assoc.
Qed.


Lemma extract_verse_numbers_unfold text :
  extract_verse_numbers text
  = sorted_by (fun x y => position x <=? position y)
      (fold_left
         (fun verse_numbers m =>
            if negb (existsb (fun v => bool_decide (english v = snd m))
                             verse_numbers)
            then verse_numbers ++ [verse_entry text (snd m) (snd m) (fst m)]
            else verse_numbers)
         (finditer_runs py_isdecimal text)
         (map (fun m => verse_entry text (snd m) (map ARABIC_NUMBERS_get (snd m))
                                    (fst m))
              (finditer_runs arabic_number_pattern text))).
Proof.
  unfold extract_verse_numbers. by rewrite fold_left_snoc_map.
Qed.


(** X9.  The verse numbers come in reading order: the entries returned by
    [extract_verse_numbers] are sorted by ascending position in the text. *)
Theorem extract_verse_numbers_sorted_by_position (text : str) :
  StronglySorted (fun v w => position v <= position w)
                 (extract_verse_numbers text).
Proof.
  rewrite extract_verse_numbers_unfold.
  eapply StronglySorted_weaken;
    [|apply (sorted_by_sorted (fun x y => position x <=? position y))].
  - intros v w H. by apply Nat.leb_le.
  - intros x y. rewrite !Nat.leb_le. lia.
  - intros x y z. rewrite !Nat.leb_le. lia.
Qed.

(** ** The scorers: symmetry, and the perfect score of the edit distance *)

Lemma distance_sym a b : Levenshtein.distance a b = Levenshtein.distance b a.
Proof.
  revert b. induction a as [|x a IHa]; intros b.
  - by rewrite distance_nil_r.
  - induction b as [|y b IHb].
    + by rewrite distance_nil_r.
    + rewrite !distance_cons.
      rewrite (IHa (y :: b)), <- IHb, (IHa b), (Z.eqb_sym x y). lia.
Qed.

Lemma distance_zero a b : Levenshtein.distance a b = 0 <-> a = b.
Proof.
  split; [|intros ->; apply distance_diag].
  revert b. induction a as [|x a IH]; intros b.
  - simpl. by destruct b.
  - destruct b as [|y b]; [by rewrite distance_nil_r|].
    rewrite distance_cons. destruct (Z.eqb_spec x y); [|lia].
    intros H. subst y. f_equal. apply IH. lia.
Qed.

Lemma levenshtein_similarity_sym text1 text2 :
  _levenshtein_similarity text1 text2 = _levenshtein_similarity text2 text1.
Proof.
  unfold _levenshtein_similarity.
  by rewrite distance_sym, Nat.max_comm.
Qed.

Lemma jaccard_sym `{Countable A} (s1 s2 : gset A) : jaccard s1 s2 = jaccard s2 s1.
Proof.
  unfold jaccard.
  assert (s1 ∩ s2 = s2 ∩ s1) as -> by apply intersection_comm_L.
  by assert (s1 ∪ s2 = s2 ∪ s1) as -> by apply union_comm_L.
Qed.

Lemma symbols_bonus_sym self text1 text2 :
  _calculate_symbols_bonus self text1 text2
  = _calculate_symbols_bonus self text2 text1.
Proof.
  unfold _calculate_symbols_bonus. destruct (font_manager self); [|done].
  rewrite jaccard_sym.
  rewrite (andb_comm (bool_decide (symbols_of _ text1 = ∅))).
  by rewrite (andb_comm (bool_decide (symbols_of _ text1 ≠ ∅))).
Qed.

Lemma verse_number_bonus_sym text1 text2 :
  _calculate_verse_number_bonus text1 text2
  = _calculate_verse_number_bonus text2 text1.
Proof.
  unfold _calculate_verse_number_bonus.
  destruct (extract_verse_numbers text1) as [|v1 l1],
           (extract_verse_numbers text2) as [|v2 l2]; try done.
  set (X := list_to_set (map value (v1 :: l1)) : gset Z).
  set (Y := list_to_set (map value (v2 :: l2)) : gset Z).
  assert (Y ∩ X = X ∩ Y) as -> by apply intersection_comm_L.
  destruct (decide (X = Y)) as [E|E].
  - by rewrite (bool_decide_eq_true_2 (X = Y)), (bool_decide_eq_true_2 (Y = X)).
  - by rewrite (bool_decide_eq_false_2 (X = Y)), (bool_decide_eq_false_2 (Y = X)).
Qed.

Lemma advanced_similarity_sym self orig1 orig2 clean1 clean2 :
  _advanced_similarity self orig1 orig2 clean1 clean2
  = _advanced_similarity self orig2 orig1 clean2 clean1.
Proof.
  unfold _advanced_similarity.
  rewrite (jaccard_sym (list_to_set (split clean1))).
  rewrite (jaccard_sym (list_to_set (replace 32%Z [] clean1))).
  rewrite (symbols_bonus_sym self orig1 orig2).
  rewrite (Nat.max_comm (length clean1)), (Nat.min_comm (length clean1)).
  rewrite (andb_comm (bool_decide (list_to_set (split clean1) ≠ ∅))).
  by rewrite (andb_comm (bool_decide (list_to_set (replace 32%Z [] clean1) ≠ ∅))).
Qed.

(** X10.  Which scores are symmetric.  The edit-distance score, the advanced
    score and the two bonuses do not depend on the order of the two texts.
    The [difflib] ratio does, and with it the methods ['simple'] and
    ['combined']: "tide" against "diet" has ratio 0.25, "diet" against
    "tide" 0.5, and the combined score of the first pair is the lower. *)
Theorem scores_symmetric_except_difflib (NFKC : str -> str)
    (self : AdvancedTextProcessor) :
  (forall text1 text2 : str,
     text_similarity NFKC self text1 text2 "levenshtein"
     = text_similarity NFKC self text2 text1 "levenshtein"
     /\ text_similarity NFKC self text1 text2 "advanced"
        = text_similarity NFKC self text2 text1 "advanced"
     /\ _calculate_symbols_bonus self text1 text2
        = _calculate_symbols_bonus self text2 text1
     /\ _calculate_verse_number_bonus text1 text2
        = _calculate_verse_number_bonus text2 text1)
  /\ (text_similarity NFKC_of_normalized processor_without_font
        text_tide text_diet "simple" == 1 # 4)%Q
  /\ (text_similarity NFKC_of_normalized processor_without_font
        text_diet text_tide "simple" == 1 # 2)%Q
  /\ (text_similarity NFKC_of_normalized processor_without_font
        text_tide text_diet "combined"
      < text_similarity NFKC_of_normalized processor_without_font
          text_diet text_tide "combined")%Q.
Proof.
  split; [|by vm_compute].
  intros text1 text2.
  split; [|split; [|split; [apply symbols_bonus_sym | apply verse_number_bonus_sym]]].
  - destruct text1 as [|c1 t1], text2 as [|c2 t2]; try done.
    apply levenshtein_similarity_sym.
  - destruct text1 as [|c1 t1], text2 as [|c2 t2]; try done.
    apply advanced_similarity_sym.
Qed.

Lemma Qnat_div_zero n m : 0 < m -> (Qnat n / Qnat m == 0)%Q -> n = 0.
Proof.
  intros Hm H. destruct n as [|n]; [done|]. exfalso.
  assert (Hpos : (0 < Qnat (S n) / Qnat m)%Q).
  { apply Qlt_shift_div_l; [by apply Qnat_pos|].
    rewrite Qmult_0_l. apply Qnat_pos. lia. }
  rewrite H in Hpos. by apply Qlt_irrefl in Hpos.
Qed.

Lemma levenshtein_similarity_one text1 text2 :
  (_levenshtein_similarity text1 text2 == 1)%Q <-> text1 = text2 /\ text1 <> [].
Proof.
  split.
  - unfold _levenshtein_similarity.
    destruct (0 <? Nat.max (length text1) (length text2)) eqn:E.
    + apply Nat.ltb_lt in E. intros H.
      assert (H0 : (Qnat (Levenshtein.distance text1 text2)
                    / Qnat (Nat.max (length text1) (length text2)) == 0)%Q).
      { lra. }
      apply Qnat_div_zero in H0; [|done]. apply distance_zero in H0.
      split; [done|]. subst text2. intros ->. simpl in E. lia.
    + intros H. vm_compute in H. discriminate.
  - intros [<- Hne]. by apply levenshtein_similarity_self.
Qed.

(** X11.  The perfect score of the edit-distance method.  Method
    ['levenshtein'] returns 1 exactly when both texts are non-empty and
    their cleaned forms are equal and non-empty. *)
Theorem levenshtein_score_is_one_iff_equal_clean_forms (NFKC : str -> str)
    (self : AdvancedTextProcessor) (text1 text2 : str) :
  (text_similarity NFKC self text1 text2 "levenshtein" == 1)%Q
  <-> text1 <> [] /\ text2 <> []
      /\ clean_text NFKC text1 false = clean_text NFKC text2 false
      /\ clean_text NFKC text1 false <> [].
Proof.
  destruct text1 as [|c1 t1]; [split; [intros H; vm_compute in H; discriminate | by intros [? _]]|].
  destruct text2 as [|c2 t2]; [split; [intros H; vm_compute in H; discriminate | by intros [_ [? _]]]|].
  change (text_similarity NFKC self (c1 :: t1) (c2 :: t2) "levenshtein")
    with (_levenshtein_similarity (clean_text NFKC (c1 :: t1) false)
                                  (clean_text NFKC (c2 :: t2) false)).
  rewrite levenshtein_similarity_one. split.
  - intros [? ?]. done.
  - intros (_ & _ & ? & ?). done.
Qed.

(** ** [difflib]: the ratio is at most 1 *)

Section BoundsB.

Variables a b : str.
Variables alo ahi blo bhi : nat.

Lemma scan_row_bounded_b i prev js :
  row_bounded_b blo prev ->
  forall new best,
    row_bounded_b blo new -> best_bounded_b blo bhi best ->
    row_bounded_b blo (fst (difflib.scan_row i blo bhi prev js new best))
    /\ best_bounded_b blo bhi (snd (difflib.scan_row i blo bhi prev js new best)).
Proof.
  intros Hprev. induction js as [|j js IH]; intros new best Hnew Hbest.
  - done.
  - simpl. destruct (Nat.ltb_spec j blo); [by apply IH|].
    destruct (Nat.leb_spec bhi j); [done|].
    assert (difflib.j2len_get_pred prev j <= j - blo) as Hk.
    { destruct j as [|j']; simpl; [lia|].
      destruct (prev !! j') as [v|] eqn:E; simpl; [|lia].
      pose proof (Hprev j' v E). lia. }
    apply IH.
    + intros j' v Hv. destruct (decide (j' = j)) as [->|Hne].
      * rewrite lookup_insert_eq in Hv. injection Hv as <-. lia.
      * rewrite lookup_insert_ne in Hv by done. by apply (Hnew j').
    + destruct (_ <? _); [|done].
      unfold best_bounded_b, difflib.size. simpl. lia.
Qed.

Lemma scan_rows_bounded_b rows :
  forall prev best,
    row_bounded_b blo prev -> best_bounded_b blo bhi best ->
    best_bounded_b blo bhi (difflib.scan_rows a b blo bhi rows prev best).
Proof.
  induction rows as [|i rows IH]; intros prev best Hprev Hbest; [done|].
  simpl. destruct (a !! i) as [x|]; [|done].
  pose proof (scan_row_bounded_b i prev (difflib.b2j_get b x) Hprev ∅ best) as H.
  destruct (difflib.scan_row i blo bhi prev (difflib.b2j_get b x) ∅ best)
    as [new best'].
  destruct H as [Hnew Hbest']; [|done|].
  { intros j v Hv. by rewrite lookup_empty in Hv. }
  by apply IH.
Qed.

Lemma extend_left_bounded_b n :
  forall m, best_bounded_b blo bhi m ->
    best_bounded_b blo bhi (difflib.extend_left a b blo n m).
Proof.
  induction n as [|n IH]; intros [[p q] k] Hm; simpl; [done|].
  destruct (Nat.ltb_spec blo q); simpl; [|done].
  destruct (bool_decide _); [|done].
  apply IH. unfold best_bounded_b, difflib.size in *. simpl in *. lia.
Qed.

Lemma extend_right_bounded_b n :
  forall m, best_bounded_b blo bhi m ->
    best_bounded_b blo bhi (difflib.extend_right a b bhi n m).
Proof.
  induction n as [|n IH]; intros [[p q] k] Hm; simpl; [done|].
  destruct (Nat.ltb_spec (q + k) bhi); simpl; [|done].
  destruct (bool_decide _); [|done].
  apply IH. unfold best_bounded_b, difflib.size in *. simpl in *. lia.
Qed.

(** The block found lies inside the window of [b]. *)
Lemma find_longest_match_bounded_b :
  blo <= bhi ->
  best_bounded_b blo bhi (difflib.find_longest_match a b alo ahi blo bhi).
Proof.
  intros Hlo. unfold difflib.find_longest_match.
  apply extend_right_bounded_b, extend_left_bounded_b, scan_rows_bounded_b.
  - intros j v Hv. by rewrite lookup_empty in Hv.
  - unfold best_bounded_b, difflib.size. simpl. lia.
Qed.

End BoundsB.

Lemma total_size_snoc blocks x :
  total_size (blocks ++ [x]) = total_size blocks + difflib.size x.
Proof.
  induction blocks as [|y blocks IH]; simpl; [lia|]. rewrite IH. lia.
Qed.

(** The blocks found and the windows still queued never cover more than the
    two sequences hold. *)
Lemma matching_loop_bounded a b fuel :
  forall queue blocks na nb,
    Forall window_ok queue -> Forall window_ok_b queue ->
    total_size blocks + queue_span_a queue <= na ->
    total_size blocks + queue_span_b queue <= nb ->
    total_size (difflib.matching_loop a b fuel queue blocks) <= na
    /\ total_size (difflib.matching_loop a b fuel queue blocks) <= nb.
Proof.
  induction fuel as [|fuel IH]; intros queue blocks na nb Hoka Hokb Ha Hb.
  - destruct queue as [|[[[alo ahi] blo] bhi] queue]; simpl; lia.
  - destruct queue as [|[[[alo ahi] blo] bhi] queue]; [simpl in *; lia|].
    apply Forall_cons in Hoka as [Hwa Hoka]. apply Forall_cons in Hokb as [Hwb Hokb].
    unfold window_ok in Hwa. unfold window_ok_b in Hwb.
    simpl in Hwa, Hwb, Ha, Hb. cbn [difflib.matching_loop].
    pose proof (find_longest_match_bounded a b alo ahi blo bhi Hwa) as [H1 H2].
    pose proof (find_longest_match_bounded_b a b alo ahi blo bhi Hwb) as [H3 H4].
    destruct (difflib.find_longest_match a b alo ahi blo bhi) as [[i j] k].
    unfold difflib.size in H2, H4. simpl in H1, H2, H3, H4.
    destruct (Nat.eqb_spec k 0) as [Hk|Hk].
    + apply IH; [done|done|lia|lia].
    + apply IH.
      * repeat (match goal with
                | |- context [if ?c then _ else _] => destruct c eqn:?
                end);
        repeat (apply Forall_cons; split); try done;
          unfold window_ok; simpl;
          repeat match goal with
                 | H : (_ && _) = true |- _ => apply andb_true_iff in H as [? ?]
                 | H : (_ <? _) = true |- _ => apply Nat.ltb_lt in H
                 end; lia.
      * repeat (match goal with
                | |- context [if ?c then _ else _] => destruct c eqn:?
                end);
        repeat (apply Forall_cons; split); try done;
          unfold window_ok_b; simpl;
          repeat match goal with
                 | H : (_ && _) = true |- _ => apply andb_true_iff in H as [? ?]
                 | H : (_ <? _) = true |- _ => apply Nat.ltb_lt in H
                 end; lia.
      * rewrite total_size_snoc. unfold difflib.size. simpl.
        repeat (match goal with
                | |- context [if ?c then _ else _] => destruct c eqn:?
                end);
        simpl;
          repeat match goal with
                 | H : (_ && _) = true |- _ => apply andb_true_iff in H as [? ?]
                 | H : (_ <? _) = true |- _ => apply Nat.ltb_lt in H
                 end; lia.
      * rewrite total_size_snoc. unfold difflib.size. simpl.
        repeat (match goal with
                | |- context [if ?c then _ else _] => destruct c eqn:?
                end);
        simpl;
          repeat match goal with
                 | H : (_ && _) = true |- _ => apply andb_true_iff in H as [? ?]
                 | H : (_ <? _) = true |- _ => apply Nat.ltb_lt in H
                 end; lia.
Qed.

Lemma matches_bounded a b :
  difflib.matches a b <= length a /\ difflib.matches a b <= length b.
Proof.
  unfold difflib.matches, difflib.get_matching_blocks.
  apply (matching_loop_bounded a b _ [(0, length a, 0, length b)] []).
  - repeat constructor. unfold window_ok. simpl. lia.
  - repeat constructor. unfold window_ok_b. simpl. lia.
  - simpl. lia.
  - simpl. lia.
Qed.

Lemma ratio_le_1 a b : (difflib.ratio a b <= 1)%Q.
Proof.
  unfold difflib.ratio, difflib._calculate_ratio.
  destruct (Nat.ltb_spec 0 (length a + length b)) as [H|H]; [|by apply Qle_bool_iff].
  destruct (matches_bounded a b) as [Ha Hb].
  apply Qle_shift_div_r; [by apply Qnat_pos|]. rewrite Qmult_1_l.
  unfold Qnat. rewrite <- (inject_Z_mult 2), <- Zle_Qle. lia.
Qed.

(** X12.  Every method of [text_similarity] returns a score between 0 and 1:
    ['simple'] (the [difflib] ratio, at most 1 because the matching blocks
    are disjoint parts of both texts), ['levenshtein'], ['advanced'],
    ['combined'], and any other method name, which falls back to
    ['simple']. *)
Theorem text_similarity_range_every_method (NFKC : str -> str)
    (self : AdvancedTextProcessor) (text1 text2 : str) (method : string) :
  (0 <= text_similarity NFKC self text1 text2 method <= 1)%Q.
Proof.
  unfold text_similarity.
  destruct text1 as [|c1 t1]; [split; by apply Qle_bool_iff|].
  destruct text2 as [|c2 t2]; [split; by apply Qle_bool_iff|].
  assert (Hs : forall u v, (0 <= _simple_similarity u v <= 1)%Q).
  { intros u v. split; [apply ratio_nonneg | apply ratio_le_1]. }
  repeat case_bool_decide; try apply Hs.
  - apply levenshtein_similarity_range.
  - apply advanced_similarity_range.
  - apply combined_similarity_range.
Qed.

(** ** Choosing the best candidate *)

Lemma find_best_match_ok NFKC self target candidates min_similarity :
  best_match_ok NFKC self target candidates min_similarity
    (find_best_match NFKC self target candidates min_similarity).
Proof.
  unfold find_best_match.
  induction candidates as [|x l IH] using rev_ind.
  - simpl. split; [done|]. by intros c ?%elem_of_nil.
  - rewrite fold_left_app. simpl.
    destruct (fold_left _ l _) as [bm bs]. unfold consider_match.
    destruct (Qltb bs _ && Qle_bool _ _) eqn:E.
    + apply andb_true_iff in E as [E1 E2].
      apply Qltb_true in E1. apply Qle_bool_iff in E2.
      simpl. split; [apply elem_of_app; right; by left|].
      split; [done|]. split; [done|].
      assert (Hpos : (0 < text_similarity NFKC self target x "combined")%Q).
      { destruct bm as [e|]; simpl in IH.
        - destruct IH as (_ & _ & _ & Hp & _). by eapply Qlt_trans.
        - destruct IH as (-> & _). done. }
      split; [done|].
      intros c [Hc|Hc%list_elem_of_singleton]%elem_of_app; [|subst; apply Qle_refl].
      destruct bm as [e|]; simpl in IH.
      * destruct IH as (_ & _ & _ & _ & Hmax).
        apply Qlt_le_weak. eapply Qle_lt_trans; [by apply Hmax | done].
      * destruct IH as (-> & Hall). destruct (Hall c Hc) as [H|H].
        -- apply Qlt_le_weak. by eapply Qle_lt_trans.
        -- apply Qlt_le_weak. by eapply Qlt_le_trans.
    + assert (Hx : (text_similarity NFKC self target x "combined" <= bs)%Q
                   \/ (text_similarity NFKC self target x "combined"
                       < min_similarity)%Q).
      { apply andb_false_iff in E as [E|E].
        - left. by apply Qltb_false.
        - right. by apply Qle_bool_false. }
      destruct bm as [e|]; simpl in *.
      * destruct IH as (Hin & Hs & Ht & Hp & Hmax).
        split; [apply elem_of_app; by left|]. repeat (split; [done|]).
        intros c [Hc|Hc%list_elem_of_singleton]%elem_of_app; [by apply Hmax|].
        subst c. destruct Hx as [Hx|Hx]; [done|].
        apply Qlt_le_weak. by eapply Qlt_le_trans.
      * destruct IH as (-> & Hall). split; [done|].
        intros c [Hc|Hc%list_elem_of_singleton]%elem_of_app; [by apply Hall|].
        by subst c.
Qed.

(** X13.  What [find_best_match] returns.  When it returns a candidate, the
    candidate is one of the list, the score returned is its combined score,
    positive and at least [min_similarity], and no candidate scores higher;
    when it returns [None], the score returned is 0 and every candidate
    scores 0 or less than [min_similarity] (the empty list included). *)
Theorem find_best_match_returns_the_maximum (NFKC : str -> str)
    (self : AdvancedTextProcessor) (target : str) (candidates : list str)
    (min_similarity : Q) :
  let score c := text_similarity NFKC self target c "combined" in
  match find_best_match NFKC self target candidates min_similarity with
  | (Some best, s) =>
      best ∈ candidates /\ s = score best
      /\ (min_similarity <= s)%Q /\ (0 < s)%Q
      /\ forall c, c ∈ candidates -> (score c <= s)%Q
  | (None, s) =>
      s = 0%Q
      /\ forall c, c ∈ candidates ->
           (score c <= 0)%Q \/ (score c < min_similarity)%Q
  end.
Proof. apply find_best_match_ok. Qed.

Section MatcherChoice.

Variable NFKC : str -> str.

Variable self : AyatExtractor.t.


End MatcherChoice.


(** ** The matcher: counters, bounds, thresholds *)

Lemma NoDup_bounded_length (l : list nat) n :
  NoDup l -> (forall x, x ∈ l -> x < n) -> length l <= n.
Proof.
  intros Hnd Hlt.
  rewrite <- (size_list_to_set (C := gset nat) l Hnd).
  rewrite <- (size_set_seq (C := gset nat) 0 n).
  apply subseteq_size. intros x Hx. apply elem_of_list_to_set in Hx.
  apply elem_of_set_seq. apply Hlt in Hx. lia.
Qed.

(** X15.  A page never yields more matches than it has fragments: every match
    consumes a fragment of its own.  In particular a page without fragments
    yields no match. *)
Theorem matches_bounded_by_fragments (NFKC : str -> str)
    (self : AyatExtractor.t) (ayat_df : list AyaRow.t)
    (extracted_texts : list ExtractedText.t) (page_num : Z) (st : State) :
  length (fst (match_ayat_with_texts NFKC self ayat_df extracted_texts
                 page_num st))
  <= length extracted_texts
  /\ fst (match_ayat_with_texts NFKC self ayat_df [] page_num st) = [].
Proof.
  assert (H : forall texts,
            length (fst (match_ayat_with_texts NFKC self ayat_df texts page_num st))
            <= length texts).
  { intros texts.
    destruct (match_ayat_with_texts_trace NFKC self ayat_df texts page_num st)
      as (tr & used & Hm & _ & Hnd & _ & Hall).
    rewrite Hm, length_map, <- (length_map trace_idx).
    apply NoDup_bounded_length; [done|].
    intros x Hx. apply list_elem_of_fmap in Hx as (c & -> & Hc).
    rewrite Forall_forall in Hall. destruct (Hall c Hc) as [Hl _].
    by apply lookup_lt_Some in Hl. }
  split; [apply H|]. specialize (H []).
  destruct (fst (match_ayat_with_texts NFKC self ayat_df [] page_num st));
    [done | simpl in H; lia].
Qed.

Lemma score_against_le_1 NFKC self aya_row e :
  (score_against NFKC self aya_row e <= 1)%Q.
Proof. unfold score_against, _calculate_match_score. apply Q.le_min_r. Qed.

(** X16.  A threshold above 1 matches nothing.  Scores are capped at 1, so
    with [min_similarity] greater than 1 no verse is matched, whatever the
    fragments: every verse of the page is counted as unmatched. *)
Theorem threshold_above_one_matches_nothing (NFKC : str -> str)
    (self : AyatExtractor.t) (ayat_df : list AyaRow.t)
    (extracted_texts : list ExtractedText.t) (page_num : Z) (st : State) :
  (1 < min_similarity (AyatExtractor.config self))%Q ->
  fst (match_ayat_with_texts NFKC self ayat_df extracted_texts page_num st) = []
  /\ stat (snd (match_ayat_with_texts NFKC self ayat_df extracted_texts
                  page_num st)) "unmatched"
     = (stat st "unmatched"
        + Z.of_nat (length (page_rows ayat_df page_num)))%Z.
Proof.
  intros Hmin.
  assert (E : fst (match_ayat_with_texts NFKC self ayat_df extracted_texts
                     page_num st) = []).
  { destruct (match_ayat_with_texts_trace NFKC self ayat_df extracted_texts
                page_num st) as (tr & used & Hm & _ & _ & _ & Hall).
    rewrite Hm. destruct tr as [|c tr]; [done|]. exfalso.
    apply Forall_cons in Hall as [(_ & Hc & _) _].
    pose proof (score_against_le_1 NFKC self (trace_row c) (trace_text c)) as H1.
    apply (Qlt_not_le _ _ Hmin). by eapply Qle_trans. }
  split; [done|].
  destruct (match_ayat_with_texts_run NFKC self ayat_df extracted_texts
              page_num st) as (outcomes & _ & _ & _ & _ & Hu & _).
  cbv zeta in Hu. rewrite Hu, E. simpl. lia.
Qed.

Lemma threshold_above_one_matches_nothing_witness :
  (1 < min_similarity (AyatExtractor.config unreachable_extractor))%Q
  /\ fst (match_ayat_with_texts NFKC_of_normalized unreachable_extractor
            [example_row] [example_fragment text_ab] 1 empty_state) = [].
Proof.
  split; [reflexivity|].
  apply (threshold_above_one_matches_nothing NFKC_of_normalized
           unreachable_extractor [example_row] [example_fragment text_ab] 1
           empty_state).
  reflexivity.
Defined.
